(** * Arena: dice engine, combat entities, party container and simulation loop

    A shallow embedding of the Python package [arena] (dice.py, enums.py,
    equipment.py, monster.py, character.py, party.py, arena.py) and the
    properties of its specification, proved over that embedding.

    Conventions of the embedding:
    - Python [int] is [Z]; [//] on a positive divisor is [Z.div] (both floor).
    - A Python [str] is a [string]; its characters are read as code points
      below 256, where Python's [\d], [str.isspace] and [int()] agree with the
      ASCII/Latin-1 tables written out below.
    - The module-global generator of [random] is an explicit state threaded
      through every stochastic call; what the library computes from that state
      is a parameter ([Random]) constrained only by the documented contract of
      [randint] and [shuffle] ([RandomLaws]).
    - A method that mutates [self] returns the new value of the object; a
      list of objects is a list of values written back by index, which is
      faithful as long as one object is not held twice by the same list.
    - A [while] loop takes a fuel argument and reports [OutOfFuel] when it is
      exhausted; termination is then a theorem (enough fuel gives a result). *)

From Stdlib Require Import ZArith QArith Lia Ascii String.
From stdpp Require Import base tactics option list numbers strings pretty countable gmap
  sorting.

#[local] Open Scope Z_scope.

(** ** Python results *)

Inductive exn : Type :=
  | ValueError (msg : string)
  | IndexError.

Inductive result (A : Type) : Type :=
  | Ok (a : A)
  | Raised (e : exn)
  | OutOfFuel.
Arguments Ok {A} a.
Arguments Raised {A} e.
Arguments OutOfFuel {A}.

Definition returns {A : Type} (r : result A) : Prop := ∃ a, r = Ok a.
Definition raises {A : Type} (r : result A) : Prop := ∃ e, r = Raised e.

(** ** The random generator

    [rng_seed n] is the state after [random.seed(n)] for an integer [n];
    [rng_randint a b] is [random.randint(a, b)] for [a <= b];
    [rng_permutation n] is the rearrangement [random.shuffle] applies to a list
    of length [n]: position [k] of the shuffled list receives the element that
    was at position [p !! k]. *)

Class Random (G : Type) : Type := {
  rng_seed : Z → G;
  rng_randint : Z → Z → G → Z * G;
  rng_permutation : nat → G → list nat * G;
}.

Class RandomLaws (G : Type) `{Random G} : Prop := {
  rng_randint_range : ∀ a b g, a ≤ b → a ≤ (rng_randint a b g).1 ≤ b;
  rng_permutation_perm : ∀ n g, (rng_permutation n g).1 ≡ₚ seq 0 n;
}.

(** Computations over the generator: state passing with exceptions. *)

Definition M (G A : Type) : Type := G → result (A * G).

Definition ret {G A : Type} (a : A) : M G A := λ g, Ok (a, g).

Definition bind {G A B : Type} (m : M G A) (k : A → M G B) : M G B :=
  λ g, match m g with
       | Ok (a, g') => k a g'
       | Raised e => Raised e
       | OutOfFuel => OutOfFuel
       end.

Definition raise {G A : Type} (e : exn) : M G A := λ _, Raised e.

Definition out_of_fuel {G A : Type} : M G A := λ _, OutOfFuel.

Declare Scope py_scope.
Delimit Scope py_scope with py.
Notation "x <- m ;; k" := (bind m (λ x, k))
  (at level 100, m at next level, right associativity) : py_scope.
#[local] Open Scope py_scope.

(** [random.randint(a, b)] raises [ValueError] on an empty range. *)
Definition randint {G : Type} `{Random G} (a b : Z) : M G Z :=
  λ g, if b <? a then Raised (ValueError "empty range for randrange()")
       else Ok (rng_randint a b g).

(** [random.shuffle(x)]: rearranges [x] by the generator's permutation. *)
Definition apply_perm {A : Type} (p : list nat) (l : list A) : list A :=
  omap (λ i, l !! i) p.

Definition shuffle {G A : Type} `{Random G} (l : list A) : M G (list A) :=
  λ g, let '(p, g') := rng_permutation (length l) g in Ok (apply_perm p l, g').

(** [set_random_seed(seed)] of dice.py: [random.seed(seed)].  With [None] the
    library seeds from the operating system's entropy, an input of its own. *)
Definition set_random_seed {G : Type} `{Random G}
    (seed : option Z) (os_entropy : Z) : M G unit :=
  λ _, match seed with
       | Some n => Ok (tt, rng_seed n)
       | None => Ok (tt, rng_seed os_entropy)
       end.

(** ** dice.py *)

Record Dice : Type := mkDice {
  number : Z;
  sides : Z;
  multiplier : Z;
  addition : Z;
}.

(** Dice(number=1, sides=6, multiplier=1, addition=0) *)
Definition Dice2 (n s : Z) : Dice := mkDice n s 1 0.

(** *** Characters *)

Definition code (c : ascii) : N := N_of_ascii c.

(** [\d] *)
Definition is_digit (c : ascii) : bool :=
  ((48 <=? code c) && (code c <=? 57))%N.

(** [str.isspace], as [str.strip()] uses it *)
Definition is_space (c : ascii) : bool :=
  (((9 <=? code c) && (code c <=? 13)) || ((28 <=? code c) && (code c <=? 32))
   || (code c =? 133) || (code c =? 160))%N.

(** the literal [d] under [re.IGNORECASE] *)
Definition is_d (c : ascii) : bool :=
  ((code c =? 100) || (code c =? 68))%N.

(** the operators of group 3 *)
Definition is_mul_op (c : ascii) : bool :=
  ((code c =? 42) || (code c =? 47))%N.

(** the operators of group 5 *)
Definition is_add_op (c : ascii) : bool :=
  ((code c =? 43) || (code c =? 45))%N.

Definition digit_value (c : ascii) : Z := Z.of_N (code c) - 48.

(** [int(s)] on a string of digits *)
Definition int_of_digits (ds : list ascii) : Z :=
  foldl (λ acc c, 10 * acc + digit_value c) 0 ds.

(** [str.strip()] *)
Fixpoint lstrip (l : list ascii) : list ascii :=
  match l with
  | c :: t => if is_space c then lstrip t else l
  | [] => []
  end.

Definition strip (l : list ascii) : list ascii :=
  reverse (lstrip (reverse (lstrip l))).

(** *** The pattern of from_string

    The regular expression has six groups: an optional run of digits (group
    1), the letter d, a run of at least one digit (group 2), an optional
    non-capturing group of an operator among [* /] (group 3) and digits (group
    4), and an optional non-capturing group of an operator among [+ -] (group
    5) and digits (group 6).  [span_digits] is the greedy run of digits: the
    longest one, and what follows it.  An optional group matches its operator
    and digits when both are there, and the empty string otherwise. *)

Fixpoint span_digits (l : list ascii) : list ascii * list ascii :=
  match l with
  | c :: t =>
      if is_digit c then let '(ds, r) := span_digits t in (c :: ds, r)
      else ([], l)
  | [] => ([], [])
  end.

Definition match_optional (op : ascii → bool) (l : list ascii)
    : option (ascii * list ascii) * list ascii :=
  match l with
  | c :: t =>
      if op c then
        match span_digits t with
        | ([], _) => (None, l)
        | (ds, r) => (Some (c, ds), r)
        end
      else (None, l)
  | [] => (None, [])
  end.

(** The groups of a match: groups 1 and 2, groups 3 and 4 (both there or
    both [None]), groups 5 and 6, and the text after the match. *)
Record Match : Type := mkMatch {
  group1 : list ascii;
  group2 : list ascii;
  group34 : option (ascii * list ascii);
  group56 : option (ascii * list ascii);
  unmatched : list ascii;
}.

(** [re.match(pattern, text, re.IGNORECASE)]: anchored at the start only. *)
Definition re_match (text : list ascii) : option Match :=
  let '(count, r1) := span_digits text in
  match r1 with
  | c :: r2 =>
      if is_d c then
        match span_digits r2 with
        | ([], _) => None
        | (sds, r3) =>
            let '(mul, r4) := match_optional is_mul_op r3 in
            let '(add, r5) := match_optional is_add_op r4 in
            Some (mkMatch count sds mul add r5)
        end
      else None
  | [] => None
  end.

Definition is_empty {A : Type} (l : list A) : bool :=
  match l with [] => true | _ => false end.

(** Dice.from_string *)
Definition from_string (dice_str : string) : result Dice :=
  match re_match (strip (list_ascii_of_string dice_str)) with
  | None => Raised (ValueError ("Invalid dice notation: " +:+ dice_str))
  | Some groups =>
      let number := if is_empty (group1 groups) then 1
                    else int_of_digits (group1 groups) in
      let sides := int_of_digits (group2 groups) in
      let multiplier :=
        match group34 groups with
        | Some (op, ds) =>
            let mul_value := int_of_digits ds in
            if (code op =? 42)%N then mul_value
            else if (code op =? 47)%N then - mul_value
            else 1
        | None => 1
        end in
      let addition :=
        match group56 groups with
        | Some (op, ds) =>
            let add_value := int_of_digits ds in
            if (code op =? 43)%N then add_value
            else if (code op =? 45)%N then - add_value
            else 0
        | None => 0
        end in
      Ok (mkDice number sides multiplier addition)
  end.

(** *** Rolling *)

(** The multiplier step shared by roll, max_roll and min_roll. *)
Definition apply_multiplier (result multiplier : Z) : Z :=
  if multiplier >? 0 then result * multiplier
  else if multiplier <? 0 then result `div` Z.abs multiplier
  else result.

(** [sum(random.randint(1, sides) for _ in range(number))], with the draws
    made so far in [acc] and [n] draws to go. *)
Fixpoint sum_randint {G : Type} `{Random G} (n : nat) (sides acc : Z) : M G Z :=
  match n with
  | O => ret acc
  | S n' => x <- randint 1 sides ;; sum_randint n' sides (acc + x)
  end.

(** Dice.roll *)
Definition roll {G : Type} `{Random G} (d : Dice) : M G Z :=
  result <- sum_randint (Z.to_nat (number d)) (sides d) 0 ;;
  let result := apply_multiplier result (multiplier d) in
  let result := result + addition d in
  ret (Z.max result 0).

(** Dice.max_roll *)
Definition max_roll (d : Dice) : Z :=
  let result := number d * sides d in
  let result := apply_multiplier result (multiplier d) in
  let result := result + addition d in
  Z.max result 0.

(** Dice.min_roll *)
Definition min_roll (d : Dice) : Z :=
  let result := number d in
  let result := apply_multiplier result (multiplier d) in
  let result := result + addition d in
  Z.max result 0.

(** Dice.__str__; [pretty] is [str] of an integer. *)
Definition Dice_str (d : Dice) : string :=
  let s := pretty (number d) +:+ "d" +:+ pretty (sides d) in
  let s :=
    if multiplier d =? 1 then s
    else if multiplier d >? 0 then s +:+ "*" +:+ pretty (multiplier d)
    else s +:+ "/" +:+ pretty (Z.abs (multiplier d)) in
  let s :=
    if addition d =? 0 then s
    else if addition d >? 0 then s +:+ "+" +:+ pretty (addition d)
    else s +:+ pretty (addition d) in
  s.

(** ** enums.py *)

Inductive Alignment : Type := LAWFUL | NEUTRAL | CHAOTIC.

Inductive ArmorType : Type := PLATE | CHAIN | LEATHER | SHIELD.

Inductive Ability : Type :=
  STRENGTH | INTELLIGENCE | WISDOM | DEXTERITY | CONSTITUTION | CHARISMA.

Inductive ClassType : Type := FIGHTER | WIZARD | THIEF | ELF | DWARF | HALFLING.

#[global] Instance Ability_eq_dec : EqDecision Ability.
Proof. solve_decision. Defined.

Definition Ability_index (a : Ability) : nat :=
  match a with
  | STRENGTH => 0 | INTELLIGENCE => 1 | WISDOM => 2
  | DEXTERITY => 3 | CONSTITUTION => 4 | CHARISMA => 5
  end%nat.

(** [for ability in Ability]: the members in definition order. *)
Definition Ability_members : list Ability :=
  [STRENGTH; INTELLIGENCE; WISDOM; DEXTERITY; CONSTITUTION; CHARISMA].

#[global] Instance Ability_countable : Countable Ability.
Proof.
  refine (inj_countable' Ability_index
            (λ n, default STRENGTH (Ability_members !! n)) _).
  intros []; reflexivity.
Defined.

(** [class_type.value] *)
Definition ClassType_value (c : ClassType) : string :=
  match c with
  | FIGHTER => "Fighter" | WIZARD => "Wizard" | THIEF => "Thief"
  | ELF => "Elf" | DWARF => "Dwarf" | HALFLING => "Halfling"
  end.

(** [armor_type.name.title()] *)
Definition ArmorType_title (t : ArmorType) : string :=
  match t with
  | PLATE => "Plate" | CHAIN => "Chain" | LEATHER => "Leather"
  | SHIELD => "Shield"
  end.

(** Alignment.random_normal *)
Definition random_normal {G : Type} `{Random G} : M G Alignment :=
  roll <- randint 1 6 ;;
  if (2 <=? roll) && (roll <=? 5) then ret NEUTRAL
  else if roll =? 1 then ret LAWFUL
  else ret CHAOTIC.

(** Alignment.random_uniform *)
Definition random_uniform {G : Type} `{Random G} : M G Alignment :=
  roll <- randint 1 6 ;;
  if (1 <=? roll) && (roll <=? 2) then ret LAWFUL
  else if (3 <=? roll) && (roll <=? 4) then ret NEUTRAL
  else ret CHAOTIC.

(** Alignment.random_lawful *)
Definition random_lawful {G : Type} `{Random G} : M G Alignment :=
  roll <- randint 1 6 ;;
  if (1 <=? roll) && (roll <=? 4) then ret LAWFUL
  else ret NEUTRAL.

(** Alignment.random_chaotic *)
Definition random_chaotic {G : Type} `{Random G} : M G Alignment :=
  roll <- randint 1 6 ;;
  if (1 <=? roll) && (roll <=? 2) then ret NEUTRAL
  else ret CHAOTIC.

(** ** equipment.py *)

Definition MAX_MAGIC_BONUS : Z := 5.

(** Armor, with the fields of its base class Equipment. *)
Record Armor : Type := mkArmor {
  armor_type : ArmorType;
  base_armor : Z;
  armor_name : string;
  armor_magic_bonus : Z;
  armor_weight : Z;
}.

(** Armor.__init__ (Equipment.__init__ caps the magic bonus) *)
Definition Armor_init (t : ArmorType) (base weight magic_bonus : Z) : Armor :=
  mkArmor t base (ArmorType_title t) (Z.min magic_bonus MAX_MAGIC_BONUS) weight.

(** Equipment.set_magic_bonus, on an armor *)
Definition set_magic_bonus (a : Armor) (bonus : Z) : Armor :=
  mkArmor (armor_type a) (base_armor a) (armor_name a)
    (Z.min bonus MAX_MAGIC_BONUS) (armor_weight a).

(** Equipment.inc_magic_bonus, on an armor *)
Definition inc_magic_bonus (a : Armor) : Armor :=
  set_magic_bonus a (armor_magic_bonus a + 1).

(** Armor.get_armor_class *)
Definition get_armor_class (a : Armor) : Z := base_armor a + armor_magic_bonus a.

(** Armor.make_type; the enumeration has no other member to refuse. *)
Definition make_type (t : ArmorType) (magic_bonus : Z) : Armor :=
  match t with
  | PLATE => Armor_init t 6 4 magic_bonus
  | CHAIN => Armor_init t 4 2 magic_bonus
  | LEATHER => Armor_init t 2 1 magic_bonus
  | SHIELD => Armor_init t 1 1 magic_bonus
  end.

Record Weapon : Type := mkWeapon {
  weapon_name : string;
  weapon_magic_bonus : Z;
  weapon_weight : Z;
  weapon_damage_dice : string;
  is_magic : bool;
}.

(** Weapon.__init__ *)
Definition Weapon_init (name damage_dice : string) (weight magic_bonus : Z)
    (is_magic : bool) : Weapon :=
  mkWeapon name (Z.min magic_bonus MAX_MAGIC_BONUS) weight damage_dice
    (is_magic || (magic_bonus >? 0)).

(** Weapon.create_sword *)
Definition create_sword (magic_bonus : Z) : Weapon :=
  Weapon_init "Sword" "1d8" 1 magic_bonus false.

(** ** monster.py *)

Record Attack : Type := mkAttack {
  num_attacks : Z;
  damage_dice : string;
  attack_bonus : Z;
}.

Definition BASE_HIT_DIE : Z := 6.

(** The attributes of a Monster that the engine reads or writes (the
    descriptive strings of the catalogue and the special-ability sets are
    left out: nothing below touches them). *)
Record Monster : Type := mkMonster {
  race : string;
  armor_class : Z;
  move_inches : Z;
  hit_dice : Dice;
  attack : Attack;
  alignment : Alignment;
  equivalent_hit_dice : Z;
  hit_points : Z;
  max_hit_points : Z;
  kill_tally : Z;
  times_meleed : Z;
}.

Definition with_hit_points (hp : Z) (m : Monster) : Monster :=
  mkMonster (race m) (armor_class m) (move_inches m) (hit_dice m) (attack m)
    (alignment m) (equivalent_hit_dice m) hp (max_hit_points m)
    (kill_tally m) (times_meleed m).

Definition with_max_hit_points (hp : Z) (m : Monster) : Monster :=
  mkMonster (race m) (armor_class m) (move_inches m) (hit_dice m) (attack m)
    (alignment m) (equivalent_hit_dice m) (hit_points m) hp
    (kill_tally m) (times_meleed m).

Definition with_armor_class (ac : Z) (m : Monster) : Monster :=
  mkMonster (race m) ac (move_inches m) (hit_dice m) (attack m)
    (alignment m) (equivalent_hit_dice m) (hit_points m) (max_hit_points m)
    (kill_tally m) (times_meleed m).

Definition with_hit_dice (d : Dice) (m : Monster) : Monster :=
  mkMonster (race m) (armor_class m) (move_inches m) d (attack m)
    (alignment m) (equivalent_hit_dice m) (hit_points m) (max_hit_points m)
    (kill_tally m) (times_meleed m).

Definition with_alignment (al : Alignment) (m : Monster) : Monster :=
  mkMonster (race m) (armor_class m) (move_inches m) (hit_dice m) (attack m)
    al (equivalent_hit_dice m) (hit_points m) (max_hit_points m)
    (kill_tally m) (times_meleed m).

Module Monster_.

(** Monster.roll_hit_points *)
Definition roll_hit_points {G : Type} `{Random G} (self : Monster)
    : M G Monster :=
  hp <- roll (hit_dice self) ;;
  let self := with_hit_points hp self in
  ret (with_max_hit_points (hit_points self) self).

(** Monster.__init__ *)
Definition init {G : Type} `{Random G} (race : string)
    (armor_class move_inches : Z) (hit_dice : option Dice)
    (attack : option Attack) : M G Monster :=
  let hit_dice := default (Dice2 1 BASE_HIT_DIE) hit_dice in
  let self :=
    mkMonster race armor_class move_inches hit_dice
      (default (mkAttack 1 "1d6" 0) attack) NEUTRAL (number hit_dice)
      0 0 0 0 in
  roll_hit_points self.

(** Monster.heal_fully *)
Definition heal_fully (self : Monster) : Monster :=
  with_hit_points (max_hit_points self) self.

(** Monster.take_damage: the object after the call and the value returned *)
Definition take_damage (self : Monster) (damage : Z) : Monster * bool :=
  let self := with_hit_points (hit_points self - damage) self in
  (self, hit_points self >? 0).

(** Monster.is_alive *)
Definition is_alive (self : Monster) : bool := hit_points self >? 0.

(** Monster.is_dead *)
Definition is_dead (self : Monster) : bool := hit_points self <=? 0.

(** Monster.get_level *)
Definition get_level (self : Monster) : Z := number (hit_dice self).

End Monster_.

(** ** Python lists and loops *)

(** [l[i]]: a negative index counts from the end; [None] is IndexError. *)
Definition getitem {A : Type} (l : list A) (i : Z) : option A :=
  let n := Z.of_nat (length l) in
  let j := if i <? 0 then i + n else i in
  if (0 <=? j) && (j <? n) then l !! Z.to_nat j else None.

(** [range(start, stop, step)] for a positive step *)
Definition py_range (start stop step : Z) : list Z :=
  (λ k : nat, start + step * Z.of_nat k)
    <$> seq 0 (Z.to_nat ((stop - start + step - 1) `div` step)).

(** [for x in l: body], threading the state the body updates *)
Fixpoint for_each {G S A : Type} (l : list A) (body : S → A → M G S) (s : S)
    : M G S :=
  match l with
  | [] => ret s
  | x :: t => s' <- body s x ;; for_each t body s'
  end.

(** ** character.py *)

Record Character : Type := mkCharacter {
  super : Monster;
  name : string;
  age : Z;
  class_type : ClassType;
  level : Z;
  ability_scores : gmap Ability Z;
  ability_score_damage : gmap Ability Z;
  armor_worn : option Armor;
  shield_held : option Armor;
  weapon_in_hand : option Weapon;
  experience_points : Z;
  sweep_rate : Z;
}.

Definition with_super (m : Monster) (c : Character) : Character :=
  mkCharacter m (name c) (age c) (class_type c) (level c) (ability_scores c)
    (ability_score_damage c) (armor_worn c) (shield_held c) (weapon_in_hand c)
    (experience_points c) (sweep_rate c).

Definition with_name (n : string) (c : Character) : Character :=
  mkCharacter (super c) n (age c) (class_type c) (level c) (ability_scores c)
    (ability_score_damage c) (armor_worn c) (shield_held c) (weapon_in_hand c)
    (experience_points c) (sweep_rate c).

Definition with_level (l : Z) (c : Character) : Character :=
  mkCharacter (super c) (name c) (age c) (class_type c) l (ability_scores c)
    (ability_score_damage c) (armor_worn c) (shield_held c) (weapon_in_hand c)
    (experience_points c) (sweep_rate c).

Definition with_abilities (scores damage : gmap Ability Z) (c : Character)
    : Character :=
  mkCharacter (super c) (name c) (age c) (class_type c) (level c) scores
    damage (armor_worn c) (shield_held c) (weapon_in_hand c)
    (experience_points c) (sweep_rate c).

Definition with_armor_worn (a : option Armor) (c : Character) : Character :=
  mkCharacter (super c) (name c) (age c) (class_type c) (level c)
    (ability_scores c) (ability_score_damage c) a (shield_held c)
    (weapon_in_hand c) (experience_points c) (sweep_rate c).

Definition with_shield_held (a : option Armor) (c : Character) : Character :=
  mkCharacter (super c) (name c) (age c) (class_type c) (level c)
    (ability_scores c) (ability_score_damage c) (armor_worn c) a
    (weapon_in_hand c) (experience_points c) (sweep_rate c).

Definition with_weapon_in_hand (w : option Weapon) (c : Character) : Character :=
  mkCharacter (super c) (name c) (age c) (class_type c) (level c)
    (ability_scores c) (ability_score_damage c) (armor_worn c) (shield_held c)
    w (experience_points c) (sweep_rate c).

Module Character_.

Definition BASE_AGE : Z := 18.
Definition BASE_ARMOR_CLASS : Z := 9.
Definition BASE_MOVEMENT : Z := 12.

Definition ABILITY_DICE : list Dice :=
  [ Dice2 3 6; mkDice 2 6 1 6; mkDice 2 4 1 10; mkDice 2 3 1 12 ].

(** The inherited Monster.roll_hit_points *)
Definition roll_hit_points {G : Type} `{Random G} (self : Character)
    : M G Character :=
  m <- Monster_.roll_hit_points (super self) ;;
  ret (with_super m self).

(** Character.roll_ability_scores *)
Definition roll_ability_scores {G : Type} `{Random G} (self : Character)
    (dice_option : Z) : M G Character :=
  match getitem ABILITY_DICE dice_option with
  | None => raise IndexError
  | Some dice =>
      for_each Ability_members
        (λ self ability,
           score <- roll dice ;;
           ret (with_abilities (<[ability := score]> (ability_scores self))
                  (<[ability := 0]> (ability_score_damage self)) self))
        self
  end.

(** Character.__init__ *)
Definition init {G : Type} `{Random G} (name : string) (level : Z)
    (class_type : ClassType) : M G Character :=
  super <- Monster_.init (ClassType_value class_type +:+ " " +:+ pretty level)
             BASE_ARMOR_CLASS BASE_MOVEMENT (Some (Dice2 level 6))
             (Some (mkAttack 1 "1d8" 0)) ;;
  let self :=
    mkCharacter super name BASE_AGE class_type level ∅ ∅ None None None 0 0 in
  self <- roll_ability_scores self 0 ;;
  roll_hit_points self.

(** Character.get_ability_score *)
Definition get_ability_score (self : Character) (ability : Ability) : Z :=
  let base := default 10 (ability_scores self !! ability) in
  let damage := default 0 (ability_score_damage self !! ability) in
  Z.max 0 (base - damage).

(** Character.get_ability_modifier *)
Definition get_ability_modifier (self : Character) (ability : Ability) : Z :=
  let score := get_ability_score self ability in
  if score <=? 8 then -1
  else if score <=? 12 then 0
  else 1.

(** Character.take_ability_damage *)
Definition take_ability_damage (self : Character) (ability : Ability)
    (damage : Z) : Character :=
  let current := default 0 (ability_score_damage self !! ability) in
  with_abilities (ability_scores self)
    (<[ability := current + damage]> (ability_score_damage self)) self.

(** Character.update_armor_class *)
Definition update_armor_class (self : Character) : Character :=
  let ac := BASE_ARMOR_CLASS in
  let ac := match armor_worn self with
            | Some armor => ac - get_armor_class armor
            | None => ac
            end in
  let ac := match shield_held self with
            | Some shield => ac - get_armor_class shield
            | None => ac
            end in
  let dex_mod := get_ability_modifier self DEXTERITY in
  let ac := ac - dex_mod in
  with_super (with_armor_class ac (super self)) self.

(** Character.set_armor *)
Definition set_armor (self : Character) (armor : option Armor) : Character :=
  update_armor_class (with_armor_worn armor self).

(** Character.set_shield *)
Definition set_shield (self : Character) (shield : option Armor) : Character :=
  update_armor_class (with_shield_held shield self).

(** Character.set_weapon *)
Definition set_weapon (self : Character) (weapon : option Weapon) : Character :=
  with_weapon_in_hand weapon self.

(** The inherited Monster.set_alignment *)
Definition set_alignment (self : Character) (al : Alignment) : Character :=
  with_super (with_alignment al (super self)) self.

(** Character.get_level *)
Definition get_level (self : Character) : Z := level self.

(** Character.level_up *)
Definition level_up {G : Type} `{Random G} (self : Character) : M G Character :=
  let self := with_level (level self + 1) self in
  let self := with_super (with_hit_dice (Dice2 (level self) 6) (super self)) self in
  roll_hit_points self.

(** Character.zero_ability_damage *)
Definition zero_ability_damage (self : Character) : Character :=
  foldl (λ self ability,
           with_abilities (ability_scores self)
             (<[ability := 0]> (ability_score_damage self)) self)
    self Ability_members.

(** Character.has_null_ability_score: the first ability at 0 ends the loop *)
Definition has_null_ability_score (self : Character) : bool :=
  existsb (λ ability, get_ability_score self ability <=? 0) Ability_members.

(** Character.draw_best_weapon; the opponent is not looked at *)
Definition draw_best_weapon (self : Character) : Character :=
  match weapon_in_hand self with
  | Some _ => self
  | None => with_weapon_in_hand (Some (create_sword 0)) self
  end.

(** Character.sheathe_weapon *)
Definition sheathe_weapon (self : Character) : Character :=
  with_weapon_in_hand None self.

End Character_.

(** ** Combatants: what a Party holds

    A member is a Monster or a Character; the methods below are the ones the
    container and the arena call, dispatched on the class of the object. *)

Inductive Combatant : Type :=
  | AMonster (m : Monster)
  | ACharacter (c : Character).

Definition base (x : Combatant) : Monster :=
  match x with AMonster m => m | ACharacter c => super c end.

Definition on_base (f : Monster → Monster) (x : Combatant) : Combatant :=
  match x with
  | AMonster m => AMonster (f m)
  | ACharacter c => ACharacter (with_super (f (super c)) c)
  end.

Definition get_hit_points (x : Combatant) : Z := hit_points (base x).
Definition get_max_hit_points (x : Combatant) : Z := max_hit_points (base x).

Definition is_alive (x : Combatant) : bool := Monster_.is_alive (base x).
Definition is_dead (x : Combatant) : bool := Monster_.is_dead (base x).

Definition take_damage (x : Combatant) (damage : Z) : Combatant * bool :=
  (on_base (λ m, (Monster_.take_damage m damage).1) x,
   (Monster_.take_damage (base x) damage).2).

Definition heal_fully (x : Combatant) : Combatant := on_base Monster_.heal_fully x.

Definition get_level (x : Combatant) : Z :=
  match x with
  | AMonster m => Monster_.get_level m
  | ACharacter c => Character_.get_level c
  end.

(** ** party.py *)

Record Party : Type := mkParty { members : list Combatant }.

Module Party_.

(** Party.__init__ *)
Definition init : Party := mkParty [].

(** Party.add_member *)
Definition add_member (self : Party) (member : Combatant) : Party :=
  mkParty (members self ++ [member]).

(** Party.get_size *)
Definition get_size (self : Party) : Z := Z.of_nat (length (members self)).

(** Party.get_living_members *)
Definition get_living_members (self : Party) : list Combatant :=
  filter (λ m, is_alive m) (members self).

(** Party.get_dead_members *)
Definition get_dead_members (self : Party) : list Combatant :=
  filter (λ m, is_dead m) (members self).

(** Party.num_living *)
Definition num_living (self : Party) : Z :=
  Z.of_nat (length (get_living_members self)).

(** Party.num_dead *)
Definition num_dead (self : Party) : Z :=
  Z.of_nat (length (get_dead_members self)).

(** Party.shuffle_members *)
Definition shuffle_members {G : Type} `{Random G} (self : Party) : M G Party :=
  l <- shuffle (members self) ;; ret (mkParty l).

(** Party.bring_out_your_dead: the list returned and the party after *)
Definition bring_out_your_dead (self : Party) : list Combatant * Party :=
  let dead := get_dead_members self in
  let self := mkParty (get_living_members self) in
  (dead, self).

(** Party.clear_fallen *)
Definition clear_fallen (self : Party) : Party :=
  (bring_out_your_dead self).2.

(** Party.heal_all *)
Definition heal_all (self : Party) : Party :=
  mkParty (heal_fully <$> members self).

(** Party.get_average_level; the quotient of the two integers is kept
    exact. *)
Definition get_average_level (self : Party) : Q :=
  match members self with
  | [] => 0%Q
  | _ => Qdiv (inject_Z (foldl Z.add 0 (get_level <$> members self)))
           (inject_Z (Z.of_nat (length (members self))))
  end.

(** [max(items, key=key)] on a non-empty sequence: the running maximum is
    replaced only by a strictly larger key. *)
Fixpoint max_by {A : Type} (key : A → Z) (best : A) (rest : list A) : A :=
  match rest with
  | [] => best
  | x :: rest' =>
      if key x >? key best then max_by key x rest' else max_by key best rest'
  end.

(** Party.get_highest_level_member: [None] is Python's None *)
Definition get_highest_level_member (self : Party) : result (option Combatant) :=
  match members self with
  | [] => Ok None
  | first :: rest => Ok (Some (max_by get_level first rest))
  end.

(** Party.all_dead *)
Definition all_dead (self : Party) : bool := num_living self =? 0.

(** Party.any_alive *)
Definition any_alive (self : Party) : bool := num_living self >? 0.

(** Party.get_total_hit_points *)
Definition get_total_hit_points (self : Party) : Z :=
  foldl Z.add 0 (get_hit_points <$> get_living_members self).

(** Party.get_total_max_hit_points *)
Definition get_total_max_hit_points (self : Party) : Z :=
  foldl Z.add 0 (get_max_hit_points <$> members self).

(** [list.sort(key=key, reverse=reverse)]: the stable sort, which keeps the
    members of equal key in the order they had, also when reversed.  The
    member [x] stood before all of [sorted]. *)
Fixpoint sort_insert {A : Type} (key : A → Z) (reverse : bool) (x : A)
    (sorted : list A) : list A :=
  match sorted with
  | [] => [x]
  | y :: sorted' =>
      if (if reverse then key y <=? key x else key x <=? key y)
      then x :: y :: sorted'
      else y :: sort_insert key reverse x sorted'
  end.

Definition list_sort {A : Type} (key : A → Z) (reverse : bool) (l : list A)
    : list A :=
  foldr (sort_insert key reverse) [] l.

(** Party.sort_by_level *)
Definition sort_by_level (self : Party) (reverse : bool) : Party :=
  mkParty (list_sort get_level reverse (members self)).

End Party_.

(** ** arena.py *)

Record Arena : Type := mkArena {
  arena_id : Z;
  num_years : Z;
  fights_per_year : Z;
  num_fighters : Z;
  start_level : Z;
  fighter_party_size : Z;
  fight_man_vs_monster : bool;
  report_year_end : bool;
  report_every_encounter : bool;
  base_armor_type : option ArmorType;
  fighter_list : Party;
}.

Definition with_fighter_list (p : Party) (a : Arena) : Arena :=
  mkArena (arena_id a) (num_years a) (fights_per_year a) (num_fighters a)
    (start_level a) (fighter_party_size a) (fight_man_vs_monster a)
    (report_year_end a) (report_every_encounter a) (base_armor_type a) p.

(** What the loops below record besides the state they compute: who struck
    and for how much in a combat, which positions met in a duel phase, the
    order of the members after the shuffle, the dead that the cull removed
    and the population at the end of the cycle. *)
Inductive Striker : Type := Fighter1 | Fighter2.

Definition Blow : Type := (Striker * Z)%type.

Record Encounter : Type := mkEncounter {
  first_index : Z;
  second_index : Z;
  blows : list Blow;
}.

Record CycleLog : Type := mkCycleLog {
  shuffled : list Combatant;
  encounters : list Encounter;
  fallen : list Combatant;
  survivors : list Combatant;
}.

(** What [year_end] prints when [report_year_end] is set. *)
Record Snapshot : Type := mkSnapshot {
  year_number : Z;
  living_fighters : Z;
  average_level : Q;
}.

Record YearLog : Type := mkYearLog {
  cycles : list CycleLog;
  report : option Snapshot;
  at_year_end : Party;
}.

Module Arena_.

(** Arena.__init__; [id] is the identity of the new object, [id(self)]. *)
Definition init (id : Z) : Arena :=
  mkArena id 50 12 100 1 1 false false false (Some PLATE) Party_.init.

(** Arena.new_fighter *)
Definition new_fighter {G : Type} `{Random G} (self : Arena) (level : Z)
    : M G Character :=
  fighter <- Character_.init ("Fighter_" +:+ pretty (arena_id self)) level FIGHTER ;;
  al <- random_normal ;;
  let fighter := Character_.set_alignment fighter al in
  let fighter :=
    match base_armor_type self with
    | Some t => Character_.set_armor fighter (Some (make_type t 0))
    | None => fighter
    end in
  let fighter := Character_.set_weapon fighter (Some (create_sword 0)) in
  ret fighter.

(** Arena.recruit_new_fighters *)
Fixpoint recruit_new_fighters {G : Type} `{Random G} (fuel : nat) (self : Arena)
    : M G Arena :=
  if Party_.get_size (fighter_list self) <? num_fighters self then
    match fuel with
    | O => out_of_fuel
    | S fuel' =>
        fighter <- new_fighter self (start_level self) ;;
        recruit_new_fighters fuel'
          (with_fighter_list
             (Party_.add_member (fighter_list self) (ACharacter fighter)) self)
    end
  else ret self.

(** The loop of Arena._simple_combat, with the blows struck so far. *)
Fixpoint combat_loop {G : Type} `{Random G} (fuel : nat)
    (fighter1 fighter2 : Combatant) (log : list Blow)
    : M G (Combatant * Combatant * list Blow) :=
  if is_alive fighter1 && is_alive fighter2 then
    match fuel with
    | O => out_of_fuel
    | S fuel' =>
        damage <- roll (Dice2 1 8) ;;
        let fighter2 := (take_damage fighter2 damage).1 in
        let log := log ++ [(Fighter1, damage)] in
        if negb (is_alive fighter2) then ret (fighter1, fighter2, log)
        else
          damage <- roll (Dice2 1 8) ;;
          let fighter1 := (take_damage fighter1 damage).1 in
          combat_loop fuel' fighter1 fighter2 (log ++ [(Fighter2, damage)])
    end
  else ret (fighter1, fighter2, log).

(** Arena._simple_combat *)
Definition _simple_combat {G : Type} `{Random G} (fuel : nat)
    (fighter1 fighter2 : Combatant) : M G (Combatant * Combatant * list Blow) :=
  combat_loop fuel fighter1 fighter2 [].

(** One iteration of the loop of Arena.fight_duels_man_vs_man: the two
    objects at [i] and [i + 1] fight, and what the combat did to them is
    what the list holds at these positions afterwards. *)
Definition duel {G : Type} `{Random G} (fuel : nat)
    (st : list Combatant * list Encounter) (i : Z)
    : M G (list Combatant * list Encounter) :=
  let '(members, log) := st in
  match getitem members i, getitem members (i + 1) with
  | Some fighter1, Some fighter2 =>
      r <- _simple_combat fuel fighter1 fighter2 ;;
      let '(fighter1, fighter2, blows) := r in
      ret (<[Z.to_nat (i + 1) := fighter2]> (<[Z.to_nat i := fighter1]> members),
           log ++ [mkEncounter i (i + 1) blows])
  | _, _ => raise IndexError
  end.

(** Arena.fight_duels_man_vs_man *)
Definition fight_duels_man_vs_man {G : Type} `{Random G} (fuel : nat)
    (self : Arena) : M G (Arena * list Encounter) :=
  let members := members (fighter_list self) in
  r <- for_each (py_range 0 (Z.of_nat (length members) - 1) 2)
         (duel fuel) (members, []) ;;
  ret (with_fighter_list (mkParty r.1) self, r.2).

(** Arena.fight_duels_man_vs_monster: prints a notice, changes nothing *)
Definition fight_duels_man_vs_monster {G : Type} (self : Arena)
    : M G (Arena * list Encounter) :=
  ret (self, []).

(** Arena.fight_duels *)
Definition fight_duels {G : Type} `{Random G} (fuel : nat) (self : Arena)
    : M G (Arena * list Encounter) :=
  if fight_man_vs_monster self then fight_duels_man_vs_monster self
  else fight_duels_man_vs_man fuel self.

(** Arena.run_one_cycle *)
Definition run_one_cycle {G : Type} `{Random G} (fuel : nat) (self : Arena)
    : M G (Arena * CycleLog) :=
  self <- recruit_new_fighters fuel self ;;
  party <- Party_.shuffle_members (fighter_list self) ;;
  let self := with_fighter_list party self in
  let roster := members party in
  r <- fight_duels fuel self ;;
  let '(self, encounters) := r in
  let '(dead, party) := Party_.bring_out_your_dead (fighter_list self) in
  let party := Party_.clear_fallen party in
  let party := Party_.heal_all party in
  ret (with_fighter_list party self,
     mkCycleLog roster encounters dead (members party)).

(** Arena.year_end *)
Definition year_end (self : Arena) (year : Z) : option Snapshot :=
  if report_year_end self then
    Some (mkSnapshot year (Party_.num_living (fighter_list self))
            (Party_.get_average_level (fighter_list self)))
  else None.

(** Arena.run_sim *)
Definition run_sim {G : Type} `{Random G} (fuel : nat) (self : Arena)
    : M G (Arena * list YearLog) :=
  for_each (py_range 1 (num_years self + 1) 1)
    (λ st year,
       r <- for_each (py_range 0 (fights_per_year self) 1)
              (λ st' _,
                 r <- run_one_cycle fuel st'.1 ;;
                 ret (r.1, st'.2 ++ [r.2]))
              (st.1, []) ;;
       ret (r.1, st.2 ++ [mkYearLog r.2 (year_end r.1 year) (fighter_list r.1)]))
    (self, []).

End Arena_.

(** ** A generator that replays a tape

    A concrete generator, to run the model: the state is a tape of raw
    draws, [randint] reduces the next draw into the range asked for, and a
    shuffle keeps or reverses the list by the parity of the next draw.  An
    exhausted tape gives the lowest value and the identity. *)

Module Tape.

Definition randint (a b : Z) (g : list Z) : Z * list Z :=
  match g with
  | [] => (a, [])
  | x :: t => (a + x `mod` (b - a + 1), t)
  end.

Definition permutation (n : nat) (g : list Z) : list nat * list Z :=
  match g with
  | [] => (seq 0 n, [])
  | x :: t => (if Z.even x then seq 0 n else reverse (seq 0 n), t)
  end.

Definition seed (n : Z) : list Z :=
  (λ k : nat, n + 7 * Z.of_nat k) <$> seq 0 64.

End Tape.

#[global] Instance Tape_Random : Random (list Z) := {
  rng_seed := Tape.seed;
  rng_randint := Tape.randint;
  rng_permutation := Tape.permutation;
}.

(** The arithmetic that follows the dice of a roll: the multiplier or
    divisor, the addend, the floor at zero. *)
Definition pipeline (d : Dice) (dice_total : Z) : Z :=
  Z.max (apply_multiplier dice_total (multiplier d) + addition d) 0.

(** [first_max key l i m]: [m] is at position [i] of [l], no member of [l]
    has a larger key, and every member before [i] has a smaller one. *)
Definition first_max {A : Type} (key : A → Z) (l : list A) (i : nat) (m : A)
    : Prop :=
  l !! i = Some m
  ∧ (∀ j y, l !! j = Some y → key y ≤ key m)
  ∧ (∀ j y, (j < i)%nat → l !! j = Some y → key y < key m).

Definition goblin (hp : Z) : Combatant :=
  AMonster (mkMonster "Goblin" 6 12 (Dice2 1 6) (mkAttack 1 "1d6" 0) NEUTRAL 1
              hp hp 0 0).

(** *** The grammar of dice expressions, as the specification writes it

    [[count] 'd' sides [('*'|'/') magnitude] [('+'|'-') amount]]: [count] is a
    possibly empty run of digits and defaults to 1, [sides] is a run of at
    least one digit, a magnitude after [/] is kept as a negative multiplier,
    an amount after [-] as a negative addend.  [grammar_with c text d] reads
    the letter as [c]; [grammar] is the grammar with the letter d. *)

Definition digits (l : list ascii) : Prop := Forall (λ c, is_digit c) l.

Inductive optional_part (plus minus : ascii) (absent : Z)
    : list ascii → Z → Prop :=
  | part_absent : optional_part plus minus absent [] absent
  | part_plus ds :
      ds ≠ [] → digits ds →
      optional_part plus minus absent (plus :: ds) (int_of_digits ds)
  | part_minus ds :
      ds ≠ [] → digits ds →
      optional_part plus minus absent (minus :: ds) (- int_of_digits ds).

Inductive grammar_with (letter : ascii) : list ascii → Dice → Prop :=
  | grammar_intro count sds mul add m a :
      digits count → digits sds → sds ≠ [] →
      optional_part "*" "/" 1 mul m →
      optional_part "+" "-" 0 add a →
      grammar_with letter (count ++ letter :: sds ++ mul ++ add)
        (mkDice (if is_empty count then 1 else int_of_digits count)
           (int_of_digits sds) m a).

Definition grammar : list ascii → Dice → Prop := grammar_with "d".

Definition matches_grammar (s : string) : Prop :=
  ∃ d, grammar (list_ascii_of_string s) d.


(** *** Reading the log of a combat

    [strike b] is the blow [b] landing: the striker's damage taken by the
    other fighter.  [after_blows] replays a log.  [alternates next log]: the
    strikers of [log] alternate, starting with [next].
    [fought_until_one_fell st log]: every blow of [log] was struck while both
    fighters stood, and after the last one they did not both stand. *)

Definition strike (b : Blow) (st : Combatant * Combatant)
    : Combatant * Combatant :=
  match b.1 with
  | Fighter1 => (st.1, (take_damage st.2 b.2).1)
  | Fighter2 => ((take_damage st.1 b.2).1, st.2)
  end.

Definition after_blows (st : Combatant * Combatant) (log : list Blow)
    : Combatant * Combatant :=
  foldl (λ st b, strike b st) st log.

Definition both_alive (st : Combatant * Combatant) : bool :=
  is_alive st.1 && is_alive st.2.

Definition other (s : Striker) : Striker :=
  match s with Fighter1 => Fighter2 | Fighter2 => Fighter1 end.

Definition same_striker (s t : Striker) : bool :=
  match s, t with
  | Fighter1, Fighter1 | Fighter2, Fighter2 => true
  | _, _ => false
  end.

Fixpoint alternates (next : Striker) (log : list Blow) : bool :=
  match log with
  | [] => true
  | b :: log' => same_striker b.1 next && alternates (other next) log'
  end.

Fixpoint fought_until_one_fell (st : Combatant * Combatant) (log : list Blow)
    : bool :=
  match log with
  | [] => negb (both_alive st)
  | b :: log' => both_alive st && fought_until_one_fell (strike b st) log'
  end.

Definition exactly_one_standing (f1 f2 : Combatant) : Prop :=
  (is_alive f1 ∧ is_dead f2) ∨ (is_dead f1 ∧ is_alive f2).

Definition fighter (race : string) (hp : Z) : Combatant :=
  AMonster (mkMonster race 6 12 (Dice2 1 6) (mkAttack 1 "1d6" 0) NEUTRAL 1
              hp hp 0 0).

(** [worn_down x x']: [x'] is [x] except for its hit points, which are not
    higher. *)
Definition worn_down (x x' : Combatant) : Prop :=
  on_base (with_hit_points (get_hit_points x)) x' = x
  ∧ get_hit_points x' ≤ get_hit_points x.

(** The positions that meet in a duel phase over [n] members. *)
Definition duel_pairs (n : nat) : list (Z * Z) :=
  (λ k : nat, (2 * Z.of_nat k, 2 * Z.of_nat k + 1)) <$> seq 0 ((n - 1) / 2).

Definition encounter_pair (e : Encounter) : Z * Z :=
  (first_index e, second_index e).

(** [met before after k e]: the encounter [e] is the duel of the members at
    positions [2k] and [2k+1] of [before]: its blows alternate from the first
    of the two, each for 1 to 8, were struck while both stood and ended when
    one did not; the members at these positions of [after] are the two
    fighters after these blows; two fighters that were both alive exchanged
    at least one blow, and exactly one of them is left standing. *)
Definition met (before after : list Combatant) (k : nat) (e : Encounter)
    : Prop :=
  first_index e = 2 * Z.of_nat k ∧ second_index e = 2 * Z.of_nat k + 1
  ∧ ∃ f1 f2,
      before !! (2 * k)%nat = Some f1 ∧ before !! (2 * k + 1)%nat = Some f2
      ∧ alternates Fighter1 (blows e)
      ∧ Forall (λ b : Blow, 1 ≤ b.2 ≤ 8) (blows e)
      ∧ fought_until_one_fell (f1, f2) (blows e)
      ∧ after !! (2 * k)%nat = Some (after_blows (f1, f2) (blows e)).1
      ∧ after !! (2 * k + 1)%nat = Some (after_blows (f1, f2) (blows e)).2
      ∧ (is_alive f1 → is_alive f2 →
         blows e ≠ []
         ∧ exactly_one_standing (after_blows (f1, f2) (blows e)).1
             (after_blows (f1, f2) (blows e)).2).

(** A fresh arena holding the given members. *)
Definition arena_of (ms : list Combatant) : Arena :=
  with_fighter_list (mkParty ms) (Arena_.init 0).

(** The invariant of the data model (current hit points never above the
    maximum), and what a completed cycle leaves: a member that is alive and
    at its maximum, which is at least 1. *)
Definition within_max (x : Combatant) : Prop :=
  get_hit_points x ≤ get_max_hit_points x.

Definition healed (x : Combatant) : Prop :=
  is_alive x ∧ get_hit_points x = get_max_hit_points x
  ∧ 1 ≤ get_max_hit_points x.

(** The armour class the specification derives: 9, minus the worn armour's
    base reduction and magic bonus, minus the held shield's, minus the
    dexterity modifier. *)
Definition derived_armor_class (c : Character) : Z :=
  9 - from_option get_armor_class 0 (armor_worn c)
    - from_option get_armor_class 0 (shield_held c)
    - Character_.get_ability_modifier c DEXTERITY.

(** *** Simulation runs and what is observed of them

    A configuration is what the command line or direct assignment sets on a
    new Arena.  A seeded run seeds the generator with an integer, builds the
    arena (at whatever identity the interpreter gives it) and runs the
    simulation.  The observation of a run keeps everything but the identity
    of the arena and the names derived from it: every Character is renamed
    to the name it would have in the arena of identity 0. *)

Record Config : Type := mkConfig {
  cfg_num_years : Z;
  cfg_fights_per_year : Z;
  cfg_population_size : Z;
  cfg_start_level : Z;
  cfg_party_size : Z;
  cfg_base_armor : option ArmorType;
  cfg_man_vs_monster : bool;
  cfg_report_year_end : bool;
  cfg_report_every_encounter : bool;
}.

Definition configured (id : Z) (cfg : Config) : Arena :=
  mkArena id (cfg_num_years cfg) (cfg_fights_per_year cfg)
    (cfg_population_size cfg) (cfg_start_level cfg) (cfg_party_size cfg)
    (cfg_man_vs_monster cfg) (cfg_report_year_end cfg)
    (cfg_report_every_encounter cfg) (cfg_base_armor cfg) Party_.init.

Definition seeded_run {G : Type} `{Random G} (fuel : nat) (seed entropy : Z)
    (cfg : Config) (id : Z) : M G (Arena * list YearLog) :=
  _ <- set_random_seed (Some seed) entropy ;;
  Arena_.run_sim fuel (configured id cfg).

Definition map_result {G A B : Type} (f : A → B) (r : result (A * G))
    : result (B * G) :=
  match r with
  | Ok (a, g) => Ok (f a, g)
  | Raised e => Raised e
  | OutOfFuel => OutOfFuel
  end.

Definition anonymous_name : string := "Fighter_" +:+ pretty 0.

Definition anonymous (x : Combatant) : Combatant :=
  match x with
  | AMonster m => AMonster m
  | ACharacter c => ACharacter (with_name anonymous_name c)
  end.

Definition anonymous_party (p : Party) : Party :=
  mkParty (anonymous <$> members p).

Definition anonymous_arena (a : Arena) : Arena :=
  mkArena 0 (num_years a) (fights_per_year a) (num_fighters a)
    (start_level a) (fighter_party_size a) (fight_man_vs_monster a)
    (report_year_end a) (report_every_encounter a) (base_armor_type a)
    (anonymous_party (fighter_list a)).

Definition anonymous_cycle (l : CycleLog) : CycleLog :=
  mkCycleLog (anonymous <$> shuffled l) (encounters l) (anonymous <$> fallen l)
    (anonymous <$> survivors l).

Definition anonymous_year (y : YearLog) : YearLog :=
  mkYearLog (anonymous_cycle <$> cycles y) (report y)
    (anonymous_party (at_year_end y)).

Definition observe (r : Arena * list YearLog) : Arena * list YearLog :=
  (anonymous_arena r.1, anonymous_year <$> r.2).

(** A party whose members are all healed. *)
Definition all_healed (p : Party) : Prop := Forall healed (members p).

(** A small configuration: 2 years of 3 fights for 4 fighters of level 1 in
    plate, man against man, with year-end reports. *)
Definition small_config : Config :=
  mkConfig 2 3 4 1 1 (Some PLATE) false true false.

(** *** Helpers of the statements about the parser *)

(** The text does not start with a digit: what [span_digits] leaves. *)
Definition no_digit_ahead (r : list ascii) : Prop :=
  match r with [] => True | c :: _ => is_digit c = false end.

(** The text does not start with an operator of [op]. *)
Definition no_op_ahead (op : ascii → bool) (l : list ascii) : Prop :=
  match l with [] => True | c :: _ => op c = false end.


(** The characters a text of the grammar is made of. *)
Definition grammar_char (c : ascii) : bool :=
  is_digit c || (code c =? 100)%N || is_mul_op c || is_add_op c.

(** The multiplier step with the division the specification names, which
    truncates toward zero. *)
Definition apply_multiplier_truncating (result multiplier : Z) : Z :=
  if multiplier >? 0 then result * multiplier
  else if multiplier <? 0 then result `quot` Z.abs multiplier
  else result.

(** *** Calls on an armor

    The two mutators of the magic bonus, to speak of any sequence of them. *)
Inductive BonusCall : Type :=
  | CallSet (bonus : Z)
  | CallInc.

Definition call_bonus (a : Armor) (c : BonusCall) : Armor :=
  match c with
  | CallSet bonus => set_magic_bonus a bonus
  | CallInc => inc_magic_bonus a
  end.

(** *** Order by a key

    [in_order key reverse x y]: [x] may stand before [y] in a list sorted by
    [key], from the highest key down when [reverse]. *)
Definition in_order {A : Type} (key : A → Z) (reverse : bool) (x y : A) : Prop :=
  if reverse then key y ≤ key x else key x ≤ key y.

(** *** Recruits

    [recruit self level c]: what [new_fighter] makes of a fighter of the
    arena: the arena's name for it, the level asked for, a plain sword, the
    arena's base armor if it has one and then the armor class derived from it,
    hit points at their maximum. *)
Definition recruit (self : Arena) (lvl : Z) (c : Character) : Prop :=
  name c = "Fighter_" +:+ pretty (arena_id self)
  ∧ level c = lvl ∧ class_type c = FIGHTER
  ∧ weapon_in_hand c = Some (create_sword 0)
  ∧ armor_worn c = (λ t, make_type t 0) <$> base_armor_type self
  ∧ shield_held c = None
  ∧ armor_class (super c)
    = match base_armor_type self with
      | Some _ => derived_armor_class c
      | None => 9
      end
  ∧ hit_dice (super c) = Dice2 lvl 6
  ∧ hit_points (super c) = max_hit_points (super c)
  ∧ Z.max lvl 0 ≤ hit_points (super c) ≤ 6 * Z.max lvl 0
  ∧ ∀ a, 3 ≤ Character_.get_ability_score c a ≤ 18.

(** * Properties *)

#[global] Instance Tape_RandomLaws : RandomLaws (list Z).
Proof.
  split.
  - intros a b [|x t] Hab; simpl; [lia|].
    pose proof (Z.mod_pos_bound x (b - a + 1)). lia.
  - intros n [|x t]; simpl; [done|].
    destruct (Z.even x); [done|]. apply reverse_Permutation.
Qed.

(** ** The monad *)

Lemma bind_Ok {G A B : Type} (m : M G A) (k : A → M G B) g a g' :
  m g = Ok (a, g') → bind m k g = k a g'.
Proof. unfold bind. intros ->. reflexivity. Qed.

(** ** Dice *)

Section dice.
Context {G : Type} `{RandomLaws G}.

Lemma randint_spec (a b : Z) (g : G) :
  a ≤ b → ∃ v g', randint a b g = Ok (v, g') ∧ a ≤ v ≤ b.
Proof.
  intros Hab. unfold randint.
  destruct (Z.ltb_spec b a); [lia|].
  pose proof (rng_randint_range a b g Hab).
  destruct (rng_randint a b g) as [v g']. eauto.
Qed.

Lemma sum_randint_spec (n : nat) (s acc : Z) (g : G) :
  1 ≤ s →
  ∃ v g', sum_randint n s acc g = Ok (v, g')
          ∧ acc + Z.of_nat n ≤ v ≤ acc + Z.of_nat n * s.
Proof.
  intros Hs. revert acc g. induction n as [|n IH]; intros acc g.
  - exists acc, g. split; [reflexivity|lia].
  - destruct (randint_spec 1 s g Hs) as (x & g1 & Hx & Hr).
    destruct (IH (acc + x) g1) as (v & g2 & Hv & Hb).
    exists v, g2. split; [|nia].
    cbn [sum_randint]. rewrite (bind_Ok _ _ _ _ _ Hx). exact Hv.
Qed.

Lemma apply_multiplier_mono (a b m : Z) :
  a ≤ b → apply_multiplier a m ≤ apply_multiplier b m.
Proof.
  intros Hab. unfold apply_multiplier.
  destruct (Z.gtb_spec m 0); [nia|].
  destruct (Z.ltb_spec m 0); [|lia].
  apply Z.div_le_mono; lia.
Qed.

Lemma pipeline_mono (d : Dice) (a b : Z) : a ≤ b → pipeline d a ≤ pipeline d b.
Proof.
  intros Hab. unfold pipeline.
  pose proof (apply_multiplier_mono a b (multiplier d) Hab). lia.
Qed.

Lemma roll_spec (d : Dice) (g : G) :
  0 ≤ number d → 1 ≤ sides d →
  ∃ total g', roll d g = Ok (pipeline d total, g')
              ∧ number d * 1 ≤ total ≤ number d * sides d.
Proof.
  intros Hn Hs.
  destruct (sum_randint_spec (Z.to_nat (number d)) (sides d) 0 g Hs)
    as (v & g' & Hv & Hb).
  exists v, g'. split; [|lia].
  unfold roll. rewrite (bind_Ok _ _ _ _ _ Hv). reflexivity.
Qed.

End dice.

(** C5: for a dice expression with count at least 0 and at least one side,
    whatever the generator draws, [roll] returns a value between [min_roll]
    and [max_roll]; the three are the same pipeline (multiply or divide, add,
    floor at zero) applied to the dice total, which is [count] times 1 for
    [min_roll], [count] times [sides] for [max_roll], and between the two for
    [roll]; on these totals, which are not negative, the floor division of
    the code is the truncating one. *)
Theorem roll_between_min_roll_and_max_roll
    {G : Type} `{RandomLaws G} (d : Dice) (g : G) :
  0 ≤ number d → 1 ≤ sides d →
  ∃ v g' total,
    roll d g = Ok (v, g')
    ∧ min_roll d ≤ v ≤ max_roll d
    ∧ number d * 1 ≤ total ≤ number d * sides d
    ∧ v = pipeline d total
    ∧ min_roll d = pipeline d (number d * 1)
    ∧ max_roll d = pipeline d (number d * sides d)
    ∧ (∀ t, 0 ≤ t →
         apply_multiplier t (multiplier d)
         = apply_multiplier_truncating t (multiplier d)).
Proof.
  intros Hn Hs.
  destruct (roll_spec d g Hn Hs) as (total & g' & Hr & Hb).
  exists (pipeline d total), g', total.
  assert (min_roll d = pipeline d (number d * 1)) as Hmin
    by (unfold min_roll, pipeline; rewrite Z.mul_1_r; reflexivity).
  assert (max_roll d = pipeline d (number d * sides d)) as Hmax by reflexivity.
  split; [done|].
  split; [split; [rewrite Hmin|rewrite Hmax]; apply pipeline_mono; lia|].
  split; [lia|]. split; [done|]. split; [done|]. split; [done|].
  intros t Ht. unfold apply_multiplier, apply_multiplier_truncating.
  destruct (multiplier d >? 0); [done|].
  destruct (Z.ltb_spec (multiplier d) 0); [|done].
  symmetry. apply Z.quot_div_nonneg; lia.
Qed.

Lemma roll_between_min_roll_and_max_roll_witness :
  ∃ v g' total,
    roll (mkDice 2 8 1 3) [4; 9; 1] = Ok (v, g')
    ∧ min_roll (mkDice 2 8 1 3) ≤ v ≤ max_roll (mkDice 2 8 1 3)
    ∧ 2 * 1 ≤ total ≤ 2 * 8
    ∧ v = pipeline (mkDice 2 8 1 3) total
    ∧ min_roll (mkDice 2 8 1 3) = pipeline (mkDice 2 8 1 3) (2 * 1)
    ∧ max_roll (mkDice 2 8 1 3) = pipeline (mkDice 2 8 1 3) (2 * 8)
    ∧ (∀ t, 0 ≤ t →
         apply_multiplier t 1 = apply_multiplier_truncating t 1).
Proof.
  apply (roll_between_min_roll_and_max_roll (mkDice 2 8 1 3) [4; 9; 1]);
    simpl; lia.
Defined.

(** ** Combatants *)

Lemma with_hit_points_same (m : Monster) : with_hit_points (hit_points m) m = m.
Proof. destruct m; reflexivity. Qed.

Lemma on_base_id (f : Monster → Monster) (x : Combatant) :
  f (base x) = base x → on_base f x = x.
Proof. destruct x as [m|c]; simpl; intros ->; [done|]. by destruct c. Qed.

Lemma base_on_base (f : Monster → Monster) (x : Combatant) :
  base (on_base f x) = f (base x).
Proof. by destruct x. Qed.

Lemma take_damage_hit_points (x : Combatant) (amount : Z) :
  get_hit_points (take_damage x amount).1 = get_hit_points x - amount.
Proof. unfold get_hit_points, take_damage. simpl. by rewrite base_on_base. Qed.

Lemma is_alive_hit_points (x : Combatant) : is_alive x ↔ 0 < get_hit_points x.
Proof.
  unfold is_alive, Monster_.is_alive, get_hit_points.
  destruct (Z.gtb_spec (hit_points (base x)) 0); simpl; intuition lia.
Qed.

Lemma is_dead_hit_points (x : Combatant) : is_dead x ↔ get_hit_points x ≤ 0.
Proof.
  unfold is_dead, Monster_.is_dead, get_hit_points.
  destruct (Z.leb_spec (hit_points (base x)) 0); simpl; intuition lia.
Qed.

Lemma is_dead_not_alive (x : Combatant) : is_dead x ↔ ¬ is_alive x.
Proof. rewrite is_dead_hit_points, is_alive_hit_points. lia. Qed.

Lemma is_dead_of_not_alive (x : Combatant) : is_alive x = false → is_dead x.
Proof. intros Hx. apply is_dead_not_alive. rewrite Hx. exact id. Qed.

Lemma take_damage_subtracts_amount_aux (x : Combatant) (amount : Z) :
  on_base (with_hit_points (get_hit_points x)) (take_damage x amount).1 = x.
Proof.
  destruct x as [m|c]; [destruct m|destruct c as [m]; destruct m]; reflexivity.
Qed.

(** C1, as the code has it: for every combatant and every amount, of either
    sign, [take_damage] returns (it cannot raise), the new hit points are the
    old ones minus the amount with no floor, nothing else changes, and the
    value returned says whether the new hit points are above 0.  An amount of
    0 leaves the combatant as it was; a negative amount is not ignored, it
    raises the hit points. *)
Theorem take_damage_subtracts_amount (x : Combatant) (amount : Z) :
  get_hit_points (take_damage x amount).1 = get_hit_points x - amount
  ∧ on_base (with_hit_points (get_hit_points x)) (take_damage x amount).1 = x
  ∧ (take_damage x amount).2 = bool_decide (0 < get_hit_points (take_damage x amount).1)
  ∧ take_damage x 0 = (x, is_alive x)
  ∧ (if amount <? 0
     then get_hit_points x < get_hit_points (take_damage x amount).1
     else get_hit_points (take_damage x amount).1 ≤ get_hit_points x).
Proof.
  split; [apply take_damage_hit_points|].
  split.
  { apply take_damage_subtracts_amount_aux. }
  split.
  { rewrite take_damage_hit_points. unfold take_damage, get_hit_points. simpl.
    destruct (Z.gtb_spec (hit_points (base x) - amount) 0);
      symmetry; [apply bool_decide_eq_true|apply bool_decide_eq_false]; lia. }
  split.
  { unfold take_damage, is_alive, Monster_.is_alive. simpl.
    rewrite Z.sub_0_r. f_equal. apply on_base_id.
    rewrite Z.sub_0_r. apply with_hit_points_same. }
  rewrite take_damage_hit_points. destruct (Z.ltb_spec amount 0); lia.
Qed.

(** C1, as the claim states it, fails: a goblin with 4 hit points that takes
    -3 damage (an amount below 0) has 7 hit points afterwards. *)
Lemma take_damage_negative_amount_is_not_a_noop :
  ∃ (x : Combatant) (amount : Z),
    amount ≤ 0
    ∧ get_hit_points x = 4
    ∧ get_hit_points (take_damage x amount).1 = 7
    ∧ get_hit_points (take_damage x amount).1 ≠ get_hit_points x.
Proof. exists (goblin 4), (-3). repeat split; [lia|discriminate]. Qed.

(** ** Party *)

Lemma first_max_extend {A : Type} (key : A → Z) (seen : list A) (i : nat)
    (best x : A) :
  first_max key seen i best →
  first_max key (seen ++ [x])
    (if key x >? key best then length seen else i)
    (if key x >? key best then x else best).
Proof.
  intros (Hi & Hall & Hbefore).
  assert (∀ j y, (seen ++ [x]) !! j = Some y →
                 seen !! j = Some y ∨ (j = length seen ∧ y = x)) as Hsplit.
  { intros j y Hj. apply lookup_app_Some in Hj as [Hj|[Hge Hj]]; [by left|].
    right. destruct (j - length seen)%nat as [|k] eqn:Hk; simplify_eq/=.
    split; [lia|done]. }
  destruct (Z.gtb_spec (key x) (key best)) as [Hgt|Hle].
  - split; [by rewrite list_lookup_middle|].
    split.
    + intros j y Hj. destruct (Hsplit j y Hj) as [Hs|[_ ->]]; [|lia].
      specialize (Hall j y Hs). lia.
    + intros j y Hlt Hj. destruct (Hsplit j y Hj) as [Hs|[-> _]]; [|lia].
      specialize (Hall j y Hs). lia.
  - split; [by apply lookup_app_l_Some|].
    split.
    + intros j y Hj. destruct (Hsplit j y Hj) as [Hs|[_ ->]]; [eauto|lia].
    + intros j y Hlt Hj. destruct (Hsplit j y Hj) as [Hs|[-> _]]; [eauto|].
      apply lookup_lt_Some in Hi. lia.
Qed.

Lemma max_by_first_max {A : Type} (key : A → Z) (rest seen : list A) (i : nat)
    (best : A) :
  first_max key seen i best →
  ∃ i', first_max key (seen ++ rest) i' (Party_.max_by key best rest).
Proof.
  revert seen i best. induction rest as [|x rest IH]; intros seen i best Hfm.
  - exists i. by rewrite app_nil_r.
  - pose proof (first_max_extend key seen i best x Hfm) as Hx.
    simpl. rewrite (cons_middle x seen rest), app_assoc.
    destruct (key x >? key best); eapply IH; exact Hx.
Qed.

(** C4, as the code has it: on an empty party [get_highest_level_member]
    returns None and raises nothing; on a non-empty party it returns the
    first member, in the order of the list, among those of maximal level. *)
Theorem get_highest_level_member_first_of_maximal_level (p : Party) :
  match members p with
  | [] => Party_.get_highest_level_member p = Ok None
  | _ :: _ =>
      ∃ i m, Party_.get_highest_level_member p = Ok (Some m)
             ∧ first_max get_level (members p) i m
  end.
Proof.
  unfold Party_.get_highest_level_member.
  destruct (members p) as [|first rest]; [done|].
  destruct (max_by_first_max get_level rest [first] 0 first) as [i Hi].
  - split; [done|]. split.
    + intros [|j] y Hj; simplify_eq/=. lia.
    + intros j y Hlt. lia.
  - eauto.
Qed.

(** C4, as the claim states it, fails: the query on the empty party returns
    None, it does not raise. *)
Lemma get_highest_level_member_of_empty_party_returns_None :
  Party_.get_highest_level_member Party_.init = Ok None
  ∧ ¬ raises (Party_.get_highest_level_member Party_.init).
Proof. split; [reflexivity|]. intros [e He]. discriminate He. Qed.
Lemma get_dead_members_complement (p : Party) :
  Party_.get_dead_members p = filter (λ m, ¬ is_alive m) (members p).
Proof.
  unfold Party_.get_dead_members. apply list_filter_iff.
  intros m. apply is_dead_not_alive.
Qed.

Lemma living_plus_dead (p : Party) :
  Party_.num_living p + Party_.num_dead p = Party_.get_size p.
Proof.
  unfold Party_.num_living, Party_.num_dead, Party_.get_size,
    Party_.get_living_members.
  rewrite get_dead_members_complement, <- Nat2Z.inj_add, <- length_app.
  by rewrite filter_app_complement.
Qed.

Lemma no_dead_among_the_living (l : list Combatant) :
  filter (λ m, is_dead m) (filter (λ m, is_alive m) l) = [].
Proof.
  induction l as [|x l IH]; [done|].
  rewrite (filter_cons (λ m, Is_true (is_alive m))).
  destruct (decide (is_alive x)) as [Ha|Hd]; [|done].
  rewrite (filter_cons (λ m, Is_true (is_dead m))).
  destruct (decide (is_dead x)) as [Hx|_]; [|done].
  by apply is_dead_not_alive in Hx.
Qed.

(** C7: in every state of a party the living and the dead members are an
    exact partition of the members by hit points above 0 (their counts add up
    to the size, each list keeps the order of the party), the queries are
    functions of the party that return lists and leave it as it is, and
    [bring_out_your_dead] returns the dead members in the order they had in
    the party and leaves a party with the living ones and no dead member. *)
Theorem living_and_dead_partition_the_party (p : Party) :
  Party_.num_living p + Party_.num_dead p = Party_.get_size p
  ∧ (∀ m, m ∈ Party_.get_living_members p ↔ m ∈ members p ∧ 0 < get_hit_points m)
  ∧ (∀ m, m ∈ Party_.get_dead_members p ↔ m ∈ members p ∧ get_hit_points m ≤ 0)
  ∧ Party_.get_living_members p ++ Party_.get_dead_members p ≡ₚ members p
  ∧ sublist (Party_.get_living_members p) (members p)
  ∧ sublist (Party_.get_dead_members p) (members p)
  ∧ (Party_.bring_out_your_dead p).1 = Party_.get_dead_members p
  ∧ members (Party_.bring_out_your_dead p).2 = Party_.get_living_members p
  ∧ Party_.num_dead (Party_.bring_out_your_dead p).2 = 0
  ∧ Party_.get_dead_members (Party_.bring_out_your_dead p).2 = [].
Proof.
  split; [apply living_plus_dead|].
  split.
  { intros m. unfold Party_.get_living_members.
    rewrite list_elem_of_filter, is_alive_hit_points. tauto. }
  split.
  { intros m. unfold Party_.get_dead_members.
    rewrite list_elem_of_filter, is_dead_hit_points. tauto. }
  split.
  { rewrite get_dead_members_complement. apply filter_app_complement. }
  split; [apply sublist_filter|].
  split; [apply sublist_filter|].
  split; [reflexivity|].
  split; [reflexivity|].
  unfold Party_.num_dead, Party_.bring_out_your_dead, Party_.get_dead_members,
    Party_.get_living_members. simpl.
  by rewrite no_dead_among_the_living.
Qed.

(** ** Parsing dice expressions *)

Lemma ascii_of_code (c : ascii) (n : N) : code c = n → c = ascii_of_N n.
Proof. intros <-. symmetry. apply ascii_N_embedding. Qed.

Ltac all_chars c :=
  destruct c as [[] [] [] [] [] [] [] []]; vm_compute; try done.

Lemma digit_not_space (c : ascii) : is_digit c → is_space c = false.
Proof. all_chars c. Qed.


Lemma mul_op_cases (c : ascii) : is_mul_op c → c = "*"%char ∨ c = "/"%char.
Proof.
  unfold is_mul_op. intros Hc. apply orb_True in Hc as [Hc|Hc];
    apply Is_true_eq_true, N.eqb_eq, ascii_of_code in Hc; auto.
Qed.

Lemma add_op_cases (c : ascii) : is_add_op c → c = "+"%char ∨ c = "-"%char.
Proof.
  unfold is_add_op. intros Hc. apply orb_True in Hc as [Hc|Hc];
    apply Is_true_eq_true, N.eqb_eq, ascii_of_code in Hc; auto.
Qed.


Lemma span_digits_app (ds r : list ascii) :
  digits ds →
  span_digits (ds ++ r) = (ds ++ (span_digits r).1, (span_digits r).2).
Proof.
  induction 1 as [|c ds Hc _ IH]; simpl.
  - by destruct (span_digits r).
  - apply Is_true_eq_true in Hc. rewrite Hc, IH. reflexivity.
Qed.

Lemma span_digits_stop (r : list ascii) :
  no_digit_ahead r → span_digits r = ([], r).
Proof. destruct r as [|c r]; simpl; [done|]. by intros ->. Qed.

Lemma span_digits_exact (ds r : list ascii) :
  digits ds → no_digit_ahead r → span_digits (ds ++ r) = (ds, r).
Proof.
  intros Hds Hr. rewrite span_digits_app, span_digits_stop by done.
  simpl. by rewrite app_nil_r.
Qed.

Lemma match_optional_absent (op : ascii → bool) (l : list ascii) :
  no_op_ahead op l → match_optional op l = (None, l).
Proof. destruct l as [|c l]; simpl; [done|]. by intros ->. Qed.

Lemma match_optional_present (op : ascii → bool) (c : ascii) (ds r : list ascii) :
  op c → ds ≠ [] → digits ds → no_digit_ahead r →
  match_optional op (c :: ds ++ r) = (Some (c, ds), r).
Proof.
  intros Hc Hne Hds Hr. simpl. apply Is_true_eq_true in Hc. rewrite Hc.
  rewrite span_digits_exact by done. by destruct ds.
Qed.



Lemma strip_no_space (l : list ascii) :
  Forall (λ c, is_space c = false) l → strip l = l.
Proof.
  assert (∀ k, Forall (λ c, is_space c = false) k → lstrip k = k) as Hl.
  { intros k Hk. destruct Hk as [|c k Hc Hk]; simpl; [done|]. by rewrite Hc. }
  intros Hall. unfold strip. rewrite (Hl l Hall).
  rewrite Hl by (by apply Forall_reverse). apply reverse_involutive.
Qed.

Lemma digits_no_space (ds : list ascii) :
  digits ds → Forall (λ c, is_space c = false) ds.
Proof.
  intros Hds. eapply Forall_impl; [exact Hds|]. intros c. apply digit_not_space.
Qed.

Lemma optional_part_no_space plus minus absent l v :
  is_space plus = false → is_space minus = false →
  optional_part plus minus absent l v → Forall (λ c, is_space c = false) l.
Proof.
  intros ?? []; [constructor|..]; (constructor; [done|by apply digits_no_space]).
Qed.

(** A text of the grammar parses to the dice it denotes. *)
Lemma from_string_grammar (s : string) (d : Dice) :
  grammar (list_ascii_of_string s) d → from_string s = Ok d.
Proof.
  unfold from_string. intros Hg.
  destruct Hg as [count sds mul add m a Hcount Hsds Hne Hmul Hadd].
  rewrite strip_no_space.
  2:{ apply Forall_app; split; [by apply digits_no_space|].
      apply Forall_cons; split; [done|].
      apply Forall_app; split; [by apply digits_no_space|].
      apply Forall_app; split; eapply optional_part_no_space; by eauto. }
  assert (no_digit_ahead add) as Hadd' by (by destruct Hadd).
  assert (no_digit_ahead (mul ++ add)) as Hmul' by (by destruct Hmul).
  unfold re_match.
  rewrite span_digits_exact by done.
  change (is_d "d") with true. cbv iota.
  rewrite span_digits_exact by done.
  destruct sds as [|s0 sds]; [done|].
  assert (match_optional is_mul_op (mul ++ add) =
          (match mul with [] => None | op :: ds => Some (op, ds) end, add))
    as ->.
  { destruct Hmul as [|ds ? ?|ds ? ?].
    - apply match_optional_absent. by destruct Hadd.
    - by apply match_optional_present.
    - by apply match_optional_present. }
  assert (match_optional is_add_op add =
          (match add with [] => None | op :: ds => Some (op, ds) end, []))
    as ->.
  { destruct Hadd as [|ds ? ?|ds ? ?]; [done|..];
      rewrite <- (app_nil_r ds) at 1; by apply match_optional_present. }
  cbn [group1 group2 group34 group56].
  by destruct Hmul, Hadd.
Qed.

Lemma grammar_chars (text : list ascii) (d : Dice) :
  grammar text d → forallb grammar_char text = true.
Proof.
  assert (∀ ds, digits ds → forallb grammar_char ds = true) as Hdigits.
  { intros ds Hds. apply Is_true_eq_true, forallb_True.
    eapply Forall_impl; [exact Hds|]. intros c Hc. unfold grammar_char.
    apply Is_true_eq_true in Hc. by rewrite Hc. }
  assert (∀ plus minus absent l v,
            grammar_char plus = true → grammar_char minus = true →
            optional_part plus minus absent l v →
            forallb grammar_char l = true) as Hpart.
  { intros plus minus absent l v Hp Hm []; simpl; [done|..];
      rewrite ?Hp, ?Hm; by apply Hdigits. }
  intros [count sds mul add m a Hcount Hsds _ Hmul Hadd].
  rewrite forallb_app. simpl. rewrite !forallb_app.
  rewrite !Hdigits by done.
  rewrite (Hpart "*"%char "/"%char 1 mul m), (Hpart "+"%char "-"%char 0 add a);
    done.
Qed.





(** The pattern is matched at the start of the text only, though a text it
    does not match is refused as invalid notation: the string 2d8+3xyz
    parses to count 2, sides 8, addend 3. *)
Lemma from_string_ignores_trailing_characters :
  from_string "2d8+3xyz" = Ok (mkDice 2 8 1 3)
  ∧ ¬ matches_grammar "2d8+3xyz".
Proof.
  split; [vm_compute; reflexivity|].
  intros [d Hd]. apply grammar_chars in Hd. vm_compute in Hd. discriminate Hd.
Qed.

(** ** Combat *)

Section combat.
Context {G : Type} `{RandomLaws G}.

Lemma roll_returns (d : Dice) (g : G) :
  1 ≤ sides d → ∃ v g', roll d g = Ok (v, g') ∧ 0 ≤ v.
Proof.
  intros Hs.
  destruct (sum_randint_spec (Z.to_nat (number d)) (sides d) 0 g Hs)
    as (v & g' & Hv & _).
  eexists _, g'. unfold roll. rewrite (bind_Ok _ _ _ _ _ Hv).
  split; [reflexivity|]. simpl. lia.
Qed.

Lemma roll_d8 (g : G) :
  ∃ d g', roll (Dice2 1 8) g = Ok (d, g') ∧ 1 ≤ d ≤ 8.
Proof.
  destruct (roll_spec (Dice2 1 8) g) as (total & g' & Hr & Hb);
    [simpl; lia..|].
  exists total, g'. split; [|simpl in Hb; lia].
  rewrite Hr. unfold pipeline, apply_multiplier. simpl in *.
  do 2 f_equal. lia.
Qed.

Lemma combat_loop_unfold (fuel : nat) (f1 f2 : Combatant) (log : list Blow) :
  Arena_.combat_loop (G:=G) fuel f1 f2 log =
  if is_alive f1 && is_alive f2 then
    match fuel with
    | O => out_of_fuel
    | S fuel' =>
        damage <- roll (Dice2 1 8) ;;
        let fighter2 := (take_damage f2 damage).1 in
        let log := log ++ [(Fighter1, damage)] in
        if negb (is_alive fighter2) then ret (f1, fighter2, log)
        else
          damage <- roll (Dice2 1 8) ;;
          let fighter1 := (take_damage f1 damage).1 in
          Arena_.combat_loop fuel' fighter1 fighter2 (log ++ [(Fighter2, damage)])
    end
  else ret (f1, f2, log).
Proof. destruct fuel; reflexivity. Qed.

Lemma combat_loop_spec (n : nat) (f1 f2 : Combatant) (log0 : list Blow) (g : G) :
  get_hit_points f1 ≤ Z.of_nat n →
  ∃ f1' f2' log g',
    (∀ fuel, (n ≤ fuel)%nat →
       Arena_.combat_loop fuel f1 f2 log0 g = Ok (f1', f2', log0 ++ log, g'))
    ∧ alternates Fighter1 log
    ∧ Forall (λ b : Blow, 1 ≤ b.2 ≤ 8) log
    ∧ fought_until_one_fell (f1, f2) log
    ∧ after_blows (f1, f2) log = (f1', f2')
    ∧ (is_alive f2 → exactly_one_standing f1' f2').
Proof.
  revert f1 f2 log0 g. induction n as [|n IH]; intros f1 f2 log0 g Hhp.
  - exists f1, f2, [], g.
    assert (is_alive f1 = false) as Hd.
    { apply not_true_is_false. intros Ha.
      apply Is_true_eq_left, is_alive_hit_points in Ha. lia. }
    split.
    { intros fuel _. rewrite combat_loop_unfold, Hd, app_nil_r. reflexivity. }
    split; [done|]. split; [constructor|].
    split; [unfold fought_until_one_fell, both_alive; cbn [fst snd]; by rewrite Hd|].
    split; [done|]. intros Ha. right. split; [|done].
    by apply is_dead_of_not_alive.
  - destruct (is_alive f1 && is_alive f2) eqn:Hboth.
    2:{ exists f1, f2, [], g.
        split.
        { intros fuel _. rewrite combat_loop_unfold, Hboth, app_nil_r.
          reflexivity. }
        split; [done|]. split; [constructor|].
        split; [unfold fought_until_one_fell, both_alive; cbn [fst snd]; by rewrite Hboth|].
        split; [done|]. intros Ha. right. split; [|done].
        apply is_dead_not_alive. intros Ha1.
        apply Is_true_eq_true in Ha, Ha1. by rewrite Ha, Ha1 in Hboth. }
    apply andb_true_iff in Hboth as [Ha1 Ha2].
    destruct (roll_d8 g) as (d1 & g1 & Hr1 & Hd1).
    destruct (is_alive (take_damage f2 d1).1) eqn:Ha2'.
    + destruct (roll_d8 g1) as (d2 & g2 & Hr2 & Hd2).
      destruct (IH (take_damage f1 d2).1 (take_damage f2 d1).1
                  ((log0 ++ [(Fighter1, d1)]) ++ [(Fighter2, d2)]) g2)
        as (f1' & f2' & log & g' & Hrun & Halt & Hrange & Hfought & Hafter & Hone).
      { rewrite take_damage_hit_points. lia. }
      exists f1', f2', ((Fighter1, d1) :: (Fighter2, d2) :: log), g'.
      split.
      { intros [|fuel] Hfuel; [lia|].
        rewrite combat_loop_unfold, Ha1, Ha2. cbn [andb].
        rewrite (bind_Ok _ _ _ _ _ Hr1). cbn zeta. rewrite Ha2'. cbn [negb].
        rewrite (bind_Ok _ _ _ _ _ Hr2). cbn zeta.
        rewrite Hrun by lia. by rewrite <- !app_assoc. }
      split; [done|].
      split; [by constructor; [|constructor]|].
      split.
      { cbn [fought_until_one_fell]. unfold both_alive, strike.
        cbn [fst snd]. by rewrite Ha1, Ha2, Ha2'. }
      split; [done|].
      intros _. apply Hone. by rewrite Ha2'.
    + exists f1, (take_damage f2 d1).1, [(Fighter1, d1)], g1.
      split.
      { intros [|fuel] Hfuel; [lia|].
        rewrite combat_loop_unfold, Ha1, Ha2. cbn [andb].
        rewrite (bind_Ok _ _ _ _ _ Hr1). cbn zeta. rewrite Ha2'. reflexivity. }
      split; [done|].
      split; [by constructor|].
      split.
      { cbn [fought_until_one_fell]. unfold both_alive, strike.
        cbn [fst snd]. by rewrite Ha1, Ha2, Ha2'. }
      split; [done|].
      intros _. left. split; [by rewrite Ha1|].
      by apply is_dead_of_not_alive.
Qed.

End combat.

(** C6: for two combatants that are both alive, the combat returns (with
    any fuel of at least the first fighter's hit points, always with the same
    result); the blows alternate, fighter 1 striking first, each for a rolled
    damage between 1 and 8; every blow was struck while both stood and the
    fight ended with the first blow after which one did not, so that the
    fallen fighter strikes no more; the fighters at the end are the ones at
    the start after these blows; exactly one of them is dead (hit points at
    most 0) and the other is alive. *)
Theorem simple_combat_leaves_exactly_one_standing
    {G : Type} `{RandomLaws G} (fighter1 fighter2 : Combatant) (g : G) :
  is_alive fighter1 → is_alive fighter2 →
  ∃ fighter1' fighter2' log g',
    (∀ fuel, (Z.to_nat (get_hit_points fighter1) ≤ fuel)%nat →
       Arena_._simple_combat fuel fighter1 fighter2 g
       = Ok (fighter1', fighter2', log, g'))
    ∧ alternates Fighter1 log
    ∧ Forall (λ b : Blow, 1 ≤ b.2 ≤ 8) log
    ∧ fought_until_one_fell (fighter1, fighter2) log
    ∧ after_blows (fighter1, fighter2) log = (fighter1', fighter2')
    ∧ exactly_one_standing fighter1' fighter2'.
Proof.
  intros Ha1 Ha2.
  destruct (combat_loop_spec (Z.to_nat (get_hit_points fighter1))
              fighter1 fighter2 [] g)
    as (f1' & f2' & log & g' & Hrun & Halt & Hrange & Hfought & Hafter & Hone);
    [lia|].
  exists f1', f2', log, g'. unfold Arena_._simple_combat. auto 10.
Qed.

Lemma simple_combat_leaves_exactly_one_standing_witness :
  ∃ fighter1' fighter2' log g',
    (∀ fuel, (Z.to_nat (get_hit_points (fighter "Orc" 5)) ≤ fuel)%nat →
       Arena_._simple_combat fuel (fighter "Orc" 5) (fighter "Elf" 7)
         [2; 3; 11; 6]
       = Ok (fighter1', fighter2', log, g'))
    ∧ alternates Fighter1 log
    ∧ Forall (λ b : Blow, 1 ≤ b.2 ≤ 8) log
    ∧ fought_until_one_fell (fighter "Orc" 5, fighter "Elf" 7) log
    ∧ after_blows (fighter "Orc" 5, fighter "Elf" 7) log = (fighter1', fighter2')
    ∧ exactly_one_standing fighter1' fighter2'.
Proof.
  apply (simple_combat_leaves_exactly_one_standing
           (fighter "Orc" 5) (fighter "Elf" 7) [2; 3; 11; 6]);
    vm_compute; exact I.
Defined.

(** ** The duel phase *)

Lemma on_base_with_hit_points_twice (a b : Z) (x : Combatant) :
  on_base (with_hit_points a) (on_base (with_hit_points b) x)
  = on_base (with_hit_points a) x.
Proof. by destruct x. Qed.

#[global] Instance worn_down_refl : Reflexive worn_down.
Proof.
  intros x. split; [|lia]. apply on_base_id, with_hit_points_same.
Qed.

#[global] Instance worn_down_trans : Transitive worn_down.
Proof.
  intros x y z [Hxy Hxy'] [Hyz Hyz']. split; [|lia].
  by rewrite <- (on_base_with_hit_points_twice _ (get_hit_points y)), Hyz.
Qed.

Lemma worn_down_take_damage (x : Combatant) (damage : Z) :
  0 ≤ damage → worn_down x (take_damage x damage).1.
Proof.
  intros Hd. split; [|rewrite take_damage_hit_points; lia].
  apply take_damage_subtracts_amount_aux.
Qed.

Lemma worn_down_max_hit_points (x x' : Combatant) :
  worn_down x x' → get_max_hit_points x' = get_max_hit_points x.
Proof. intros [<- _]. by destruct x'. Qed.

Lemma worn_down_after_blows (log : list Blow) (st : Combatant * Combatant) :
  Forall (λ b : Blow, 0 ≤ b.2) log →
  worn_down st.1 (after_blows st log).1 ∧ worn_down st.2 (after_blows st log).2.
Proof.
  intros Hlog. revert st. induction Hlog as [|[s d] log Hd _ IH]; intros st.
  - split; reflexivity.
  - unfold after_blows. simpl. fold (after_blows (strike (s, d) st) log).
    destruct (IH (strike (s, d) st)) as [H1 H2].
    destruct s; unfold strike in *; simpl in *.
    + split; [done|]. etrans; [|exact H2]. by apply worn_down_take_damage.
    + split; [|done]. etrans; [|exact H1]. by apply worn_down_take_damage.
Qed.

Lemma getitem_lookup {A : Type} (l : list A) (i : nat) :
  getitem l (Z.of_nat i) = l !! i.
Proof.
  unfold getitem. destruct (Z.ltb_spec (Z.of_nat i) 0); [lia|].
  destruct (Z.leb_spec 0 (Z.of_nat i)); [|lia]. rewrite Nat2Z.id.
  destruct (Z.ltb_spec (Z.of_nat i) (Z.of_nat (length l))); simpl; [done|].
  symmetry. apply lookup_ge_None. lia.
Qed.

Lemma hit_points_bounded (ms : list Combatant) :
  ∃ n : nat, Forall (λ m, get_hit_points m ≤ Z.of_nat n) ms.
Proof.
  induction ms as [|m ms [n Hn]]; [by exists 0%nat|].
  exists (Z.to_nat (get_hit_points m) `max` n)%nat.
  constructor; [lia|]. eapply Forall_impl; [exact Hn|]. simpl. lia.
Qed.

Section duels.
Context {G : Type} `{RandomLaws G}.

Lemma duels_spec (n0 c : nat) :
  ∀ (a : nat) (ms : list Combatant) (log : list Encounter) (g : G),
  (2 * (a + c) ≤ length ms)%nat →
  Forall (λ m, get_hit_points m ≤ Z.of_nat n0) ms →
  ∃ ms' log' g',
    (∀ fuel, (n0 ≤ fuel)%nat →
       for_each ((λ k : nat, 0 + 2 * Z.of_nat k) <$> seq a c)
         (Arena_.duel fuel) (ms, log) g
       = Ok ((ms', log ++ log'), g'))
    ∧ Forall2 worn_down ms ms'
    ∧ (∀ j, (j < 2 * a ∨ 2 * (a + c) ≤ j)%nat → ms' !! j = ms !! j)
    ∧ encounter_pair <$> log'
      = (λ k : nat, (2 * Z.of_nat k, 2 * Z.of_nat k + 1)) <$> seq a c.
Proof.
  induction c as [|c IH]; intros a ms log g Hlen Hhp.
  - exists ms, [], g. split; [|by split].
    intros fuel _. simpl. by rewrite app_nil_r.
  - destruct (lookup_lt_is_Some_2 ms (2 * a)) as [f1 Hf1]; [lia|].
    destruct (lookup_lt_is_Some_2 ms (2 * a + 1)) as [f2 Hf2]; [lia|].
    destruct (combat_loop_spec n0 f1 f2 [] g)
      as (f1' & f2' & blows & g1 & Hrun & _ & Hrange & _ & Hafter & _).
    { eapply Forall_lookup_1 in Hhp; [|exact Hf1]. done. }
    destruct (worn_down_after_blows blows (f1, f2)) as [Hw1 Hw2].
    { eapply Forall_impl; [exact Hrange|]. simpl. lia. }
    rewrite Hafter in Hw1, Hw2. simpl in Hw1, Hw2.
    set (ms1 := <[(2 * a + 1)%nat := f2']> (<[(2 * a)%nat := f1']> ms)).
    assert (Forall2 worn_down ms ms1) as Hms1.
    { rewrite <- (list_insert_id ms (2 * a) f1) at 1 by done.
      rewrite <- (list_insert_id (<[(2 * a)%nat := f1]> ms) (2 * a + 1) f2) at 1
        by (by rewrite list_lookup_insert_ne by lia).
      do 2 (apply Forall2_insert; [|done]).
      apply Forall_Forall2_diag, Forall_true. intros x. reflexivity. }
    destruct (IH (S a) ms1 (log ++ [mkEncounter (2 * Z.of_nat a)
                                      (2 * Z.of_nat a + 1) blows]) g1)
      as (ms' & log' & g' & Hrest & Hworn & Hsame & Hpairs).
    { unfold ms1. rewrite !length_insert. lia. }
    { eapply Forall2_Forall_r; [exact Hms1|].
      eapply Forall_impl; [exact Hhp|]. intros x Hx y [_ Hy]. simpl in *. lia. }
    exists ms', (mkEncounter (2 * Z.of_nat a) (2 * Z.of_nat a + 1) blows :: log'), g'.
    split.
    { intros fuel Hfuel. cbn [seq fmap list_fmap for_each].
      assert (0 + 2 * Z.of_nat a = Z.of_nat (2 * a)) as Hi by lia.
      assert (0 + 2 * Z.of_nat a + 1 = Z.of_nat (2 * a + 1)) as Hi1 by lia.
      unfold Arena_.duel at 1. rewrite Hi1, Hi, !getitem_lookup, Hf1, Hf2.
      unfold Arena_._simple_combat.
      erewrite bind_Ok; [|erewrite bind_Ok; [|apply Hrun, Hfuel]; reflexivity].
      rewrite !Nat2Z.id.
      replace (Z.of_nat (2 * a)) with (2 * Z.of_nat a) by lia.
      replace (Z.of_nat (2 * a + 1)) with (2 * Z.of_nat a + 1) by lia.
      fold ms1. change ([] ++ blows) with blows. rewrite (Hrest fuel Hfuel). by rewrite <- app_assoc. }
    split; [by etrans|].
    split.
    { intros j Hj. rewrite Hsame by lia. unfold ms1.
      rewrite !list_lookup_insert_ne by lia. done. }
    cbn [seq fmap list_fmap]. by rewrite Hpairs.
Qed.

Lemma duels_met (n0 c : nat) :
  ∀ (a : nat) (ms : list Combatant) (log : list Encounter) (g : G),
  (2 * (a + c) ≤ length ms)%nat →
  Forall (λ m, get_hit_points m ≤ Z.of_nat n0) ms →
  ∃ ms' log' g',
    (∀ fuel, (n0 ≤ fuel)%nat →
       for_each ((λ k : nat, 0 + 2 * Z.of_nat k) <$> seq a c)
         (Arena_.duel fuel) (ms, log) g
       = Ok ((ms', log ++ log'), g'))
    ∧ length ms' = length ms
    ∧ (∀ j, (j < 2 * a ∨ 2 * (a + c) ≤ j)%nat → ms' !! j = ms !! j)
    ∧ Forall2 (λ k e, (a ≤ k)%nat ∧ met ms ms' k e) (seq a c) log'.
Proof.
  induction c as [|c IH]; intros a ms log g Hlen Hhp.
  - exists ms, [], g. split; [|split; [done|split; [done|constructor]]].
    intros fuel _. simpl. by rewrite app_nil_r.
  - destruct (lookup_lt_is_Some_2 ms (2 * a)) as [f1 Hf1]; [lia|].
    destruct (lookup_lt_is_Some_2 ms (2 * a + 1)) as [f2 Hf2]; [lia|].
    destruct (combat_loop_spec n0 f1 f2 [] g)
      as (f1' & f2' & bs & g1 & Hrun & Halt & Hrange & Hfought & Hafter
          & Hone).
    { eapply Forall_lookup_1 in Hhp; [|exact Hf1]. done. }
    destruct (worn_down_after_blows bs (f1, f2)) as [[_ Hw1] [_ Hw2]].
    { eapply Forall_impl; [exact Hrange|]. simpl. lia. }
    rewrite Hafter in Hw1, Hw2. simpl in Hw1, Hw2.
    set (ms1 := <[(2 * a + 1)%nat := f2']> (<[(2 * a)%nat := f1']> ms)).
    destruct (IH (S a) ms1 (log ++ [mkEncounter (2 * Z.of_nat a)
                                      (2 * Z.of_nat a + 1) bs]) g1)
      as (ms' & log' & g' & Hrest & Hlen' & Hsame & Hmet).
    { unfold ms1. rewrite !length_insert. lia. }
    { unfold ms1. apply Forall_insert; [apply Forall_insert; [done|]|].
      - eapply Forall_lookup_1 in Hhp; [|exact Hf1]. simpl in Hhp. lia.
      - eapply Forall_lookup_1 in Hhp; [|exact Hf2]. simpl in Hhp. lia. }
    exists ms', (mkEncounter (2 * Z.of_nat a) (2 * Z.of_nat a + 1) bs :: log'), g'.
    split.
    { intros fuel Hfuel. cbn [seq fmap list_fmap for_each].
      assert (0 + 2 * Z.of_nat a = Z.of_nat (2 * a)) as Hi by lia.
      assert (0 + 2 * Z.of_nat a + 1 = Z.of_nat (2 * a + 1)) as Hi1 by lia.
      unfold Arena_.duel at 1. rewrite Hi1, Hi, !getitem_lookup, Hf1, Hf2.
      unfold Arena_._simple_combat.
      erewrite bind_Ok; [|erewrite bind_Ok; [|apply Hrun, Hfuel]; reflexivity].
      rewrite !Nat2Z.id.
      replace (Z.of_nat (2 * a)) with (2 * Z.of_nat a) by lia.
      replace (Z.of_nat (2 * a + 1)) with (2 * Z.of_nat a + 1) by lia.
      fold ms1. change ([] ++ bs) with bs. rewrite (Hrest fuel Hfuel).
      by rewrite <- app_assoc. }
    split; [rewrite Hlen'; unfold ms1; by rewrite !length_insert|].
    split.
    { intros j Hj. rewrite Hsame by lia. unfold ms1.
      rewrite !list_lookup_insert_ne by lia. done. }
    cbn [seq]. constructor.
    + split; [lia|]. split; [done|]. split; [done|].
      exists f1, f2. cbn [blows]. rewrite Hafter. cbn [fst snd].
      split; [done|]. split; [done|]. split; [done|]. split; [done|].
      split; [done|].
      split.
      { rewrite Hsame by lia. unfold ms1.
        rewrite list_lookup_insert_ne by lia.
        apply list_lookup_insert_eq. lia. }
      split.
      { rewrite Hsame by lia. unfold ms1.
        apply list_lookup_insert_eq. rewrite length_insert. lia. }
      intros Ha1 Ha2. split; [|by apply Hone].
      intros ->. cbn [fought_until_one_fell] in Hfought.
      unfold both_alive in Hfought. cbn [fst snd] in Hfought.
      apply Is_true_eq_true in Ha1, Ha2. by rewrite Ha1, Ha2 in Hfought.
    + eapply Forall2_impl; [exact Hmet|].
      intros k e [Hk (Hfirst & Hsecond & x & y & Hx & Hy & Hrestmet)].
      split; [lia|]. split; [done|]. split; [done|].
      exists x, y. unfold ms1 in Hx, Hy.
      rewrite !list_lookup_insert_ne in Hx, Hy by lia. by split.
Qed.

End duels.

Lemma py_range_duels (n : nat) :
  py_range 0 (Z.of_nat n - 1) 2
  = (λ k : nat, 0 + 2 * Z.of_nat k) <$> seq 0 (n `div` 2)%nat.
Proof.
  unfold py_range. do 2 f_equal.
  replace (Z.of_nat n - 1 - 0 + 2 - 1) with (Z.of_nat n) by lia.
  change 2 with (Z.of_nat 2). by rewrite <- Nat2Z.inj_div, Nat2Z.id.
Qed.

Lemma duel_pairs_bounds (n : nat) :
  Forall (λ p : Z * Z, 0 ≤ p.1 ∧ p.2 = p.1 + 1 ∧ p.2 < Z.of_nat n - 1)
    (duel_pairs n).
Proof.
  unfold duel_pairs. apply Forall_fmap, Forall_forall. intros k Hk.
  apply elem_of_seq in Hk. simpl.
  pose proof (Nat.Div0.mul_div_le (n - 1) 2). lia.
Qed.

Lemma met_pairs (before after : list Combatant) (ks : list nat)
    (log : list Encounter) :
  Forall2 (met before after) ks log →
  encounter_pair <$> log
  = (λ k : nat, (2 * Z.of_nat k, 2 * Z.of_nat k + 1)) <$> ks.
Proof.
  induction 1 as [|k e ks log (Hfirst & Hsecond & _) _ IH]; [done|].
  cbn [fmap list_fmap]. unfold encounter_pair at 1.
  by rewrite Hfirst, Hsecond, <- IH.
Qed.

(** C9: in a party of odd size [n] the duel phase returns (with enough fuel,
    always with the same result) and the party keeps its size.  There is one
    encounter for each of the positions (0,1), (2,3), ..., (n-3,n-2), in this
    order, and each is a combat of the two members that stood at its
    positions: its blows alternate and were struck until one of the two fell,
    the members at these positions after the phase are these two after the
    blows, and of two that were alive exactly one is left standing.  No
    encounter involves position n-1, and the member there, the last of the
    shuffled order, is after the phase exactly what it was before. *)
Theorem the_odd_member_sits_out_the_duels
    {G : Type} `{RandomLaws G} (self : Arena) (g : G) :
  let n := length (members (fighter_list self)) in
  Nat.Odd n →
  ∃ (fuel0 : nat) (self' : Arena) (log : list Encounter) (g' : G),
    (∀ fuel, (fuel0 ≤ fuel)%nat →
       Arena_.fight_duels_man_vs_man fuel self g = Ok ((self', log), g'))
    ∧ encounter_pair <$> log = duel_pairs n
    ∧ Forall2 (met (members (fighter_list self)) (members (fighter_list self')))
        (seq 0 ((n - 1) / 2)) log
    ∧ Forall (λ e, 0 ≤ first_index e ∧ second_index e = first_index e + 1
                   ∧ second_index e < Z.of_nat n - 1) log
    ∧ length (members (fighter_list self')) = n
    ∧ is_Some (members (fighter_list self) !! (n - 1)%nat)
    ∧ members (fighter_list self') !! (n - 1)%nat
      = members (fighter_list self) !! (n - 1)%nat.
Proof.
  intros n [m Hm].
  destruct (hit_points_bounded (members (fighter_list self))) as [n0 Hn0].
  assert ((n `div` 2)%nat = m) as Hdiv.
  { rewrite Hm. rewrite (Nat.mul_comm 2 m), Nat.div_add_l by lia. simpl. lia. }
  assert (((n - 1) `div` 2)%nat = m) as Hdiv'.
  { replace (n - 1)%nat with (m * 2)%nat by lia. apply Nat.div_mul. lia. }
  destruct (duels_met n0 m 0 (members (fighter_list self)) [] g)
    as (ms' & log & g' & Hrun & Hlen & Hsame & Hmet); [fold n; lia|done|].
  assert (Forall2 (met (members (fighter_list self)) ms') (seq 0 m) log)
    as Hmet'.
  { eapply Forall2_impl; [exact Hmet|]. by intros k e [_ He]. }
  exists n0, (with_fighter_list (mkParty ms') self), log, g'.
  assert (encounter_pair <$> log = duel_pairs n) as Hlog.
  { rewrite (met_pairs _ _ _ _ Hmet'). unfold duel_pairs. by rewrite Hdiv'. }
  split.
  { intros fuel Hfuel. unfold Arena_.fight_duels_man_vs_man.
    fold n. rewrite py_range_duels, Hdiv.
    erewrite bind_Ok; [|apply Hrun, Hfuel]. reflexivity. }
  split; [done|].
  split.
  { change (members (fighter_list (with_fighter_list (mkParty ms') self)))
      with ms'. by rewrite Hdiv'. }
  split.
  { apply Forall_forall. intros e He.
    apply (list_elem_of_fmap_2 encounter_pair) in He. rewrite Hlog in He.
    pose proof (duel_pairs_bounds n) as Hb.
    rewrite Forall_forall in Hb. apply (Hb _ He). }
  split; [simpl; exact Hlen|].
  split; [apply lookup_lt_is_Some_2; fold n; lia|].
  simpl. apply Hsame. fold n. lia.
Qed.

Lemma the_odd_member_sits_out_the_duels_witness :
  ∃ (fuel0 : nat) (self' : Arena) (log : list Encounter) (g' : list Z),
    (∀ fuel, (fuel0 ≤ fuel)%nat →
       Arena_.fight_duels_man_vs_man fuel
         (arena_of [fighter "Orc" 5; fighter "Elf" 7; fighter "Dwarf" 6])
         [2; 3; 11; 6]
       = Ok ((self', log), g'))
    ∧ encounter_pair <$> log = duel_pairs 3
    ∧ Forall2 (met [fighter "Orc" 5; fighter "Elf" 7; fighter "Dwarf" 6]
                 (members (fighter_list self')))
        (seq 0 ((3 - 1) / 2)) log
    ∧ Forall (λ e, 0 ≤ first_index e ∧ second_index e = first_index e + 1
                   ∧ second_index e < Z.of_nat 3 - 1) log
    ∧ length (members (fighter_list self')) = 3%nat
    ∧ is_Some ([fighter "Orc" 5; fighter "Elf" 7; fighter "Dwarf" 6] !! 2%nat)
    ∧ members (fighter_list self') !! 2%nat
      = [fighter "Orc" 5; fighter "Elf" 7; fighter "Dwarf" 6] !! 2%nat.
Proof.
  apply (the_odd_member_sits_out_the_duels
           (arena_of [fighter "Orc" 5; fighter "Elf" 7; fighter "Dwarf" 6])
           [2; 3; 11; 6]).
  exists 1%nat. reflexivity.
Defined.

(** ** Recruiting *)

Lemma for_each_invariant {G S A : Type} (I : S → Prop) (l : list A)
    (body : S → A → M G S) :
  (∀ s x g, I s → ∃ s' g', body s x g = Ok (s', g') ∧ I s') →
  ∀ s g, I s → ∃ s' g', for_each l body s g = Ok (s', g') ∧ I s'.
Proof.
  intros Hbody. induction l as [|x l IH]; intros s g Hs; [by exists s, g|].
  destruct (Hbody s x g Hs) as (s1 & g1 & Hx & Hs1).
  destruct (IH s1 g1 Hs1) as (s' & g' & Hl & Hs').
  exists s', g'. split; [|done]. simpl. by rewrite (bind_Ok _ _ _ _ _ Hx).
Qed.

Section recruiting.
Context {G : Type} `{RandomLaws G}.

Lemma Monster_roll_hit_points_spec (m : Monster) (g : G) :
  1 ≤ sides (hit_dice m) →
  ∃ hp g', Monster_.roll_hit_points m g
           = Ok (with_max_hit_points hp (with_hit_points hp m), g')
           ∧ 0 ≤ hp.
Proof.
  intros Hs. destruct (roll_returns (hit_dice m) g Hs) as (hp & g' & Hr & Hhp).
  exists hp, g'. split; [|done].
  unfold Monster_.roll_hit_points. by rewrite (bind_Ok _ _ _ _ _ Hr).
Qed.

Lemma roll_ability_scores_spec (c : Character) (g : G) :
  ∃ c' g', Character_.roll_ability_scores c 0 g = Ok (c', g')
           ∧ super c' = super c.
Proof.
  unfold Character_.roll_ability_scores.
  change (getitem Character_.ABILITY_DICE 0) with (Some (Dice2 3 6)).
  apply (for_each_invariant (λ c', super c' = super c)); [|done].
  intros s x g0 Hs.
  destruct (roll_returns (Dice2 3 6) g0) as (v & g1 & Hr & _); [simpl; lia|].
  eexists _, g1. rewrite (bind_Ok _ _ _ _ _ Hr). split; [reflexivity|done].
Qed.

Lemma Character_init_spec (name : string) (level : Z) (cls : ClassType) (g : G) :
  ∃ c g', Character_.init name level cls g = Ok (c, g')
          ∧ hit_points (super c) = max_hit_points (super c).
Proof.
  unfold Character_.init, Monster_.init.
  edestruct (Monster_roll_hit_points_spec) as (hp0 & g0 & Hr0 & _);
    [|erewrite bind_Ok; [|exact Hr0]]; [simpl; lia|].
  edestruct roll_ability_scores_spec as (c1 & g1 & Hr1 & Hsuper);
    erewrite bind_Ok; [|exact Hr1].
  unfold Character_.roll_hit_points.
  edestruct (Monster_roll_hit_points_spec (super c1)) as (hp2 & g2 & Hr2 & _);
    [|erewrite bind_Ok; [|exact Hr2]]; [rewrite Hsuper; simpl; lia|].
  by eexists _, g2.
Qed.

Lemma random_normal_returns (g : G) : ∃ al g', random_normal g = Ok (al, g').
Proof.
  unfold random_normal.
  destruct (randint_spec 1 6 g) as (v & g' & Hv & _); [lia|].
  rewrite (bind_Ok _ _ _ _ _ Hv).
  destruct ((2 <=? v) && (v <=? 5)); [by eexists _, _|].
  destruct (v =? 1); by eexists _, _.
Qed.

Lemma new_fighter_spec (self : Arena) (level : Z) (g : G) :
  ∃ c g', Arena_.new_fighter self level g = Ok (c, g')
          ∧ hit_points (super c) = max_hit_points (super c).
Proof.
  unfold Arena_.new_fighter.
  edestruct Character_init_spec as (c0 & g0 & Hr0 & Hhp);
    erewrite bind_Ok; [|exact Hr0].
  destruct (random_normal_returns g0) as (al & g1 & Hr1).
  rewrite (bind_Ok _ _ _ _ _ Hr1).
  eexists _, g1. split; [reflexivity|].
  by destruct (base_armor_type self).
Qed.

Lemma recruit_new_fighters_unfold (fuel : nat) (self : Arena) :
  Arena_.recruit_new_fighters (G:=G) fuel self =
  if Party_.get_size (fighter_list self) <? num_fighters self then
    match fuel with
    | O => out_of_fuel
    | S fuel' =>
        fighter <- Arena_.new_fighter self (start_level self) ;;
        Arena_.recruit_new_fighters fuel'
          (with_fighter_list
             (Party_.add_member (fighter_list self) (ACharacter fighter)) self)
    end
  else ret self.
Proof. destruct fuel; reflexivity. Qed.

(** With fuel for every missing fighter the recruiting returns: the party
    is the old one followed by the recruits, each at its maximum. *)
Lemma recruit_new_fighters_spec (n : nat) (self : Arena) (g : G) :
  num_fighters self - Party_.get_size (fighter_list self) ≤ Z.of_nat n →
  ∃ recruits g',
    (∀ fuel, (n ≤ fuel)%nat →
       Arena_.recruit_new_fighters fuel self g
       = Ok (with_fighter_list
               (mkParty (members (fighter_list self) ++ recruits)) self, g'))
    ∧ Forall (λ x, get_hit_points x = get_max_hit_points x) recruits.
Proof.
  revert self g. induction n as [|n IH]; intros self g Hn.
  - exists [], g. split; [|done]. intros fuel _.
    rewrite recruit_new_fighters_unfold.
    destruct (Z.ltb_spec (Party_.get_size (fighter_list self)) (num_fighters self));
      [lia|].
    rewrite app_nil_r. by destruct self as [? ? ? ? ? ? ? ? ? ? []].
  - destruct (Z.ltb_spec (Party_.get_size (fighter_list self)) (num_fighters self))
      as [Hlt|Hge].
    + destruct (new_fighter_spec self (start_level self) g) as (c & g1 & Hc & Hhp).
      destruct (IH (with_fighter_list
                      (Party_.add_member (fighter_list self) (ACharacter c)) self) g1)
        as (recruits & g' & Hrun & Hfresh).
      { unfold Party_.get_size in *. simpl. rewrite length_app. simpl. lia. }
      exists (ACharacter c :: recruits), g'. split; [|by constructor].
      intros [|fuel] Hfuel; [lia|].
      rewrite recruit_new_fighters_unfold.
      destruct (Z.ltb_spec (Party_.get_size (fighter_list self)) (num_fighters self));
        [|lia].
      rewrite (bind_Ok _ _ _ _ _ Hc), Hrun by lia. simpl.
      by rewrite <- app_assoc.
    + exists [], g. split; [|done]. intros fuel _.
      rewrite recruit_new_fighters_unfold.
      destruct (Z.ltb_spec (Party_.get_size (fighter_list self)) (num_fighters self));
        [lia|].
      rewrite app_nil_r. by destruct self as [? ? ? ? ? ? ? ? ? ? []].
Qed.

End recruiting.

(** ** Shuffling *)

Lemma omap_lookup_seq {A : Type} (l pre : list A) :
  omap (λ i, (pre ++ l) !! i) (seq (length pre) (length l)) = l.
Proof.
  revert pre. induction l as [|x l IH]; intros pre; [done|].
  cbn [length seq omap list_omap]. rewrite list_lookup_middle by done.
  f_equal. specialize (IH (pre ++ [x])).
  rewrite <- app_assoc, length_app in IH. simpl in IH.
  by rewrite Nat.add_1_r in IH.
Qed.

Lemma shuffle_spec {G : Type} `{RandomLaws G} {A : Type} (l : list A) (g : G) :
  ∃ l' g', shuffle l g = Ok (l', g') ∧ l' ≡ₚ l.
Proof.
  unfold shuffle. pose proof (rng_permutation_perm (length l) g) as Hp.
  destruct (rng_permutation (length l) g) as [p g']. simpl in Hp.
  exists (apply_perm p l), g'. split; [done|].
  unfold apply_perm. rewrite Hp. by rewrite <- (omap_lookup_seq l []) at 2.
Qed.

(** ** The fight cycle *)

Lemma within_max_worn_down (x x' : Combatant) :
  within_max x → worn_down x x' → within_max x'.
Proof.
  unfold within_max. intros Hx Hw.
  rewrite (worn_down_max_hit_points x x' Hw). destruct Hw as [_ Hw]. lia.
Qed.

Lemma healed_heal_fully (x : Combatant) :
  is_alive x → within_max x → healed (heal_fully x).
Proof.
  unfold within_max, healed. rewrite !is_alive_hit_points.
  assert (get_hit_points (heal_fully x) = get_max_hit_points x) as ->
    by (by destruct x).
  assert (get_max_hit_points (heal_fully x) = get_max_hit_points x) as ->
    by (by destruct x).
  lia.
Qed.

Lemma healed_is_within_max (x : Combatant) : healed x → within_max x.
Proof. unfold healed, within_max. lia. Qed.

Lemma cull_and_heal (ms : list Combatant) :
  Forall within_max ms →
  Forall healed
    (members (Party_.heal_all
                (Party_.clear_fallen (Party_.bring_out_your_dead (mkParty ms)).2))).
Proof.
  intros Hms. simpl. unfold Party_.get_living_members. simpl.
  apply Forall_fmap, Forall_forall. intros x Hx.
  apply list_elem_of_filter in Hx as [Ha Hx].
  apply list_elem_of_filter in Hx as [_ Hx].
  apply healed_heal_fully; [done|].
  rewrite Forall_forall in Hms. by apply Hms.
Qed.

Lemma all_alive_no_dead (l : list Combatant) :
  Forall (λ x, is_alive x) l → filter (λ m, is_dead m) l = [].
Proof.
  induction 1 as [|x l Hx _ IH]; [done|].
  rewrite (filter_cons (λ m, Is_true (is_dead m))).
  destruct (decide (is_dead x)) as [Hd|_]; [|done].
  by apply is_dead_not_alive in Hd.
Qed.

Lemma all_alive_all_living (l : list Combatant) :
  Forall (λ x, is_alive x) l → filter (λ m, is_alive m) l = l.
Proof.
  induction 1 as [|x l Hx _ IH]; [done|].
  rewrite (filter_cons (λ m, Is_true (is_alive m))).
  destruct (decide (is_alive x)); [by f_equal|done].
Qed.

Section cycle.
Context {G : Type} `{RandomLaws G}.

Lemma fight_duels_spec (self : Arena) (g : G) :
  ∃ (fuel0 : nat) ms' log g',
    (∀ fuel, (fuel0 ≤ fuel)%nat →
       Arena_.fight_duels fuel self g
       = Ok ((with_fighter_list (mkParty ms') self, log), g'))
    ∧ Forall2 worn_down (members (fighter_list self)) ms'.
Proof.
  unfold Arena_.fight_duels. destruct (fight_man_vs_monster self) eqn:Hmode.
  - exists 0%nat, (members (fighter_list self)), [], g.
    split; [|reflexivity]. intros fuel _. unfold Arena_.fight_duels_man_vs_monster.
    by destruct self as [? ? ? ? ? ? ? ? ? ? []].
  - destruct (hit_points_bounded (members (fighter_list self))) as [n0 Hn0].
    pose proof (Nat.Div0.mul_div_le (length (members (fighter_list self))) 2).
    destruct (duels_spec n0 (length (members (fighter_list self)) `div` 2) 0
                (members (fighter_list self)) [] g)
      as (ms' & log & g' & Hrun & Hworn & _); [lia|done|].
    exists n0, ms', log, g'. split; [|done].
    intros fuel Hfuel. unfold Arena_.fight_duels_man_vs_man.
    rewrite py_range_duels. erewrite bind_Ok; [|apply Hrun, Hfuel]. reflexivity.
Qed.

End cycle.

(** A cycle from a population within its maxima completes and heals. *)
Lemma run_one_cycle_spec
    {G : Type} `{RandomLaws G} (self : Arena) (g : G) :
  Forall within_max (members (fighter_list self)) →
  ∃ (fuel0 : nat) (self' : Arena) (log : CycleLog) (g' : G),
    (∀ fuel, (fuel0 ≤ fuel)%nat →
       Arena_.run_one_cycle fuel self g = Ok ((self', log), g'))
    ∧ survivors log = members (fighter_list self')
    ∧ Forall healed (members (fighter_list self'))
    ∧ Forall within_max (members (fighter_list self'))
    ∧ Party_.num_dead (fighter_list self') = 0
    ∧ Party_.num_living (fighter_list self') = Party_.get_size (fighter_list self').
Proof.
  intros Hsound.
  destruct (recruit_new_fighters_spec
              (Z.to_nat (num_fighters self - Party_.get_size (fighter_list self)))
              self g) as (recruits & g1 & Hrecruit & Hfresh); [lia|].
  set (ms1 := members (fighter_list self) ++ recruits) in *.
  set (self1 := with_fighter_list (mkParty ms1) self) in *.
  assert (Forall within_max ms1) as Hms1.
  { apply Forall_app. split; [done|].
    eapply Forall_impl; [exact Hfresh|]. unfold within_max. simpl. lia. }
  destruct (shuffle_spec ms1 g1) as (ms2 & g2 & Hshuffle & Hperm).
  assert (Forall within_max ms2) as Hms2 by (by rewrite Hperm).
  set (self2 := with_fighter_list (mkParty ms2) self1).
  destruct (fight_duels_spec self2 g2) as (n3 & ms3 & encs & g3 & Hduels & Hworn).
  assert (Forall within_max ms3) as Hms3.
  { eapply Forall2_Forall_r; [exact Hworn|].
    eapply Forall_impl; [exact Hms2|]. intros x Hx y. by apply within_max_worn_down. }
  pose proof (cull_and_heal ms3 Hms3) as Hhealed.
  exists (Z.to_nat (num_fighters self - Party_.get_size (fighter_list self))
          `max` n3)%nat,
    (with_fighter_list
       (Party_.heal_all
          (Party_.clear_fallen (Party_.bring_out_your_dead (mkParty ms3)).2))
       (with_fighter_list (mkParty ms3) self2)),
    (mkCycleLog ms2 encs (Party_.bring_out_your_dead (mkParty ms3)).1
       (members (Party_.heal_all
          (Party_.clear_fallen (Party_.bring_out_your_dead (mkParty ms3)).2)))),
    g3.
  change (fighter_list (with_fighter_list ?p _)) with p.
  split.
  { intros fuel Hfuel. unfold Arena_.run_one_cycle.
    rewrite (bind_Ok _ _ _ _ _ (Hrecruit fuel ltac:(lia))).
    unfold Party_.shuffle_members.
    erewrite bind_Ok; [|erewrite bind_Ok; [|exact Hshuffle]; reflexivity].
    rewrite (bind_Ok _ _ _ _ _ (Hduels fuel ltac:(lia))).
    reflexivity. }
  split; [reflexivity|].
  split; [exact Hhealed|].
  split; [eapply Forall_impl; [exact Hhealed|]; apply healed_is_within_max|].
  assert (Forall (λ x, is_alive x) (members (Party_.heal_all
            (Party_.clear_fallen (Party_.bring_out_your_dead (mkParty ms3)).2))))
    as Halive.
  { eapply Forall_impl; [exact Hhealed|]. by intros x [Hx _]. }
  split.
  - unfold Party_.num_dead, Party_.get_dead_members.
    by rewrite (all_alive_no_dead _ Halive).
  - unfold Party_.num_living, Party_.get_living_members, Party_.get_size.
    by rewrite (all_alive_all_living _ Halive).
Qed.

(** ** Armour class *)

(** Where the armour class is recomputed it is the derived one: after
    [update_armor_class], hence after [set_armor] and [set_shield]. *)
Lemma update_armor_class_derived (c : Character) :
  armor_class (super (Character_.update_armor_class c)) = derived_armor_class c
  ∧ derived_armor_class (Character_.update_armor_class c) = derived_armor_class c.
Proof.
  unfold derived_armor_class, Character_.update_armor_class,
    Character_.BASE_ARMOR_CLASS, Character_.get_ability_modifier,
    Character_.get_ability_score.
  destruct c as [m ? ? ? ? ? ? [a|] [s|] ? ? ?];
    cbn [super armor_class with_super with_armor_class armor_worn shield_held
         ability_scores ability_score_damage from_option];
    split; lia.
Qed.

Lemma set_armor_derived (c : Character) (armor : option Armor) :
  armor_class (super (Character_.set_armor c armor))
  = derived_armor_class (Character_.set_armor c armor).
Proof.
  unfold Character_.set_armor.
  destruct (update_armor_class_derived (with_armor_worn armor c)) as [-> ->].
  reflexivity.
Qed.

Lemma set_shield_derived (c : Character) (shield : option Armor) :
  armor_class (super (Character_.set_shield c shield))
  = derived_armor_class (Character_.set_shield c shield).
Proof.
  unfold Character_.set_shield.
  destruct (update_armor_class_derived (with_shield_held shield c)) as [-> ->].
  reflexivity.
Qed.

(** C2, the code at a failing input: a level-1 fighter constructed while
    the generator rolls 6 on every die has dexterity 18 (modifier +1) and no
    equipment; its armour class is the base 9 that the constructor stored
    before the abilities were rolled, and not the derived 8, which a call of
    [update_armor_class] would give. *)
Theorem fresh_character_armor_class_ignores_dexterity :
  ∃ c g',
    Character_.init "Bob" 1 FIGHTER (replicate 20 5) = Ok (c, g')
    ∧ armor_worn c = None ∧ shield_held c = None
    ∧ Character_.get_ability_score c DEXTERITY = 18
    ∧ Character_.get_ability_modifier c DEXTERITY = 1
    ∧ armor_class (super c) = 9
    ∧ derived_armor_class c = 8
    ∧ armor_class (super (Character_.update_armor_class c)) = 8.
Proof. eexists _, _. split; [vm_compute; reflexivity|]. by vm_compute. Qed.

(** Ability damage changes the derived armour class and leaves the stored
    one: dexterity 10 (armour class 9, recomputed) damaged by 2 gives a
    modifier of -1, a derived armour class of 10, and a stored 9. *)
Lemma take_ability_damage_keeps_armor_class :
  ∃ c g',
    Character_.init "Bob" 1 FIGHTER [0; 0; 0; 0; 0; 0; 0; 0; 0; 0; 2; 2; 3] = Ok (c, g')
    ∧ Character_.get_ability_score c DEXTERITY = 10
    ∧ armor_class (super (Character_.take_ability_damage
                            (Character_.update_armor_class c) DEXTERITY 2)) = 9
    ∧ derived_armor_class (Character_.take_ability_damage
                             (Character_.update_armor_class c) DEXTERITY 2) = 10.
Proof. eexists _, _. split; [vm_compute; reflexivity|]. by vm_compute. Qed.

(** ** Runs under a fixed seed *)

Lemma bind_map_result {G A A' B B' : Type} (eA : A → A') (eB : B → B')
    (m : M G A) (m' : M G A') (k : A → M G B) (k' : A' → M G B') (g : G) :
  m' g = map_result eA (m g) →
  (∀ a g1, k' (eA a) g1 = map_result eB (k a g1)) →
  bind m' k' g = map_result eB (bind m k g).
Proof.
  intros Hm Hk. unfold bind. rewrite Hm.
  destruct (m g) as [[a g1]| |]; simpl; auto.
Qed.

Lemma bind_map_result_same {G A B B' : Type} (eB : B → B')
    (m : M G A) (k : A → M G B) (k' : A → M G B') (g : G) :
  (∀ a g1, k' a g1 = map_result eB (k a g1)) →
  bind m k' g = map_result eB (bind m k g).
Proof.
  intros Hk. unfold bind. destruct (m g) as [[a g1]| |]; simpl; auto.
Qed.

Lemma for_each_map_result {G S S' A : Type} (e : S → S') (l : list A)
    (body : S → A → M G S) (body' : S' → A → M G S') :
  (∀ s x g, body' (e s) x g = map_result e (body s x g)) →
  ∀ s g, for_each l body' (e s) g = map_result e (for_each l body s g).
Proof.
  intros Hbody. induction l as [|x l IH]; intros s g; [done|].
  simpl. apply (bind_map_result e e); [apply Hbody|apply IH].
Qed.

Lemma base_anonymous (x : Combatant) : base (anonymous x) = base x.
Proof. by destruct x. Qed.

Lemma is_alive_anonymous (x : Combatant) : is_alive (anonymous x) = is_alive x.
Proof. unfold is_alive. by rewrite base_anonymous. Qed.

Lemma is_dead_anonymous (x : Combatant) : is_dead (anonymous x) = is_dead x.
Proof. unfold is_dead. by rewrite base_anonymous. Qed.

Lemma get_level_anonymous (x : Combatant) : get_level (anonymous x) = get_level x.
Proof. by destruct x. Qed.

Lemma take_damage_anonymous (x : Combatant) (damage : Z) :
  (take_damage (anonymous x) damage).1 = anonymous (take_damage x damage).1.
Proof. by destruct x. Qed.

Lemma heal_fully_anonymous (x : Combatant) :
  heal_fully (anonymous x) = anonymous (heal_fully x).
Proof. by destruct x. Qed.

Lemma filter_alive_anonymous (l : list Combatant) :
  filter (λ m, is_alive m) (anonymous <$> l)
  = anonymous <$> filter (λ m, is_alive m) l.
Proof.
  induction l as [|x l IH]; [done|].
  rewrite fmap_cons, !(filter_cons (λ m, Is_true (is_alive m))), IH.
  rewrite is_alive_anonymous.
  by destruct (decide (is_alive x)).
Qed.

Lemma filter_dead_anonymous (l : list Combatant) :
  filter (λ m, is_dead m) (anonymous <$> l)
  = anonymous <$> filter (λ m, is_dead m) l.
Proof.
  induction l as [|x l IH]; [done|].
  rewrite fmap_cons, !(filter_cons (λ m, Is_true (is_dead m))), IH.
  rewrite is_dead_anonymous.
  by destruct (decide (is_dead x)).
Qed.

(** The observation keeps the hit points, the count of the living and the
    average level. *)
Lemma anonymous_party_keeps (p : Party) :
  get_hit_points <$> members (anonymous_party p) = get_hit_points <$> members p
  ∧ Party_.num_living (anonymous_party p) = Party_.num_living p
  ∧ Party_.get_average_level (anonymous_party p) = Party_.get_average_level p.
Proof.
  split.
  { simpl. rewrite <- list_fmap_compose. apply list_fmap_ext.
    intros i x _. unfold get_hit_points. simpl. by rewrite base_anonymous. }
  split.
  { unfold Party_.num_living, Party_.get_living_members. simpl.
    by rewrite filter_alive_anonymous, length_fmap. }
  unfold Party_.get_average_level. simpl.
  assert (get_level <$> (anonymous <$> members p) = get_level <$> members p) as ->.
  { rewrite <- list_fmap_compose. apply list_fmap_ext.
    intros i x _. apply get_level_anonymous. }
  rewrite length_fmap. by destruct (members p).
Qed.

Lemma getitem_fmap {A B : Type} (f : A → B) (l : list A) (i : Z) :
  getitem (f <$> l) i = f <$> getitem l i.
Proof.
  unfold getitem. rewrite length_fmap.
  destruct (_ && _); [apply list_lookup_fmap|done].
Qed.

Lemma apply_perm_fmap {A B : Type} (f : A → B) (p : list nat) (l : list A) :
  apply_perm p (f <$> l) = f <$> apply_perm p l.
Proof.
  unfold apply_perm. induction p as [|i p IH]; [done|].
  cbn [omap list_omap]. rewrite list_lookup_fmap.
  destruct (l !! i) as [x|]; cbn [fmap option_fmap option_map];
    [|exact IH].
  by rewrite IH.
Qed.

Section seeded.
Context {G : Type} `{Random G}.

Lemma shuffle_fmap {A B : Type} (f : A → B) (l : list A) (g : G) :
  shuffle (f <$> l) g = map_result (fmap f) (shuffle l g).
Proof.
  unfold shuffle. rewrite length_fmap.
  destruct (rng_permutation (length l) g) as [p g']. simpl.
  by rewrite apply_perm_fmap.
Qed.

Lemma combat_loop_anonymous (fuel : nat) :
  ∀ (f1 f2 : Combatant) (log : list Blow) (g : G),
  Arena_.combat_loop fuel (anonymous f1) (anonymous f2) log g
  = map_result (λ r, (anonymous r.1.1, anonymous r.1.2, r.2))
      (Arena_.combat_loop fuel f1 f2 log g).
Proof.
  induction fuel as [|fuel IH]; intros f1 f2 log g;
    rewrite !combat_loop_unfold, !is_alive_anonymous;
    destruct (is_alive f1 && is_alive f2); try done.
  apply bind_map_result_same. intros d1 g1. cbn zeta.
  rewrite take_damage_anonymous, is_alive_anonymous.
  destruct (negb (is_alive (take_damage f2 d1).1)); [done|].
  apply bind_map_result_same. intros d2 g2. cbn zeta.
  rewrite take_damage_anonymous. apply IH.
Qed.

Lemma duel_anonymous (fuel : nat) (st : list Combatant * list Encounter)
    (i : Z) (g : G) :
  Arena_.duel fuel (anonymous <$> st.1, st.2) i g
  = map_result (λ r, (anonymous <$> r.1, r.2)) (Arena_.duel fuel st i g).
Proof.
  destruct st as [ms log]. unfold Arena_.duel. cbn [fst snd].
  rewrite !getitem_fmap.
  destruct (getitem ms i) as [f1|]; [|done].
  destruct (getitem ms (i + 1)) as [f2|]; [|done]. cbn [fmap option_fmap option_map].
  apply (bind_map_result (λ r, (anonymous r.1.1, anonymous r.1.2, r.2))).
  { apply combat_loop_anonymous. }
  intros [[f1' f2'] blows] g1. cbn [fst snd map_result ret].
  by rewrite !list_fmap_insert.
Qed.

End seeded.

Section seeded_arena.
Context {G : Type} `{Random G}.

Lemma roll_ability_scores_with_name (n : string) (c : Character)
    (dice_option : Z) (g : G) :
  Character_.roll_ability_scores (with_name n c) dice_option g
  = map_result (with_name n) (Character_.roll_ability_scores c dice_option g).
Proof.
  unfold Character_.roll_ability_scores.
  destruct (getitem Character_.ABILITY_DICE dice_option) as [dice|]; [|done].
  apply (for_each_map_result (with_name n)).
  intros s x g0. apply bind_map_result_same. by intros score g1.
Qed.

Lemma roll_hit_points_with_name (n : string) (c : Character) (g : G) :
  Character_.roll_hit_points (with_name n c) g
  = map_result (with_name n) (Character_.roll_hit_points c g).
Proof.
  unfold Character_.roll_hit_points. apply bind_map_result_same.
  by intros m g1.
Qed.

(** The name given to a Character is stored and never read: two
    constructions that differ in the name differ in the name only. *)
Lemma Character_init_with_name (n1 n2 : string) (level : Z) (cls : ClassType)
    (g : G) :
  Character_.init n2 level cls g
  = map_result (with_name n2) (Character_.init n1 level cls g).
Proof.
  unfold Character_.init. apply bind_map_result_same. intros m g1.
  apply (bind_map_result (with_name n2) (with_name n2)).
  - apply (roll_ability_scores_with_name n2
             (mkCharacter m n1 Character_.BASE_AGE cls level ∅ ∅ None None None 0 0)).
  - intros c g2. apply roll_hit_points_with_name.
Qed.

Lemma new_fighter_anonymous (self : Arena) (level : Z) (g : G) :
  Arena_.new_fighter (anonymous_arena self) level g
  = map_result (with_name anonymous_name) (Arena_.new_fighter self level g).
Proof.
  unfold Arena_.new_fighter.
  apply (bind_map_result (with_name anonymous_name) (with_name anonymous_name)).
  - apply Character_init_with_name.
  - intros c g1. apply bind_map_result_same. intros al g2.
    cbn [anonymous_arena base_armor_type].
    by destruct (base_armor_type self).
Qed.

Lemma recruit_new_fighters_anonymous (fuel : nat) :
  ∀ (self : Arena) (g : G),
  Arena_.recruit_new_fighters fuel (anonymous_arena self) g
  = map_result anonymous_arena (Arena_.recruit_new_fighters fuel self g).
Proof.
  induction fuel as [|fuel IH]; intros self g;
    rewrite !recruit_new_fighters_unfold;
    assert (Party_.get_size (fighter_list (anonymous_arena self))
            = Party_.get_size (fighter_list self)) as ->
      by (unfold Party_.get_size; simpl; by rewrite length_fmap);
    change (num_fighters (anonymous_arena self)) with (num_fighters self);
    destruct (_ <? _); try done.
  apply (bind_map_result (with_name anonymous_name) anonymous_arena).
  - apply new_fighter_anonymous.
  - intros c g1. rewrite <- IH. f_equal.
    unfold anonymous_arena, with_fighter_list, anonymous_party, Party_.add_member.
    simpl. by rewrite fmap_app.
Qed.

Lemma fight_duels_anonymous (fuel : nat) (self : Arena) (g : G) :
  Arena_.fight_duels fuel (anonymous_arena self) g
  = map_result (λ r, (anonymous_arena r.1, r.2)) (Arena_.fight_duels fuel self g).
Proof.
  unfold Arena_.fight_duels.
  change (fight_man_vs_monster (anonymous_arena self))
    with (fight_man_vs_monster self).
  destruct (fight_man_vs_monster self); [done|].
  unfold Arena_.fight_duels_man_vs_man.
  change (members (fighter_list (anonymous_arena self)))
    with (anonymous <$> members (fighter_list self)).
  rewrite length_fmap.
  apply (bind_map_result (λ r : list Combatant * list Encounter,
                            (anonymous <$> r.1, r.2))).
  - refine (for_each_map_result
              (λ r : list Combatant * list Encounter, (anonymous <$> r.1, r.2))
              _ (Arena_.duel fuel) (Arena_.duel fuel) _
              (members (fighter_list self), []) g).
    intros s x g0. apply duel_anonymous.
  - by intros [ms log] g1.
Qed.

Lemma year_end_anonymous (self : Arena) (year : Z) :
  Arena_.year_end (anonymous_arena self) year = Arena_.year_end self year.
Proof.
  unfold Arena_.year_end.
  change (report_year_end (anonymous_arena self)) with (report_year_end self).
  change (fighter_list (anonymous_arena self))
    with (anonymous_party (fighter_list self)).
  destruct (anonymous_party_keeps (fighter_list self)) as (_ & -> & ->).
  reflexivity.
Qed.

Lemma run_one_cycle_anonymous (fuel : nat) (self : Arena) (g : G) :
  Arena_.run_one_cycle fuel (anonymous_arena self) g
  = map_result (λ r, (anonymous_arena r.1, anonymous_cycle r.2))
      (Arena_.run_one_cycle fuel self g).
Proof.
  unfold Arena_.run_one_cycle.
  apply (bind_map_result anonymous_arena); [apply recruit_new_fighters_anonymous|].
  intros self1 g1.
  apply (bind_map_result anonymous_party).
  { unfold Party_.shuffle_members.
    apply (bind_map_result (fmap anonymous) anonymous_party);
      [apply shuffle_fmap|done]. }
  intros party g2.
  apply (bind_map_result (λ r : Arena * list Encounter, (anonymous_arena r.1, r.2))).
  { apply (fight_duels_anonymous fuel (with_fighter_list party self1)). }
  intros [self3 encs] g3. cbn [fst snd].
  unfold Party_.bring_out_your_dead, Party_.clear_fallen, Party_.heal_all,
    Party_.bring_out_your_dead, Party_.get_living_members,
    Party_.get_dead_members, ret, map_result, with_fighter_list,
    anonymous_arena, anonymous_party, anonymous_cycle.
  cbn [fst snd members anonymous_arena fighter_list anonymous_party
       with_fighter_list anonymous_cycle shuffled encounters fallen survivors
       arena_id num_years fights_per_year num_fighters start_level
       fighter_party_size fight_man_vs_monster report_year_end
       report_every_encounter base_armor_type].
  rewrite filter_dead_anonymous, !filter_alive_anonymous.
  assert (∀ l, heal_fully <$> (anonymous <$> l) = anonymous <$> (heal_fully <$> l))
    as ->; [|done].
  intros l. rewrite <- !list_fmap_compose. apply list_fmap_ext.
  intros i x _. simpl. by rewrite heal_fully_anonymous.
Qed.

Lemma run_sim_anonymous (fuel : nat) (self : Arena) (g : G) :
  Arena_.run_sim fuel (anonymous_arena self) g
  = map_result observe (Arena_.run_sim fuel self g).
Proof.
  unfold Arena_.run_sim.
  change (num_years (anonymous_arena self)) with (num_years self).
  change (fights_per_year (anonymous_arena self)) with (fights_per_year self).
  refine (for_each_map_result observe _ _ _ _ (self, []) g).
  intros [a years] year g0. cbn [fst snd observe].
  apply (bind_map_result (λ r : Arena * list CycleLog,
                            (anonymous_arena r.1, anonymous_cycle <$> r.2))).
  - refine (for_each_map_result
              (λ r : Arena * list CycleLog,
                 (anonymous_arena r.1, anonymous_cycle <$> r.2))
              _ _ _ _ (a, []) g0).
    intros [a1 cs] x g1. cbn [fst snd].
    apply (bind_map_result (λ r : Arena * CycleLog,
                              (anonymous_arena r.1, anonymous_cycle r.2))).
    + apply run_one_cycle_anonymous.
    + intros [a2 c] g2. unfold ret. cbn [fst snd map_result].
      by rewrite fmap_snoc.
  - intros [a1 cs] g1. unfold ret, observe. cbn [fst snd map_result].
    by rewrite fmap_snoc, year_end_anonymous.
Qed.

End seeded_arena.

(** ** The whole simulation *)

Lemma for_each_enough_fuel {G S A : Type} (I : S → Prop)
    (body : nat → S → A → M G S) :
  (∀ s x g, I s →
     ∃ (n : nat) s' g',
       (∀ fuel, (n ≤ fuel)%nat → body fuel s x g = Ok (s', g')) ∧ I s') →
  ∀ l s g, I s →
    ∃ (n : nat) s' g',
      (∀ fuel, (n ≤ fuel)%nat → for_each l (body fuel) s g = Ok (s', g')) ∧ I s'.
Proof.
  intros Hbody. induction l as [|x l IH]; intros s g Hs.
  - by exists 0%nat, s, g.
  - destruct (Hbody s x g Hs) as (n1 & s1 & g1 & Hx & Hs1).
    destruct (IH s1 g1 Hs1) as (n2 & s' & g' & Hl & Hs').
    exists (n1 `max` n2)%nat, s', g'. split; [|done].
    intros fuel Hfuel. simpl.
    rewrite (bind_Ok _ _ _ _ _ (Hx fuel ltac:(lia))). apply Hl. lia.
Qed.

(** From a population of healed members (a new arena has none) the
    simulation completes, and the population is healed at every year end. *)
Lemma run_sim_spec {G : Type} `{RandomLaws G} (self : Arena) (g : G) :
  all_healed (fighter_list self) →
  ∃ (fuel0 : nat) r g',
    (∀ fuel, (fuel0 ≤ fuel)%nat → Arena_.run_sim fuel self g = Ok (r, g'))
    ∧ all_healed (fighter_list r.1)
    ∧ Forall (λ y, all_healed (at_year_end y)
                   ∧ Forall (λ c, Forall healed (survivors c)) (cycles y))
        r.2.
Proof.
  intros Hself. unfold Arena_.run_sim.
  refine (for_each_enough_fuel
            (λ st : Arena * list YearLog,
               all_healed (fighter_list st.1)
               ∧ Forall (λ y, all_healed (at_year_end y)
                              ∧ Forall (λ c, Forall healed (survivors c))
                                  (cycles y)) st.2)
            (λ fuel st year,
               r <- for_each (py_range 0 (fights_per_year self) 1)
                      (λ st' _,
                         r <- Arena_.run_one_cycle fuel st'.1 ;;
                         ret (r.1, st'.2 ++ [r.2]))
                      (st.1, []) ;;
               ret (r.1, st.2 ++ [mkYearLog r.2 (Arena_.year_end r.1 year)
                                    (fighter_list r.1)]))
            _ _ (self, []) g _); [|by split].
  intros [a years] year g0 [Ha Hyears]. cbn [fst snd] in *.
  destruct (for_each_enough_fuel
              (λ st : Arena * list CycleLog,
                 all_healed (fighter_list st.1)
                 ∧ Forall (λ c, Forall healed (survivors c)) st.2)
              (λ fuel st' (_ : Z),
                 r <- Arena_.run_one_cycle fuel st'.1 ;;
                 ret (r.1, st'.2 ++ [r.2]))) with
    (l := py_range 0 (fights_per_year self) 1) (s := (a, @nil CycleLog)) (g := g0)
    as (n & [a' cs] & g' & Hrun & Ha' & Hcs); [|by split|].
  { intros [a1 cs] x g1 [Ha1 Hcs]. cbn [fst snd] in *.
    destruct (run_one_cycle_spec a1 g1)
      as (n1 & a2 & log & g2 & Hcycle & Hlog & Hhealed & _).
    { eapply Forall_impl; [exact Ha1|]. apply healed_is_within_max. }
    exists n1, (a2, cs ++ [log]), g2. split.
    - intros fuel Hfuel. by rewrite (bind_Ok _ _ _ _ _ (Hcycle fuel Hfuel)).
    - split; [done|]. apply Forall_app. split; [done|].
      constructor; [|done]. by rewrite Hlog. }
  cbn [fst snd] in *.
  eexists n, _, g'. split.
  { intros fuel Hfuel. rewrite (bind_Ok _ _ _ _ _ (Hrun fuel Hfuel)).
    reflexivity. }
  cbn [fst snd]. split; [done|].
  apply Forall_app. split; [done|]. by constructor.
Qed.

(** C10: from a population in which no member has more hit points than its
    maximum (the invariant of the data model), a fight cycle (recruit,
    shuffle, duel, cull twice, heal) completes, with enough fuel and always
    with the same result, and leaves a population in which every member is
    alive, has hit points equal to its maximum, and a maximum of at least 1;
    no dead member is left, and the invariant holds again for the next
    cycle.  In particular a simulation run from a new arena, whatever its
    configuration, completes, and the population is such after every one of
    its cycles and at every year end. *)
Theorem after_a_cycle_every_member_is_alive_and_healed
    {G : Type} `{RandomLaws G} (self : Arena) (g : G) :
  (Forall within_max (members (fighter_list self)) →
   ∃ (fuel0 : nat) (self' : Arena) (log : CycleLog) (g' : G),
     (∀ fuel, (fuel0 ≤ fuel)%nat →
        Arena_.run_one_cycle fuel self g = Ok ((self', log), g'))
     ∧ survivors log = members (fighter_list self')
     ∧ Forall healed (members (fighter_list self'))
     ∧ Forall within_max (members (fighter_list self'))
     ∧ Party_.num_dead (fighter_list self') = 0
     ∧ Party_.num_living (fighter_list self') = Party_.get_size (fighter_list self'))
  ∧ (∀ (cfg : Config) (id : Z),
       ∃ (fuel0 : nat) (r : Arena * list YearLog) (g' : G),
         (∀ fuel, (fuel0 ≤ fuel)%nat →
            Arena_.run_sim fuel (configured id cfg) g = Ok (r, g'))
         ∧ all_healed (fighter_list r.1)
         ∧ Forall (λ y, all_healed (at_year_end y)
                        ∧ Forall (λ c, Forall healed (survivors c)) (cycles y))
             r.2).
Proof.
  split; [apply run_one_cycle_spec|].
  intros cfg id. apply run_sim_spec. constructor.
Qed.

Lemma after_a_cycle_every_member_is_alive_and_healed_witness :
  (∃ (fuel0 : nat) (self' : Arena) (log : CycleLog) (g' : list Z),
     (∀ fuel, (fuel0 ≤ fuel)%nat →
        Arena_.run_one_cycle fuel
          (arena_of [fighter "Orc" 5; fighter "Elf" 7; fighter "Dwarf" 6])
          [2; 3; 11; 6]
        = Ok ((self', log), g'))
     ∧ survivors log = members (fighter_list self')
     ∧ Forall healed (members (fighter_list self'))
     ∧ Forall within_max (members (fighter_list self'))
     ∧ Party_.num_dead (fighter_list self') = 0
     ∧ Party_.num_living (fighter_list self') = Party_.get_size (fighter_list self'))
  ∧ (∀ (cfg : Config) (id : Z),
       ∃ (fuel0 : nat) (r : Arena * list YearLog) (g' : list Z),
         (∀ fuel, (fuel0 ≤ fuel)%nat →
            Arena_.run_sim fuel (configured id cfg) [2; 3; 11; 6] = Ok (r, g'))
         ∧ all_healed (fighter_list r.1)
         ∧ Forall (λ y, all_healed (at_year_end y)
                        ∧ Forall (λ c, Forall healed (survivors c)) (cycles y))
             r.2).
Proof.
  destruct (after_a_cycle_every_member_is_alive_and_healed
              (arena_of [fighter "Orc" 5; fighter "Elf" 7; fighter "Dwarf" 6])
              [2; 3; 11; 6]) as [Hcycle Hrun].
  split; [|exact Hrun].
  apply Hcycle. repeat constructor; vm_compute; discriminate.
Defined.


Lemma seeded_runs_observed_alike {G : Type} `{Random G} (fuel : nat) (seed : Z)
    (cfg : Config) (id1 id2 entropy1 entropy2 : Z) (g1 g2 : G) :
  map_result observe (seeded_run fuel seed entropy1 cfg id1 g1)
  = map_result observe (seeded_run fuel seed entropy2 cfg id2 g2).
Proof.
  unfold seeded_run, bind, set_random_seed.
  rewrite <- !run_sim_anonymous. reflexivity.
Qed.

Lemma seeded_run_returns {G : Type} `{RandomLaws G} (seed entropy : Z)
    (cfg : Config) (id : Z) (g : G) :
  ∃ (fuel0 : nat) r g',
    ∀ fuel, (fuel0 ≤ fuel)%nat → seeded_run fuel seed entropy cfg id g = Ok (r, g').
Proof.
  destruct (run_sim_spec (configured id cfg) (rng_seed seed))
    as (fuel0 & r & g' & Hrun & _); [constructor|].
  exists fuel0, r, g'. intros fuel Hfuel.
  unfold seeded_run, bind, set_random_seed. by apply Hrun.
Qed.

(** C8: two simulation runs seeded with the same integer and configured
    alike have the same outcome whatever the fuel, and with enough fuel both
    complete, in the same state of the generator and with the same
    observation: the same members in the same order with the same hit
    points, levels and equipment after every shuffle, the same encounters
    with the same blows, the same fallen, the same year-end reports and
    year-end populations.  What else the two runs may differ in has no
    influence: the identity [id(self)] of the arena, which only names the
    fighters, and the state of the generator before it was seeded.  The
    observation keeps the hit points, the count of the living and the average
    level of a population. *)
Theorem identically_seeded_runs_agree
    {G : Type} `{RandomLaws G} (seed : Z) (cfg : Config)
    (id1 id2 entropy1 entropy2 : Z) (g1 g2 : G) :
  (∀ fuel,
     map_result observe (seeded_run fuel seed entropy1 cfg id1 g1)
     = map_result observe (seeded_run fuel seed entropy2 cfg id2 g2))
  ∧ (∃ (fuel0 : nat) r1 r2 g',
       (∀ fuel, (fuel0 ≤ fuel)%nat →
          seeded_run fuel seed entropy1 cfg id1 g1 = Ok (r1, g')
          ∧ seeded_run fuel seed entropy2 cfg id2 g2 = Ok (r2, g'))
       ∧ observe r1 = observe r2)
  ∧ (∀ p : Party,
       get_hit_points <$> members (anonymous_party p)
       = get_hit_points <$> members p
       ∧ Party_.num_living (anonymous_party p) = Party_.num_living p
       ∧ Party_.get_average_level (anonymous_party p)
         = Party_.get_average_level p).
Proof.
  split; [intros fuel; apply seeded_runs_observed_alike|].
  split; [|apply anonymous_party_keeps].
  destruct (seeded_run_returns seed entropy1 cfg id1 g1) as (n1 & r1 & g1' & Hr1).
  destruct (seeded_run_returns seed entropy2 cfg id2 g2) as (n2 & r2 & g2' & Hr2).
  pose proof (seeded_runs_observed_alike (n1 `max` n2) seed cfg id1 id2
                entropy1 entropy2 g1 g2) as Hsame.
  rewrite Hr1, Hr2 in Hsame by lia. cbn [map_result] in Hsame.
  assert (observe r1 = observe r2) as Hobs by congruence.
  assert (g2' = g1') as -> by congruence.
  exists (n1 `max` n2)%nat, r1, r2, g1'. split; [|exact Hobs].
  intros fuel Hfuel. split; [apply Hr1|apply Hr2]; lia.
Qed.

Lemma identically_seeded_runs_agree_witness :
  (∀ fuel,
     map_result observe (seeded_run fuel 42 0 small_config 1 [])
     = map_result observe (seeded_run fuel 42 1 small_config 2 [5; 6]))
  ∧ (∃ (fuel0 : nat) r1 r2 (g' : list Z),
       (∀ fuel, (fuel0 ≤ fuel)%nat →
          seeded_run fuel 42 0 small_config 1 [] = Ok (r1, g')
          ∧ seeded_run fuel 42 1 small_config 2 [5; 6] = Ok (r2, g'))
       ∧ observe r1 = observe r2)
  ∧ (∀ p : Party,
       get_hit_points <$> members (anonymous_party p)
       = get_hit_points <$> members p
       ∧ Party_.num_living (anonymous_party p) = Party_.num_living p
       ∧ Party_.get_average_level (anonymous_party p)
         = Party_.get_average_level p).
Proof.
  exact (identically_seeded_runs_agree 42 small_config 1 2 0 1 [] [5; 6]).
Defined.

(** Without an integer seed the generator is seeded from the entropy of the
    operating system, and the state it starts from follows that entropy. *)
Remark unseeded_generator_follows_the_entropy :
  set_random_seed None 1 ([] : list Z) ≠ set_random_seed None 2 ([] : list Z).
Proof. vm_compute. discriminate. Qed.

(** * Further properties of the code *)

(** ** Printing and parsing dice *)

Lemma chars_app (s1 s2 : string) :
  list_ascii_of_string (s1 +:+ s2)
  = list_ascii_of_string s1 ++ list_ascii_of_string s2.
Proof. induction s1 as [|c s1 IH]; simpl; [done|]. by rewrite IH. Qed.

Lemma pretty_N_char_digit (m : N) :
  (m < 10)%N →
  is_digit (pretty_N_char m) ∧ digit_value (pretty_N_char m) = Z.of_N m.
Proof.
  intros Hm.
  assert (m = 0 ∨ m = 1 ∨ m = 2 ∨ m = 3 ∨ m = 4 ∨ m = 5 ∨ m = 6 ∨ m = 7
          ∨ m = 8 ∨ m = 9)%N as Hcases by lia.
  repeat (destruct Hcases as [-> | Hcases]; [by vm_compute|]).
  subst m. by vm_compute.
Qed.

Lemma int_of_digits_snoc (ds : list ascii) (c : ascii) :
  int_of_digits (ds ++ [c]) = 10 * int_of_digits ds + digit_value c.
Proof. unfold int_of_digits. by rewrite foldl_app. Qed.

(** The decimal digits [pretty_N_go] puts in front of its accumulator. *)
Lemma pretty_N_go_digits (x : N) :
  ∀ s, ∃ ds,
    list_ascii_of_string (pretty_N_go x s) = ds ++ list_ascii_of_string s
    ∧ digits ds
    ∧ int_of_digits ds = Z.of_N x
    ∧ ((0 < x)%N → ds ≠ []).
Proof.
  induction (N.lt_wf_0 x) as [x _ IH]. intros s.
  destruct (decide (x = 0)%N) as [->|Hx].
  { exists []. rewrite pretty_N_go_0. repeat split; [constructor|lia]. }
  rewrite pretty_N_go_step by lia.
  destruct (IH (x `div` 10)%N) with (s := String (pretty_N_char (x `mod` 10)) s)
    as (ds & Hchars & Hds & Hval & _).
  { apply N.div_lt; lia. }
  destruct (pretty_N_char_digit (x `mod` 10)%N) as [Hc Hv].
  { apply N.mod_lt. lia. }
  exists (ds ++ [pretty_N_char (x `mod` 10)]).
  split; [rewrite Hchars; simpl; by rewrite <- app_assoc|].
  split; [apply Forall_app; split; [done|by constructor]|].
  split.
  - rewrite int_of_digits_snoc, Hval, Hv.
    rewrite (N.div_mod x 10) at 3 by lia. lia.
  - intros _ Hnil. by apply app_eq_nil in Hnil as [_ ?].
Qed.

(** [str] of a non-negative integer is a non-empty run of digits that
    [int] reads back. *)
Lemma pretty_nonneg (n : Z) :
  0 ≤ n →
  digits (list_ascii_of_string (pretty n))
  ∧ list_ascii_of_string (pretty n) ≠ []
  ∧ int_of_digits (list_ascii_of_string (pretty n)) = n.
Proof.
  intros Hn. destruct n as [|p|p]; [| |lia].
  { split; [by constructor|]. by split. }
  unfold pretty, pretty_Z, pretty, pretty_positive, pretty, pretty_N.
  destruct (decide (N.pos p = 0)%N) as [|_]; [done|].
  destruct (pretty_N_go_digits (N.pos p) "") as (ds & Hchars & Hds & Hval & Hne).
  simpl in Hchars. rewrite app_nil_r in Hchars. rewrite Hchars.
  split; [done|]. split; [apply Hne; lia|]. by rewrite Hval.
Qed.

Lemma pretty_negative (n : Z) :
  n < 0 →
  list_ascii_of_string (pretty n)
  = "-"%char :: list_ascii_of_string (pretty (- n)).
Proof. intros Hn. destruct n as [|p|p]; [lia..|]. reflexivity. Qed.

Lemma Dice_str_grammar (d : Dice) :
  0 ≤ number d → 0 ≤ sides d → grammar (list_ascii_of_string (Dice_str d)) d.
Proof.
  intros Hn Hs. destruct d as [n s m a]. simpl in Hn, Hs.
  destruct (pretty_nonneg n Hn) as (Hn1 & Hn2 & Hn3).
  destruct (pretty_nonneg s Hs) as (Hs1 & Hs2 & Hs3).
  set (mul := if m =? 1 then []
              else if m >? 0 then "*"%char :: list_ascii_of_string (pretty m)
              else "/"%char :: list_ascii_of_string (pretty (Z.abs m))).
  set (add := if a =? 0 then []
              else if a >? 0 then "+"%char :: list_ascii_of_string (pretty a)
              else "-"%char :: list_ascii_of_string (pretty (- a))).
  assert (list_ascii_of_string (Dice_str (mkDice n s m a))
          = list_ascii_of_string (pretty n)
              ++ "d"%char :: list_ascii_of_string (pretty s) ++ mul ++ add)
    as ->.
  { pose proof (pretty_negative a) as Hneg.
    unfold Dice_str, mul, add. cbn [number sides multiplier addition].
    destruct (Z.eqb_spec a 0), (Z.eqb_spec m 1);
      try destruct (Z.gtb_spec a 0); try destruct (Z.gtb_spec m 0);
      rewrite ?chars_app; try rewrite Hneg by lia; clear Hneg;
      change (list_ascii_of_string "d") with ["d"%char];
      change (list_ascii_of_string "*") with ["*"%char];
      change (list_ascii_of_string "/") with ["/"%char];
      change (list_ascii_of_string "+") with ["+"%char];
      generalize (list_ascii_of_string (pretty n));
      generalize (list_ascii_of_string (pretty s));
      generalize (list_ascii_of_string (pretty m));
      generalize (list_ascii_of_string (pretty (Z.abs m)));
      generalize (list_ascii_of_string (pretty a));
      generalize (list_ascii_of_string (pretty (- a)));
      intros; rewrite <- ?app_assoc; cbn [app]; by rewrite ?app_nil_r. }
  assert (optional_part "*" "/" 1 mul m) as Hmul.
  { unfold mul. destruct (Z.eqb_spec m 1) as [->|Hm1]; [constructor|].
    destruct (Z.gtb_spec m 0).
    - destruct (pretty_nonneg m) as (H1 & H2 & H3); [lia|].
      rewrite <- H3 at 2. by constructor.
    - destruct (pretty_nonneg (Z.abs m)) as (H1 & H2 & H3); [lia|].
      replace m with (- int_of_digits (list_ascii_of_string (pretty (Z.abs m))))
        at 2 by lia.
      by constructor. }
  assert (optional_part "+" "-" 0 add a) as Hadd.
  { unfold add. destruct (Z.eqb_spec a 0) as [->|Ha0]; [constructor|].
    destruct (Z.gtb_spec a 0).
    - destruct (pretty_nonneg a) as (H1 & H2 & H3); [lia|].
      rewrite <- H3 at 2. by constructor.
    - destruct (pretty_nonneg (- a)) as (H1 & H2 & H3); [lia|].
      replace a with (- int_of_digits (list_ascii_of_string (pretty (- a))))
        at 2 by lia.
      by constructor. }
  pose proof (grammar_intro "d" _ _ _ _ _ _ Hn1 Hs1 Hs2 Hmul Hadd) as Hg.
  destruct (list_ascii_of_string (pretty n)) eqn:Hpn; [done|].
  cbn [is_empty] in Hg. by rewrite Hn3, Hs3 in Hg.
Qed.

(** X1: printing a dice expression with a count and a number of sides that
    are not negative and parsing the text gives the expression back: the
    count is always printed, a multiplier other than 1 is printed after [*]
    when positive and as its magnitude after [/] otherwise (0 included), an
    addend other than 0 after its sign. *)
Theorem from_string_of_str (d : Dice) :
  0 ≤ number d → 0 ≤ sides d → from_string (Dice_str d) = Ok d.
Proof. intros Hn Hs. by apply from_string_grammar, Dice_str_grammar. Qed.

Lemma from_string_of_str_witness :
  from_string (Dice_str (mkDice 4 6 (-2) (-3))) = Ok (mkDice 4 6 (-2) (-3)).
Proof. apply (from_string_of_str (mkDice 4 6 (-2) (-3))); simpl; lia. Defined.

(** ** Rolling at the edges *)

(** X2: a dice expression with a count of 0 or less draws nothing: [roll]
    returns the multiplier and addend applied to 0, floored at 0, and leaves
    the generator as it was, whatever the number of sides.  With a count of
    at least 1 and fewer than 1 side the first draw raises ValueError, the
    exception of [randint] on an empty range, and that is what [roll] raises.
    A roll that returns never returns a negative value. *)
Theorem roll_at_the_edges {G : Type} `{Random G} (d : Dice) (g : G) :
  (if number d <=? 0 then roll d g = Ok (pipeline d 0, g)
   else if sides d <? 1 then ∃ msg, roll d g = Raised (ValueError msg)
   else True)
  ∧ (∀ v g', roll d g = Ok (v, g') → 0 ≤ v).
Proof.
  split.
  - destruct (Z.leb_spec (number d) 0) as [Hn|Hn].
    + unfold roll. replace (Z.to_nat (number d)) with 0%nat by lia. reflexivity.
    + destruct (Z.ltb_spec (sides d) 1) as [Hs|Hs]; [|done].
      unfold roll. destruct (Z.to_nat (number d)) as [|n] eqn:Hk; [lia|].
      unfold bind. cbn [sum_randint]. unfold bind, randint.
      destruct (Z.ltb_spec (sides d) 1); [|lia]. by eexists.
  - intros v g' Hr. unfold roll, bind in Hr.
    destruct (sum_randint _ _ _ g) as [[total g1]| |]; [|done..].
    injection Hr as <- _. lia.
Qed.

(** ** The magic bonus of equipment *)

Lemma call_bonus_capped (a : Armor) (c : BonusCall) :
  armor_magic_bonus (call_bonus a c) ≤ MAX_MAGIC_BONUS
  ∧ base_armor (call_bonus a c) = base_armor a
  ∧ armor_type (call_bonus a c) = armor_type a.
Proof.
  destruct c; simpl; unfold MAX_MAGIC_BONUS; (split; [lia|by split]).
Qed.

(** X3: however an armor is constructed and whatever sequence of
    [set_magic_bonus] and [inc_magic_bonus] calls follows, its magic bonus is
    at most 5, its type and base value are the constructed ones, and its
    armor class is at most the base value plus 5.  [inc_magic_bonus] adds
    exactly 1 below the cap and changes nothing at the cap; there is no
    lower bound: a negative bonus is stored as given. *)
Theorem magic_bonus_never_exceeds_the_cap
    (t : ArmorType) (base weight magic_bonus : Z) (calls : list BonusCall) :
  let a := foldl call_bonus (Armor_init t base weight magic_bonus) calls in
  armor_magic_bonus a ≤ 5
  ∧ armor_type a = t ∧ base_armor a = base
  ∧ get_armor_class a ≤ base + 5
  ∧ armor_magic_bonus (inc_magic_bonus a)
    = (if armor_magic_bonus a <? 5 then armor_magic_bonus a + 1 else 5)
  ∧ (∀ bonus, bonus ≤ 5 → armor_magic_bonus (set_magic_bonus a bonus) = bonus).
Proof.
  cbv zeta.
  assert (armor_magic_bonus (foldl call_bonus (Armor_init t base weight magic_bonus) calls) ≤ 5
          ∧ armor_type (foldl call_bonus (Armor_init t base weight magic_bonus) calls) = t
          ∧ base_armor (foldl call_bonus (Armor_init t base weight magic_bonus) calls) = base)
    as (Hcap & Ht & Hb).
  { induction calls as [|c calls IH] using rev_ind.
    - simpl. unfold MAX_MAGIC_BONUS. split; [lia|by split].
    - rewrite foldl_app. simpl. destruct IH as (IH1 & IH2 & IH3).
      destruct (call_bonus_capped (foldl call_bonus
                  (Armor_init t base weight magic_bonus) calls) c)
        as (H1 & H2 & H3).
      unfold MAX_MAGIC_BONUS in H1. split; [done|]. split; congruence. }
  split; [done|]. split; [done|]. split; [done|].
  split; [unfold get_armor_class; lia|].
  split.
  - simpl. unfold MAX_MAGIC_BONUS.
    destruct (Z.ltb_spec (armor_magic_bonus
                (foldl call_bonus (Armor_init t base weight magic_bonus) calls)) 5);
      lia.
  - intros bonus Hbonus. simpl. unfold MAX_MAGIC_BONUS. lia.
Qed.

(** ** Random alignments *)

(** X4: the four random alignments always return, whatever the generator,
    and draw one die each; the Lawful-biased one never returns Chaotic and
    the Chaotic-biased one never returns Lawful. *)
Theorem biased_alignments_stay_on_their_side
    {G : Type} `{Random G} (g : G) :
  (∃ al, random_lawful g = Ok (al, (rng_randint 1 6 g).2) ∧ al ≠ CHAOTIC)
  ∧ (∃ al, random_chaotic g = Ok (al, (rng_randint 1 6 g).2) ∧ al ≠ LAWFUL)
  ∧ (∃ al, random_uniform g = Ok (al, (rng_randint 1 6 g).2))
  ∧ (∃ al, random_normal g = Ok (al, (rng_randint 1 6 g).2)).
Proof.
  assert (randint 1 6 g = Ok (rng_randint 1 6 g)) as Hdraw by done.
  destruct (rng_randint 1 6 g) as [v g1] eqn:Hv. cbn [snd].
  unfold random_lawful, random_chaotic, random_uniform, random_normal.
  rewrite !(bind_Ok _ _ _ _ _ Hdraw).
  split; [|split; [|split]].
  - destruct (_ && _); by eexists.
  - destruct (_ && _); by eexists.
  - destruct (_ && _); [by eexists|]. destruct (_ && _); by eexists.
  - destruct (_ && _); [by eexists|]. destruct (_ =? _); by eexists.
Qed.


(** ** Ability scores *)

Section abilities.
Context {G : Type} `{RandomLaws G}.

Lemma roll_in_range (d : Dice) (g : G) :
  0 ≤ number d → 1 ≤ sides d →
  ∃ v g', roll d g = Ok (v, g') ∧ min_roll d ≤ v ≤ max_roll d.
Proof.
  intros Hn Hs. destruct (roll_spec d g Hn Hs) as (total & g' & Hr & Hb).
  exists (pipeline d total), g'. split; [done|].
  assert (min_roll d = pipeline d (number d * 1)) as ->
    by (unfold min_roll, pipeline; by rewrite Z.mul_1_r).
  change (max_roll d) with (pipeline d (number d * sides d)).
  split; apply pipeline_mono; lia.
Qed.

(** The loop of roll_ability_scores over the abilities of [l]. *)
Lemma roll_abilities_loop (dice : Dice) (l : list Ability) :
  0 ≤ number dice → 1 ≤ sides dice →
  ∀ (c : Character) (g : G),
  ∃ c' g',
    for_each l
      (λ self ability,
         score <- roll dice ;;
         ret (with_abilities (<[ability := score]> (ability_scores self))
                (<[ability := 0]> (ability_score_damage self)) self))
      c g = Ok (c', g')
    ∧ with_abilities (ability_scores c) (ability_score_damage c) c' = c
    ∧ (∀ a, a ∈ l →
         ∃ v, ability_scores c' !! a = Some v
              ∧ min_roll dice ≤ v ≤ max_roll dice
              ∧ ability_score_damage c' !! a = Some 0)
    ∧ (∀ a, a ∉ l →
         ability_scores c' !! a = ability_scores c !! a
         ∧ ability_score_damage c' !! a = ability_score_damage c !! a).
Proof.
  intros Hn Hs. induction l as [|x l IH]; intros c g.
  - exists c, g. split; [done|]. split; [by destruct c|].
    split; [intros a Ha; by apply elem_of_nil in Ha|done].
  - destruct (roll_in_range dice g Hn Hs) as (v & g1 & Hr & Hv).
    destruct (IH (with_abilities (<[x := v]> (ability_scores c))
                    (<[x := 0]> (ability_score_damage c)) c) g1)
      as (c' & g' & Hloop & Hsame & Hin & Hout).
    exists c', g'. split.
    { cbn [for_each]. erewrite bind_Ok; [exact Hloop|].
      by rewrite (bind_Ok _ _ _ _ _ Hr). }
    split.
    { destruct c, c'. unfold with_abilities in *. cbn in *. congruence. }
    split.
    + intros a Ha. destruct (decide (a ∈ l)) as [Hl|Hl]; [by apply Hin|].
      apply elem_of_cons in Ha as [->|Ha]; [|done].
      destruct (Hout x Hl) as [Hs1 Hd1]. exists v.
      rewrite Hs1, Hd1. cbn [ability_scores ability_score_damage with_abilities].
      by rewrite !lookup_insert_eq.
    + intros a Ha. apply not_elem_of_cons in Ha as [Hne Ha].
      destruct (Hout a Ha) as [Hs1 Hd1]. rewrite Hs1, Hd1.
      cbn [ability_scores ability_score_damage with_abilities].
      by rewrite !lookup_insert_ne.
Qed.

Lemma every_ability_is_a_member (a : Ability) : a ∈ Ability_members.
Proof. destruct a; unfold Ability_members; set_solver. Qed.

Lemma roll_ability_scores_ranges (c : Character) (dice_option : Z) (g : G) :
  match getitem Character_.ABILITY_DICE dice_option with
  | None => Character_.roll_ability_scores c dice_option g = Raised IndexError
  | Some dice =>
      ∃ c' g',
        Character_.roll_ability_scores c dice_option g = Ok (c', g')
        ∧ with_abilities (ability_scores c) (ability_score_damage c) c' = c
        ∧ ∀ a, ∃ v, ability_scores c' !! a = Some v
                    ∧ ability_score_damage c' !! a = Some 0
                    ∧ Character_.get_ability_score c' a = v
                    ∧ min_roll dice ≤ v ≤ max_roll dice
                    ∧ 3 ≤ min_roll dice ∧ max_roll dice = 18
  end.
Proof.
  unfold Character_.roll_ability_scores.
  destruct (getitem Character_.ABILITY_DICE dice_option) as [dice|] eqn:Hd;
    [|done].
  assert (0 ≤ number dice ∧ 1 ≤ sides dice ∧ 3 ≤ min_roll dice
          ∧ max_roll dice = 18) as (Hn & Hs & Hmin & Hmax).
  { unfold getitem in Hd. destruct (_ && _); [|done].
    apply list_elem_of_lookup_2 in Hd. unfold Character_.ABILITY_DICE in Hd.
    repeat (apply elem_of_cons in Hd as [->|Hd]; [by vm_compute|]).
    by apply elem_of_nil in Hd. }
  destruct (roll_abilities_loop dice Ability_members Hn Hs c g)
    as (c' & g' & Hloop & Hsame & Hin & _).
  exists c', g'. split; [done|]. split; [done|]. intros a.
  destruct (Hin a (every_ability_is_a_member a)) as (v & Hv & Hr & Hz).
  exists v. unfold Character_.get_ability_score. rewrite Hv, Hz. simpl.
  repeat split; try done; lia.
Qed.

Lemma with_abilities_eq (scores damage : gmap Ability Z) (c c' : Character) :
  with_abilities scores damage c' = c →
  super c' = super c ∧ name c' = name c ∧ age c' = age c
  ∧ class_type c' = class_type c ∧ level c' = level c
  ∧ armor_worn c' = armor_worn c ∧ shield_held c' = shield_held c
  ∧ weapon_in_hand c' = weapon_in_hand c
  ∧ experience_points c' = experience_points c ∧ sweep_rate c' = sweep_rate c.
Proof. intros <-. by destruct c'. Qed.

Lemma Character_init_fresh (n : string) (lvl : Z) (cls : ClassType) (g : G) :
  ∃ c g',
    Character_.init n lvl cls g = Ok (c, g')
    ∧ (∀ a, 3 ≤ Character_.get_ability_score c a ≤ 18
            ∧ ability_score_damage c !! a = Some 0)
    ∧ name c = n ∧ level c = lvl ∧ class_type c = cls
    ∧ armor_worn c = None ∧ shield_held c = None ∧ weapon_in_hand c = None
    ∧ experience_points c = 0
    ∧ armor_class (super c) = 9 ∧ hit_dice (super c) = Dice2 lvl 6
    ∧ hit_points (super c) = max_hit_points (super c)
    ∧ Z.max lvl 0 ≤ hit_points (super c) ≤ 6 * Z.max lvl 0.
Proof.
  unfold Character_.init, Monster_.init.
  edestruct (Monster_roll_hit_points_spec) as (hp0 & g0 & Hr0 & _);
    [|erewrite bind_Ok; [|exact Hr0]]; [simpl; lia|].
  match goal with
  | |- context [Character_.roll_ability_scores ?c0 0] =>
      pose proof (roll_ability_scores_ranges c0 0 g0) as Hroll
  end.
  change (getitem Character_.ABILITY_DICE 0) with (Some (Dice2 3 6)) in Hroll.
  destruct Hroll as (c1 & g1 & Hr1 & Hsame & Hab).
  erewrite bind_Ok; [|exact Hr1].
  unfold Character_.roll_hit_points, Monster_.roll_hit_points.
  destruct (with_abilities_eq _ _ _ _ Hsame)
    as (Hsuper & Hname & _ & Hcls & Hlvl & Harmor & Hshield & Hweapon & Hxp & _).
  cbn [super name class_type level armor_worn shield_held weapon_in_hand
       experience_points] in Hsuper, Hname, Hcls, Hlvl, Harmor, Hshield,
       Hweapon, Hxp.
  assert (hit_dice (super c1) = Dice2 lvl 6) as Hhd by (by rewrite Hsuper).
  assert (∃ hp g2, roll (hit_dice (super c1)) g1 = Ok (hp, g2)
                   ∧ Z.max lvl 0 ≤ hp ≤ 6 * Z.max lvl 0) as (hp & g2 & Hr2 & Hhp).
  { rewrite Hhd. destruct (Z.le_gt_cases 0 lvl) as [Hl|Hl].
    - destruct (roll_in_range (Dice2 lvl 6) g1) as (v & g2 & Hv & Hb);
        [done|simpl; lia|].
      exists v, g2. split; [done|].
      unfold min_roll, max_roll, apply_multiplier in Hb. simpl in Hb. lia.
    - exists 0, g1. split; [|lia].
      unfold roll. simpl. replace (Z.to_nat lvl) with 0%nat by lia. reflexivity. }
  erewrite bind_Ok; [|erewrite bind_Ok; [|exact Hr2]; reflexivity].
  eexists _, g2. split; [reflexivity|].
  split.
  { intros a. destruct (Hab a) as (v & Hv & Hz & Hget & Hrange & Hmin & Hmax).
    unfold Character_.get_ability_score in *.
    cbn [ability_scores ability_score_damage with_super].
    rewrite Hv, Hz in *. cbn [default] in *. split; [lia|done]. }
  cbn [name level class_type armor_worn shield_held weapon_in_hand
       experience_points super with_super armor_class hit_dice hit_points
       max_hit_points with_hit_points with_max_hit_points].
  rewrite Hsuper. cbn [armor_class hit_dice with_hit_points with_max_hit_points].
  repeat split; try done; lia.
Qed.

End abilities.

(** X5: with a generator whose [randint] stays in its range the
    construction of a Character returns, whatever the level: each of the six
    ability scores is between 3 and 18 with no damage, the level, name and
    class are the ones given, there is no armor, shield or weapon and no
    experience, the armor class is 9, the hit dice are [level]d6, and the hit
    points are at their maximum, between the level and six times the level
    (0 for a level below 1). *)
Theorem a_new_character_is_well_formed
    {G : Type} `{RandomLaws G} (n : string) (lvl : Z) (cls : ClassType) (g : G) :
  ∃ c g',
    Character_.init n lvl cls g = Ok (c, g')
    ∧ (∀ a, 3 ≤ Character_.get_ability_score c a ≤ 18
            ∧ ability_score_damage c !! a = Some 0)
    ∧ name c = n ∧ level c = lvl ∧ class_type c = cls
    ∧ armor_worn c = None ∧ shield_held c = None ∧ weapon_in_hand c = None
    ∧ experience_points c = 0
    ∧ armor_class (super c) = 9 ∧ hit_dice (super c) = Dice2 lvl 6
    ∧ hit_points (super c) = max_hit_points (super c)
    ∧ Z.max lvl 0 ≤ hit_points (super c) ≤ 6 * Z.max lvl 0.
Proof. apply Character_init_fresh. Qed.

Lemma a_new_character_is_well_formed_witness :
  ∃ c g',
    Character_.init "Bob" 3 FIGHTER [4; 9; 1] = Ok (c, g')
    ∧ (∀ a, 3 ≤ Character_.get_ability_score c a ≤ 18
            ∧ ability_score_damage c !! a = Some 0)
    ∧ name c = "Bob" ∧ level c = 3 ∧ class_type c = FIGHTER
    ∧ armor_worn c = None ∧ shield_held c = None ∧ weapon_in_hand c = None
    ∧ experience_points c = 0
    ∧ armor_class (super c) = 9 ∧ hit_dice (super c) = Dice2 3 6
    ∧ hit_points (super c) = max_hit_points (super c)
    ∧ Z.max 3 0 ≤ hit_points (super c) ≤ 6 * Z.max 3 0.
Proof. exact (a_new_character_is_well_formed "Bob" 3 FIGHTER [4; 9; 1]). Defined.

Lemma getitem_in_range {A : Type} (l : list A) (i : Z) :
  is_Some (getitem l i)
  ↔ - Z.of_nat (length l) ≤ i < Z.of_nat (length l).
Proof.
  unfold getitem.
  destruct (Z.ltb_spec i 0);
    [destruct (Z.leb_spec 0 (i + Z.of_nat (length l)));
     destruct (Z.ltb_spec (i + Z.of_nat (length l)) (Z.of_nat (length l)))
    |destruct (Z.leb_spec 0 i);
     destruct (Z.ltb_spec i (Z.of_nat (length l)))];
    cbn [andb]; rewrite ?lookup_lt_is_Some; split; try lia;
    try (intros [? ?]; done).
Qed.

(** X6: [roll_ability_scores] with a dice option from -4 to 3 (a negative
    one counts from the last option) returns, with a generator whose
    [randint] stays in its range: it touches the ability scores and their
    damage only, every score is between the least and the greatest roll of
    the chosen dice, which are at least 3 and exactly 18, and every damage
    is 0.  Any other option raises IndexError. *)
Theorem roll_ability_scores_by_option
    {G : Type} `{RandomLaws G} (c : Character) (dice_option : Z) (g : G) :
  if (-4 <=? dice_option) && (dice_option <? 4) then
    ∃ dice c' g',
      getitem Character_.ABILITY_DICE dice_option = Some dice
      ∧ Character_.roll_ability_scores c dice_option g = Ok (c', g')
      ∧ with_abilities (ability_scores c) (ability_score_damage c) c' = c
      ∧ ∀ a, ∃ v, ability_scores c' !! a = Some v
                  ∧ ability_score_damage c' !! a = Some 0
                  ∧ Character_.get_ability_score c' a = v
                  ∧ min_roll dice ≤ v ≤ max_roll dice
                  ∧ 3 ≤ min_roll dice ∧ max_roll dice = 18
  else Character_.roll_ability_scores c dice_option g = Raised IndexError.
Proof.
  pose proof (roll_ability_scores_ranges c dice_option g) as Hr.
  pose proof (getitem_in_range Character_.ABILITY_DICE dice_option) as Hrange.
  change (Z.of_nat (length Character_.ABILITY_DICE)) with 4 in Hrange.
  destruct (Z.leb_spec (-4) dice_option) as [Hlo|Hlo];
    destruct (Z.ltb_spec dice_option 4) as [Hhi|Hhi]; cbn [andb].
  - destruct (proj2 Hrange ltac:(lia)) as [dice Hd]. rewrite Hd in Hr.
    destruct Hr as (c' & g' & Hr). by exists dice, c', g'.
  - destruct (getitem Character_.ABILITY_DICE dice_option) as [dice|] eqn:Hd;
      [|done].
    assert (- 4 ≤ dice_option < 4) by (apply Hrange; by eexists). lia.
  - destruct (getitem Character_.ABILITY_DICE dice_option) as [dice|] eqn:Hd;
      [|done].
    assert (- 4 ≤ dice_option < 4) by (apply Hrange; by eexists). lia.
  - lia.
Qed.

Lemma roll_ability_scores_by_option_witness :
  ∃ dice c' g',
    getitem Character_.ABILITY_DICE (-1) = Some dice
    ∧ Character_.roll_ability_scores
        (mkCharacter (mkMonster "Fighter 1" 9 12 (Dice2 1 6) (mkAttack 1 "1d8" 0)
                        NEUTRAL 1 4 4 0 0)
           "Bob" 18 FIGHTER 1 ∅ ∅ None None None 0 0)
        (-1) [4; 9; 1] = Ok (c', g')
    ∧ with_abilities ∅ ∅ c'
      = mkCharacter (mkMonster "Fighter 1" 9 12 (Dice2 1 6) (mkAttack 1 "1d8" 0)
                       NEUTRAL 1 4 4 0 0)
          "Bob" 18 FIGHTER 1 ∅ ∅ None None None 0 0
    ∧ ∀ a, ∃ v, ability_scores c' !! a = Some v
                ∧ ability_score_damage c' !! a = Some 0
                ∧ Character_.get_ability_score c' a = v
                ∧ min_roll dice ≤ v ≤ max_roll dice
                ∧ 3 ≤ min_roll dice ∧ max_roll dice = 18.
Proof.
  exact (roll_ability_scores_by_option
           (mkCharacter (mkMonster "Fighter 1" 9 12 (Dice2 1 6)
                           (mkAttack 1 "1d8" 0) NEUTRAL 1 4 4 0 0)
              "Bob" 18 FIGHTER 1 ∅ ∅ None None None 0 0)
           (-1) [4; 9; 1]).
Defined.


(** ** Ability damage *)

Lemma get_ability_score_nonneg (c : Character) (a : Ability) :
  0 ≤ Character_.get_ability_score c a.
Proof. unfold Character_.get_ability_score. lia. Qed.

Lemma zero_ability_damage_lookup (c : Character) (a : Ability) :
  ability_score_damage (Character_.zero_ability_damage c) !! a = Some 0
  ∧ ability_scores (Character_.zero_ability_damage c) = ability_scores c
  ∧ with_abilities (ability_scores c) (ability_score_damage c)
      (Character_.zero_ability_damage c) = c.
Proof.
  unfold Character_.zero_ability_damage, Ability_members.
  cbn [foldl ability_scores ability_score_damage with_abilities].
  split; [|split; [done|by destruct c]].
  destruct a; repeat (rewrite lookup_insert_ne by done); by rewrite lookup_insert_eq.
Qed.

Lemma has_null_ability_score_iff (c : Character) :
  Character_.has_null_ability_score c
  ↔ ∃ a, Character_.get_ability_score c a = 0.
Proof.
  unfold Character_.has_null_ability_score.
  rewrite Is_true_true, existsb_exists. split.
  - intros (a & _ & Ha). exists a. apply Z.leb_le in Ha.
    pose proof (get_ability_score_nonneg c a). lia.
  - intros [a Ha]. exists a. split; [|apply Z.leb_le; lia].
    apply list_elem_of_In, every_ability_is_a_member.
Qed.

(** X7: ability damage adds up and is floored on reading: after
    [take_ability_damage] the score of the ability is its base score (10 when
    never rolled) minus all the damage taken so far, or 0 when that is
    negative, and the other abilities read as before; two damages are one
    damage of their sum; nothing but the damage table changes, the stored
    armor class included.  [zero_ability_damage] brings every score back to
    its base.  [has_null_ability_score] holds exactly when some score reads
    0. *)
Theorem ability_damage_adds_up_and_is_undone
    (c : Character) (a : Ability) (damage damage' : Z) :
  Character_.get_ability_score (Character_.take_ability_damage c a damage) a
  = Z.max 0 (default 10 (ability_scores c !! a)
             - (default 0 (ability_score_damage c !! a) + damage))
  ∧ (∀ b, b ≠ a →
       Character_.get_ability_score (Character_.take_ability_damage c a damage) b
       = Character_.get_ability_score c b)
  ∧ Character_.take_ability_damage (Character_.take_ability_damage c a damage)
      a damage'
    = Character_.take_ability_damage c a (damage + damage')
  ∧ with_abilities (ability_scores c) (ability_score_damage c)
      (Character_.take_ability_damage c a damage) = c
  ∧ (∀ b, Character_.get_ability_score
            (Character_.zero_ability_damage
               (Character_.take_ability_damage c a damage)) b
          = Z.max 0 (default 10 (ability_scores c !! b)))
  ∧ (Character_.has_null_ability_score c
     ↔ ∃ b, Character_.get_ability_score c b = 0).
Proof.
  split.
  { unfold Character_.get_ability_score, Character_.take_ability_damage.
    cbn [ability_scores ability_score_damage with_abilities].
    by rewrite lookup_insert_eq. }
  split.
  { intros b Hb.
    unfold Character_.get_ability_score, Character_.take_ability_damage.
    cbn [ability_scores ability_score_damage with_abilities].
    by rewrite lookup_insert_ne. }
  split.
  { unfold Character_.take_ability_damage.
    cbn [ability_scores ability_score_damage with_abilities].
    rewrite lookup_insert_eq, insert_insert_eq. simpl.
    by rewrite Z.add_assoc. }
  split; [by destruct c|].
  split; [|apply has_null_ability_score_iff].
  intros b.
  destruct (zero_ability_damage_lookup
              (Character_.take_ability_damage c a damage) b) as (Hz & Hs & _).
  unfold Character_.get_ability_score. rewrite Hz, Hs. simpl.
  by rewrite Z.sub_0_r.
Qed.

(** ** Armor and shield *)

Lemma set_armor_set_shield_commute (c : Character) (a s : option Armor) :
  Character_.set_shield (Character_.set_armor c a) s
  = Character_.set_armor (Character_.set_shield c s) a.
Proof. by destruct c. Qed.

(** X8: after an armor and a shield were set, in either order, the stored
    armor class is 9 minus the armor's base value and magic bonus, minus the
    shield's, minus the dexterity modifier as the ability scores stand; the
    two setters commute, setting a slot again replaces what it held, and
    setting [None] takes its contribution away; nothing else of the
    character changes. *)
Theorem armor_class_after_setting_armor_and_shield
    (c : Character) (a a' s s' : option Armor) :
  armor_class (super (Character_.set_shield (Character_.set_armor c a) s))
  = 9 - from_option get_armor_class 0 a - from_option get_armor_class 0 s
      - Character_.get_ability_modifier c DEXTERITY
  ∧ Character_.set_shield (Character_.set_armor c a) s
    = Character_.set_armor (Character_.set_shield c s) a
  ∧ Character_.set_armor (Character_.set_armor c a) a' = Character_.set_armor c a'
  ∧ Character_.set_shield (Character_.set_shield c s) s'
    = Character_.set_shield c s'
  ∧ armor_worn (Character_.set_shield (Character_.set_armor c a) s) = a
  ∧ shield_held (Character_.set_shield (Character_.set_armor c a) s) = s
  ∧ with_shield_held (shield_held c)
      (with_armor_worn (armor_worn c)
         (with_super (with_armor_class (armor_class (super c))
                        (super (Character_.set_shield (Character_.set_armor c a) s)))
            (Character_.set_shield (Character_.set_armor c a) s)))
    = c
  ∧ -1 ≤ Character_.get_ability_modifier c DEXTERITY ≤ 1.
Proof.
  split.
  { unfold Character_.set_shield.
    destruct (update_armor_class_derived
                (with_shield_held s (Character_.set_armor c a))) as [-> _].
    unfold derived_armor_class. by destruct c. }
  split; [apply set_armor_set_shield_commute|].
  split; [by destruct c|].
  split; [by destruct c|].
  split; [by destruct c|].
  split; [by destruct c|].
  split; [destruct c as [m]; by destruct m|].
  unfold Character_.get_ability_modifier.
  destruct (_ <=? 8); [lia|]. destruct (_ <=? 12); lia.
Qed.

(** ** Damage and healing *)

(** X9: a damage of at least the current hit points leaves the combatant
    dead and returns False, a smaller one leaves it alive and returns True;
    [is_dead] is the negation of [is_alive]; [heal_fully] sets the hit points
    to the maximum whatever they were, so healing after a damage is healing,
    healing twice is healing once, and a healed combatant is alive exactly
    when its maximum is above 0, dead before or not. *)
Theorem damage_kills_and_healing_restores (x : Combatant) (damage : Z) :
  (if get_hit_points x <=? damage
   then is_dead (take_damage x damage).1 ∧ (take_damage x damage).2 = false
   else is_alive (take_damage x damage).1 ∧ (take_damage x damage).2 = true)
  ∧ is_dead x = negb (is_alive x)
  ∧ heal_fully (take_damage x damage).1 = heal_fully x
  ∧ heal_fully (heal_fully x) = heal_fully x
  ∧ get_hit_points (heal_fully x) = get_max_hit_points x
  ∧ get_max_hit_points (heal_fully x) = get_max_hit_points x
  ∧ (is_alive (heal_fully x) ↔ 0 < get_max_hit_points x).
Proof.
  split.
  { pose proof (take_damage_hit_points x damage) as Hhp.
    assert ((take_damage x damage).2
            = (get_hit_points (take_damage x damage).1 >? 0)) as ->
      by (by destruct x).
    destruct (Z.leb_spec (get_hit_points x) damage).
    - split; [apply is_dead_hit_points; lia|].
      destruct (Z.gtb_spec (get_hit_points (take_damage x damage).1) 0); [lia|done].
    - split; [apply is_alive_hit_points; lia|].
      destruct (Z.gtb_spec (get_hit_points (take_damage x damage).1) 0); [done|lia]. }
  split.
  { unfold is_dead, is_alive, Monster_.is_dead, Monster_.is_alive.
    destruct (Z.leb_spec (hit_points (base x)) 0);
      destruct (Z.gtb_spec (hit_points (base x)) 0); done || lia. }
  split; [destruct x as [m|c]; [by destruct m|destruct c as [m]; by destruct m]|].
  split; [destruct x as [m|c]; [by destruct m|destruct c as [m]; by destruct m]|].
  split; [by destruct x|]. split; [by destruct x|].
  rewrite is_alive_hit_points. by destruct x.
Qed.


(** ** Levelling up *)

Lemma level_up_spec {G : Type} `{RandomLaws G} (c : Character) (g : G) :
  ∃ hp g',
    Character_.level_up c g
    = Ok (with_super
            (with_max_hit_points hp
               (with_hit_points hp
                  (with_hit_dice (Dice2 (level c + 1) 6) (super c))))
            (with_level (level c + 1) c), g')
    ∧ Z.max (level c + 1) 0 ≤ hp ≤ 6 * Z.max (level c + 1) 0.
Proof.
  unfold Character_.level_up, Character_.roll_hit_points,
    Monster_.roll_hit_points.
  cbn [level with_level super with_super hit_dice with_hit_dice].
  assert (∃ hp g', roll (Dice2 (level c + 1) 6) g = Ok (hp, g')
                   ∧ Z.max (level c + 1) 0 ≤ hp ≤ 6 * Z.max (level c + 1) 0)
    as (hp & g' & Hr & Hhp).
  { destruct (Z.le_gt_cases 0 (level c + 1)) as [Hl|Hl].
    - destruct (roll_in_range (Dice2 (level c + 1) 6) g) as (v & g' & Hv & Hb);
        [done|simpl; lia|].
      exists v, g'. split; [done|].
      unfold min_roll, max_roll, apply_multiplier in Hb. simpl in Hb. lia.
    - exists 0, g. split; [|lia]. unfold roll. simpl.
      replace (Z.to_nat (level c + 1)) with 0%nat by lia. reflexivity. }
  exists hp, g'. split; [|done].
  erewrite bind_Ok; [|erewrite bind_Ok; [|exact Hr]; reflexivity].
  by destruct c.
Qed.

(** X10: with a generator whose [randint] stays in its range, [level_up]
    returns: the level is one higher, the hit dice are that many d6, the hit
    points are rolled anew and are at their maximum, between the new level
    and six times the new level (0 for a new level below 1), and nothing else
    changes (armor class, abilities, equipment, experience).  The hit points
    and the maximum before the call have no influence on the result. *)
Theorem level_up_rolls_the_hit_points_anew
    {G : Type} `{RandomLaws G} (c : Character) (g : G) :
  ∃ c' g',
    Character_.level_up c g = Ok (c', g')
    ∧ level c' = level c + 1
    ∧ hit_dice (super c') = Dice2 (level c + 1) 6
    ∧ hit_points (super c') = max_hit_points (super c')
    ∧ Z.max (level c + 1) 0 ≤ hit_points (super c') ≤ 6 * Z.max (level c + 1) 0
    ∧ with_level (level c)
        (with_super
           (with_hit_dice (hit_dice (super c))
              (with_max_hit_points (max_hit_points (super c))
                 (with_hit_points (hit_points (super c)) (super c'))))
           c') = c
    ∧ ∀ hp max_hp,
        Character_.level_up
          (with_super
             (with_max_hit_points max_hp (with_hit_points hp (super c))) c) g
        = Ok (c', g').
Proof.
  destruct (level_up_spec c g) as (hp & g' & Hr & Hhp).
  eexists _, g'. split; [exact Hr|].
  split; [done|]. split; [done|]. split; [done|]. split; [done|].
  split; [destruct c as [m]; by destruct m|].
  intros hp' max_hp. rewrite <- Hr.
  unfold Character_.level_up, Character_.roll_hit_points,
    Monster_.roll_hit_points.
  cbn [level with_level super with_super hit_dice with_hit_dice
       with_hit_points with_max_hit_points].
  unfold bind. destruct (roll _ g) as [[v g1]| |]; [|done..].
  destruct c as [m]; by destruct m.
Qed.

Lemma level_up_rolls_the_hit_points_anew_witness :
  ∃ c' g',
    Character_.level_up
      (mkCharacter (mkMonster "Fighter 1" 9 12 (Dice2 1 6) (mkAttack 1 "1d8" 0)
                      NEUTRAL 1 4 4 0 0)
         "Bob" 18 FIGHTER 1 ∅ ∅ None None None 0 0) [4; 9; 1] = Ok (c', g')
    ∧ level c' = 1 + 1
    ∧ hit_dice (super c') = Dice2 (1 + 1) 6
    ∧ hit_points (super c') = max_hit_points (super c')
    ∧ Z.max (1 + 1) 0 ≤ hit_points (super c') ≤ 6 * Z.max (1 + 1) 0
    ∧ with_level 1
        (with_super
           (with_hit_dice (Dice2 1 6)
              (with_max_hit_points 4 (with_hit_points 4 (super c'))))
           c')
      = mkCharacter (mkMonster "Fighter 1" 9 12 (Dice2 1 6) (mkAttack 1 "1d8" 0)
                       NEUTRAL 1 4 4 0 0)
          "Bob" 18 FIGHTER 1 ∅ ∅ None None None 0 0
    ∧ ∀ hp max_hp,
        Character_.level_up
          (with_super
             (with_max_hit_points max_hp
                (with_hit_points hp
                   (mkMonster "Fighter 1" 9 12 (Dice2 1 6) (mkAttack 1 "1d8" 0)
                      NEUTRAL 1 4 4 0 0)))
             (mkCharacter (mkMonster "Fighter 1" 9 12 (Dice2 1 6)
                             (mkAttack 1 "1d8" 0) NEUTRAL 1 4 4 0 0)
                "Bob" 18 FIGHTER 1 ∅ ∅ None None None 0 0)) [4; 9; 1]
        = Ok (c', g').
Proof.
  exact (level_up_rolls_the_hit_points_anew
           (mkCharacter (mkMonster "Fighter 1" 9 12 (Dice2 1 6)
                           (mkAttack 1 "1d8" 0) NEUTRAL 1 4 4 0 0)
              "Bob" 18 FIGHTER 1 ∅ ∅ None None None 0 0) [4; 9; 1]).
Defined.

(** ** Sums over a party *)

Lemma foldl_add_shift (l : list Z) (a : Z) :
  foldl Z.add a l = a + foldl Z.add 0 l.
Proof.
  revert a. induction l as [|x l IH]; intros a; simpl; [lia|].
  rewrite (IH (a + x)), (IH (0 + x)). lia.
Qed.

Lemma foldl_add_perm (l l' : list Z) :
  l ≡ₚ l' → foldl Z.add 0 l = foldl Z.add 0 l'.
Proof.
  induction 1 as [|x l l' _ IH|x y l|l l' l'' _ IH1 _ IH2]; simpl.
  - done.
  - rewrite (foldl_add_shift l), (foldl_add_shift l'). lia.
  - rewrite (foldl_add_shift l (0 + y + x)), (foldl_add_shift l (0 + x + y)). lia.
  - congruence.
Qed.

(** ** Sorting a party by level *)

Section sorting.
Context {A : Type} (key : A → Z) (reverse : bool).

#[local] Instance in_order_trans : Transitive (in_order key reverse).
Proof. intros x y z. unfold in_order. destruct reverse; lia. Qed.

Lemma sort_insert_perm (x : A) (sorted : list A) :
  Party_.sort_insert key reverse x sorted ≡ₚ x :: sorted.
Proof.
  induction sorted as [|y sorted IH]; simpl; [done|].
  destruct (if reverse then _ else _); [done|].
  rewrite IH. apply Permutation_swap.
Qed.

Lemma sort_insert_sorted (x : A) (sorted : list A) :
  StronglySorted (in_order key reverse) sorted →
  StronglySorted (in_order key reverse) (Party_.sort_insert key reverse x sorted).
Proof.
  induction 1 as [|y sorted Hs IH Hy]; simpl; [by repeat constructor|].
  destruct (if reverse then key y <=? key x else key x <=? key y) eqn:Hc.
  - assert (in_order key reverse x y) as Hxy.
    { unfold in_order. destruct reverse; lia. }
    constructor; [by constructor|]. constructor; [done|].
    eapply Forall_impl; [exact Hy|]. intros z Hz. by etrans.
  - constructor; [done|]. rewrite sort_insert_perm. constructor; [|done].
    unfold in_order. destruct reverse; lia.
Qed.

Lemma sort_insert_filter (k : Z) (x : A) (sorted : list A) :
  filter (λ y, key y = k) (Party_.sort_insert key reverse x sorted)
  = filter (λ y, key y = k) (x :: sorted).
Proof.
  induction sorted as [|y sorted IH]; simpl; [done|].
  destruct (if reverse then key y <=? key x else key x <=? key y) eqn:Hc; [done|].
  assert (key y ≠ key x) as Hne by (destruct reverse; lia).
  rewrite (filter_cons _ y), IH, !(filter_cons _ x), (filter_cons _ y).
  destruct (decide (key y = k)), (decide (key x = k)); congruence.
Qed.

Lemma sort_insert_in_order (x : A) (sorted : list A) :
  Forall (in_order key reverse x) sorted →
  Party_.sort_insert key reverse x sorted = x :: sorted.
Proof.
  destruct 1 as [|y sorted Hy _]; simpl; [done|].
  unfold in_order in Hy.
  destruct reverse;
    [destruct (Z.leb_spec (key y) (key x))|destruct (Z.leb_spec (key x) (key y))];
    done || lia.
Qed.

Lemma list_sort_perm (l : list A) : Party_.list_sort key reverse l ≡ₚ l.
Proof.
  induction l as [|x l IH]; [done|].
  unfold Party_.list_sort in *. simpl. by rewrite sort_insert_perm, IH.
Qed.

Lemma list_sort_sorted (l : list A) :
  StronglySorted (in_order key reverse) (Party_.list_sort key reverse l).
Proof.
  induction l as [|x l IH]; [constructor|].
  by apply sort_insert_sorted.
Qed.

Lemma list_sort_stable (k : Z) (l : list A) :
  filter (λ y, key y = k) (Party_.list_sort key reverse l)
  = filter (λ y, key y = k) l.
Proof.
  induction l as [|x l IH]; [done|].
  unfold Party_.list_sort in *. simpl.
  by rewrite sort_insert_filter, !(filter_cons _ x), IH.
Qed.

Lemma list_sort_of_sorted (l : list A) :
  StronglySorted (in_order key reverse) l → Party_.list_sort key reverse l = l.
Proof.
  induction 1 as [|x l _ IH Hx]; [done|].
  unfold Party_.list_sort in *. simpl. rewrite IH.
  by apply sort_insert_in_order.
Qed.

End sorting.

Lemma first_max_unique {A : Type} (key : A → Z) (l : list A) (i i' : nat)
    (m m' : A) :
  first_max key l i m → first_max key l i' m' → i = i' ∧ m = m'.
Proof.
  intros (Hi & Hall & Hbefore) (Hi' & Hall' & Hbefore').
  destruct (Nat.lt_trichotomy i i') as [Hlt|[->|Hlt]].
  - specialize (Hbefore' i m Hlt Hi). specialize (Hall i' m' Hi'). lia.
  - split; congruence.
  - specialize (Hbefore i' m' Hlt Hi'). specialize (Hall' i m Hi). lia.
Qed.

Lemma list_sort_head_first_max {A : Type} (key : A → Z) (x : A) (l : list A) :
  ∃ i m, head (Party_.list_sort key true (x :: l)) = Some m
         ∧ first_max key (x :: l) i m.
Proof.
  revert x. induction l as [|y l IH]; intros x.
  - exists 0%nat, x. split; [done|]. split; [done|]. split.
    + intros [|j] z Hz; simplify_eq/=. lia.
    + intros j z Hj. lia.
  - destruct (IH y) as (i & m & Hhead & Hi & Hall & Hbefore).
    change (Party_.list_sort key true (x :: y :: l))
      with (Party_.sort_insert key true x (Party_.list_sort key true (y :: l))).
    destruct (Party_.list_sort key true (y :: l)) as [|m0 rest]; [done|].
    simpl in Hhead. injection Hhead as ->. cbn [Party_.sort_insert].
    destruct (Z.leb_spec (key m) (key x)) as [Hle|Hgt].
    + exists 0%nat, x. split; [done|]. split; [done|]. split.
      * intros [|j] z Hz; simplify_eq/=; [lia|].
        specialize (Hall j z Hz). lia.
      * intros j z Hj. lia.
    + exists (S i), m. split; [done|]. split; [done|]. split.
      * intros [|j] z Hz; simplify_eq/=; [lia|]. by apply (Hall j).
      * intros [|j] z Hj Hz; simplify_eq/=; [lia|].
        apply (Hbefore j); [lia|done].
Qed.

(** X12: [sort_by_level] rearranges the members and leaves them in order
    of level, from the highest by default and from the lowest with
    [reverse=False]; in either direction the members of one level keep the
    order they had among themselves.  After the default sort the first
    member is the one [get_highest_level_member] returns (None for the empty
    party), and sorting a second time changes nothing. *)
Theorem sort_by_level_is_a_stable_sort (p : Party) (reverse : bool) :
  members (Party_.sort_by_level p reverse) ≡ₚ members p
  ∧ StronglySorted (in_order get_level reverse)
      (members (Party_.sort_by_level p reverse))
  ∧ (∀ lvl, filter (λ m, get_level m = lvl)
              (members (Party_.sort_by_level p reverse))
            = filter (λ m, get_level m = lvl) (members p))
  ∧ Party_.get_highest_level_member p
    = Ok (head (members (Party_.sort_by_level p true)))
  ∧ Party_.sort_by_level (Party_.sort_by_level p reverse) reverse
    = Party_.sort_by_level p reverse.
Proof.
  unfold Party_.sort_by_level. cbn [members].
  split; [apply list_sort_perm|].
  split; [apply list_sort_sorted|].
  split; [intros lvl; apply list_sort_stable|].
  split.
  - unfold Party_.get_highest_level_member.
    destruct (members p) as [|first rest]; [done|].
    destruct (list_sort_head_first_max get_level first rest)
      as (i & m & -> & Hm).
    destruct (max_by_first_max get_level rest [first] 0 first) as [i' Hi'].
    + split; [done|]. split.
      * intros [|j] y Hj; simplify_eq/=. lia.
      * intros j y Hlt. lia.
    + destruct (first_max_unique _ _ _ _ _ _ Hm Hi') as [_ ->]. done.
  - f_equal. apply list_sort_of_sorted, list_sort_sorted.
Qed.


(** ** Shuffling a party *)

(** X13: with a generator whose [shuffle] rearranges, [shuffle_members]
    returns a party with the same members in some order: the size, the
    numbers of living and dead members, the total hit points of the living,
    the total of the maxima and the average level are what they were. *)
Theorem shuffle_members_keeps_the_party
    {G : Type} `{RandomLaws G} (p : Party) (g : G) :
  ∃ p' g',
    Party_.shuffle_members p g = Ok (p', g')
    ∧ members p' ≡ₚ members p
    ∧ Party_.get_size p' = Party_.get_size p
    ∧ Party_.num_living p' = Party_.num_living p
    ∧ Party_.num_dead p' = Party_.num_dead p
    ∧ Party_.get_total_hit_points p' = Party_.get_total_hit_points p
    ∧ Party_.get_total_max_hit_points p' = Party_.get_total_max_hit_points p
    ∧ Party_.get_average_level p' = Party_.get_average_level p.
Proof.
  destruct (shuffle_spec (members p) g) as (l & g' & Hs & Hperm).
  exists (mkParty l), g'.
  split; [unfold Party_.shuffle_members; by rewrite (bind_Ok _ _ _ _ _ Hs)|].
  unfold Party_.get_size, Party_.num_living, Party_.num_dead,
    Party_.get_total_hit_points, Party_.get_total_max_hit_points,
    Party_.get_average_level, Party_.get_living_members,
    Party_.get_dead_members.
  cbn [members].
  split; [done|].
  split; [by rewrite Hperm|].
  split; [by rewrite Hperm|].
  split; [by rewrite Hperm|].
  split; [apply foldl_add_perm; by rewrite Hperm|].
  split; [apply foldl_add_perm; by rewrite Hperm|].
  rewrite (foldl_add_perm (get_level <$> l) (get_level <$> members p))
    by (by rewrite Hperm).
  rewrite (Permutation_length Hperm).
  destruct l as [|x l], (members p) as [|y ms]; try done.
  by apply Permutation_nil_cons in Hperm.
Qed.

Lemma shuffle_members_keeps_the_party_witness :
  ∃ p' g',
    Party_.shuffle_members
      (mkParty [fighter "Orc" 5; fighter "Elf" 0; fighter "Dwarf" 6]) [3; 8]
    = Ok (p', g')
    ∧ members p' ≡ₚ [fighter "Orc" 5; fighter "Elf" 0; fighter "Dwarf" 6]
    ∧ Party_.get_size p'
      = Party_.get_size
          (mkParty [fighter "Orc" 5; fighter "Elf" 0; fighter "Dwarf" 6])
    ∧ Party_.num_living p'
      = Party_.num_living
          (mkParty [fighter "Orc" 5; fighter "Elf" 0; fighter "Dwarf" 6])
    ∧ Party_.num_dead p'
      = Party_.num_dead
          (mkParty [fighter "Orc" 5; fighter "Elf" 0; fighter "Dwarf" 6])
    ∧ Party_.get_total_hit_points p'
      = Party_.get_total_hit_points
          (mkParty [fighter "Orc" 5; fighter "Elf" 0; fighter "Dwarf" 6])
    ∧ Party_.get_total_max_hit_points p'
      = Party_.get_total_max_hit_points
          (mkParty [fighter "Orc" 5; fighter "Elf" 0; fighter "Dwarf" 6])
    ∧ Party_.get_average_level p'
      = Party_.get_average_level
          (mkParty [fighter "Orc" 5; fighter "Elf" 0; fighter "Dwarf" 6]).
Proof.
  exact (shuffle_members_keeps_the_party
           (mkParty [fighter "Orc" 5; fighter "Elf" 0; fighter "Dwarf" 6])
           [3; 8]).
Defined.

(** ** The state of a party *)

Lemma foldl_add_positive (l : list Z) :
  Forall (λ x, 1 ≤ x) l → Z.of_nat (length l) ≤ foldl Z.add 0 l.
Proof.
  induction 1 as [|x l Hx _ IH]; simpl; [lia|].
  rewrite (foldl_add_shift l (0 + x)). lia.
Qed.

Lemma living_hit_points_positive (l : list Combatant) :
  Forall (λ x, 1 ≤ x) (get_hit_points <$> filter (λ m, is_alive m) l).
Proof.
  apply Forall_fmap, Forall_forall. intros x Hx.
  apply list_elem_of_filter in Hx as [Ha _].
  apply is_alive_hit_points in Ha. simpl. lia.
Qed.

Lemma filter_alive_twice (l : list Combatant) :
  filter (λ m, is_alive m) (filter (λ m, is_alive m) l)
  = filter (λ m, is_alive m) l.
Proof.
  apply all_alive_all_living, Forall_forall. intros x Hx.
  by apply list_elem_of_filter in Hx as [Ha _].
Qed.

(** X14: a party is [all_dead] exactly when it is not [any_alive], which
    is when every member is dead (the empty party included); it is
    [any_alive] exactly when its total hit points are above 0, and the total,
    which counts the living only, is at least their number.  Removing the
    fallen keeps the total hit points and the living, leaves no dead to
    bring out, and a second removal changes nothing. *)
Theorem the_queries_on_a_party_agree (p : Party) :
  Party_.all_dead p = negb (Party_.any_alive p)
  ∧ (Party_.all_dead p ↔ Forall (λ m, is_dead m) (members p))
  ∧ (Party_.any_alive p ↔ ∃ m, m ∈ members p ∧ is_alive m)
  ∧ (Party_.any_alive p ↔ 0 < Party_.get_total_hit_points p)
  ∧ Party_.num_living p ≤ Party_.get_total_hit_points p
  ∧ members (Party_.clear_fallen p) = Party_.get_living_members p
  ∧ Party_.get_total_hit_points (Party_.clear_fallen p)
    = Party_.get_total_hit_points p
  ∧ (Party_.bring_out_your_dead (Party_.clear_fallen p)).1 = []
  ∧ Party_.clear_fallen (Party_.clear_fallen p) = Party_.clear_fallen p.
Proof.
  unfold Party_.all_dead, Party_.any_alive, Party_.num_living,
    Party_.get_total_hit_points, Party_.clear_fallen,
    Party_.bring_out_your_dead, Party_.get_living_members,
    Party_.get_dead_members.
  cbn [fst snd members].
  set (l := members p).
  pose proof (foldl_add_positive _ (living_hit_points_positive l)) as Hsum.
  rewrite length_fmap in Hsum.
  split.
  { destruct (Z.eqb_spec (Z.of_nat (length (filter (λ m, is_alive m) l))) 0);
      destruct (Z.gtb_spec (Z.of_nat (length (filter (λ m, is_alive m) l))) 0);
      done || lia. }
  split.
  { rewrite Is_true_true, Z.eqb_eq. split.
    - intros Hn. apply Forall_forall. intros x Hx.
      apply is_dead_not_alive. intros Ha.
      assert (x ∈ filter (λ m, is_alive m) l) as Hin
        by (by apply list_elem_of_filter).
      destruct (filter (λ m, is_alive m) l); [by apply elem_of_nil in Hin|].
      simpl in Hn. lia.
    - intros Hd.
      destruct (filter (λ m, is_alive m) l) as [|x l'] eqn:Hf; [done|].
      assert (x ∈ filter (λ m, is_alive m) l) as Hin by (rewrite Hf; left).
      apply list_elem_of_filter in Hin as [Ha Hin].
      rewrite Forall_forall in Hd. specialize (Hd x Hin).
      by apply is_dead_not_alive in Hd. }
  split.
  { rewrite Is_true_true, Z.gtb_gt. split.
    - intros Hn.
      destruct (filter (λ m, is_alive m) l) as [|x l'] eqn:Hf; [simpl in Hn; lia|].
      assert (x ∈ filter (λ m, is_alive m) l) as Hin by (rewrite Hf; left).
      apply list_elem_of_filter in Hin as [Ha Hin]. by exists x.
    - intros (x & Hin & Ha).
      assert (x ∈ filter (λ m, is_alive m) l) as Hin'
        by (by apply list_elem_of_filter).
      destruct (filter (λ m, is_alive m) l); [by apply elem_of_nil in Hin'|].
      simpl. lia. }
  split.
  { rewrite Is_true_true, Z.gtb_gt. split; [lia|].
    intros Hpos.
    destruct (filter (λ m, is_alive m) l); [simpl in Hpos; lia|simpl; lia]. }
  split; [done|].
  split; [done|].
  split; [by rewrite filter_alive_twice|].
  split.
  { apply all_alive_no_dead, Forall_forall. intros x Hx.
    by apply list_elem_of_filter in Hx as [Ha _]. }
  by rewrite filter_alive_twice.
Qed.


(** ** Recruiting *)

Section recruits.
Context {G : Type} `{RandomLaws G}.

Lemma new_fighter_recruit (self : Arena) (lvl : Z) (g : G) :
  ∃ c g', Arena_.new_fighter self lvl g = Ok (c, g') ∧ recruit self lvl c.
Proof.
  unfold Arena_.new_fighter.
  destruct (Character_init_fresh ("Fighter_" +:+ pretty (arena_id self)) lvl
              FIGHTER g)
    as (c0 & g0 & Hr0 & Hab & Hname & Hlvl & Hcls & Harmor & Hshield & Hweapon
        & _ & Hac & Hhd & Hhp & Hrange).
  rewrite (bind_Ok _ _ _ _ _ Hr0).
  destruct (random_normal_returns g0) as (al & g1 & Hr1).
  rewrite (bind_Ok _ _ _ _ _ Hr1).
  eexists _, g1. split; [reflexivity|].
  assert (∀ x w, derived_armor_class (Character_.set_weapon x w)
                 = derived_armor_class x) as Hdw by (by intros []).
  assert (∀ x w, super (Character_.set_weapon x w) = super x) as Hsw
    by (by intros []).
  unfold recruit.
  split; [by destruct c0 as [m]; destruct m; destruct (base_armor_type self)|].
  split; [by destruct c0 as [m]; destruct m; destruct (base_armor_type self)|].
  split; [by destruct c0 as [m]; destruct m; destruct (base_armor_type self)|].
  split; [by destruct (base_armor_type self)|].
  split; [by destruct c0 as [m]; destruct m; destruct (base_armor_type self)|].
  split; [by destruct c0 as [m]; destruct m; destruct (base_armor_type self)|].
  split.
  { rewrite Hsw, Hdw. destruct (base_armor_type self) as [t|].
    - apply set_armor_derived.
    - by destruct c0 as [m]; destruct m. }
  split; [by destruct c0 as [m]; destruct m; destruct (base_armor_type self)|].
  split; [by destruct c0 as [m]; destruct m; destruct (base_armor_type self)|].
  split.
  { replace (hit_points (super (Character_.set_weapon _ _)))
      with (hit_points (super c0)); [done|].
    by destruct c0 as [m]; destruct m; destruct (base_armor_type self). }
  intros a.
  replace (Character_.get_ability_score (Character_.set_weapon _ _) a)
    with (Character_.get_ability_score c0 a); [apply Hab|].
  by destruct c0 as [m]; destruct m; destruct (base_armor_type self).
Qed.

Lemma recruit_with_fighter_list (self : Arena) (p : Party) (lvl : Z)
    (c : Character) :
  recruit (with_fighter_list p self) lvl c ↔ recruit self lvl c.
Proof. by destruct self. Qed.

Lemma recruit_new_fighters_recruits (n : nat) (self : Arena) (g : G) :
  Z.to_nat (num_fighters self - Party_.get_size (fighter_list self)) = n →
  ∃ recruits g',
    (∀ fuel, (n ≤ fuel)%nat →
       Arena_.recruit_new_fighters fuel self g
       = Ok (with_fighter_list
               (mkParty (members (fighter_list self) ++ (ACharacter <$> recruits)))
               self, g'))
    ∧ length recruits = n
    ∧ Forall (recruit self (start_level self)) recruits
    ∧ (n = 0%nat → g' = g).
Proof.
  revert self g. induction n as [|n IH]; intros self g Hn.
  - exists [], g. split; [|done]. intros fuel _.
    rewrite recruit_new_fighters_unfold.
    destruct (Z.ltb_spec (Party_.get_size (fighter_list self)) (num_fighters self));
      [lia|].
    simpl. rewrite app_nil_r. by destruct self as [? ? ? ? ? ? ? ? ? ? []].
  - destruct (new_fighter_recruit self (start_level self) g) as (c & g1 & Hc & Hrec).
    destruct (IH (with_fighter_list
                    (Party_.add_member (fighter_list self) (ACharacter c)) self) g1)
      as (recruits & g' & Hrun & Hlen & Hfresh & _).
    { unfold Party_.get_size in *.
      replace (num_fighters (with_fighter_list _ self)) with (num_fighters self)
        by (by destruct self).
      replace (fighter_list (with_fighter_list
                 (Party_.add_member (fighter_list self) (ACharacter c)) self))
        with (Party_.add_member (fighter_list self) (ACharacter c))
        by (by destruct self).
      simpl. rewrite length_app. simpl. lia. }
    exists (c :: recruits), g'.
    split.
    { intros [|fuel] Hfuel; [lia|].
      rewrite recruit_new_fighters_unfold.
      destruct (Z.ltb_spec (Party_.get_size (fighter_list self)) (num_fighters self));
        [|lia].
      rewrite (bind_Ok _ _ _ _ _ Hc), Hrun by lia.
      destruct self as [? ? ? ? ? ? ? ? ? ? []]. simpl.
      by rewrite <- app_assoc. }
    split; [simpl; by rewrite Hlen|].
    split; [|done].
    constructor; [done|].
    eapply Forall_impl; [exact Hfresh|]. intros x.
    replace (start_level (with_fighter_list _ self)) with (start_level self)
      by (by destruct self).
    apply recruit_with_fighter_list.
Qed.

End recruits.

(** X15: with a generator whose [randint] stays in its range,
    [recruit_new_fighters] returns (with fuel for every missing fighter): the
    fighters already listed stay where they were, in their order, followed by
    as many recruits as were missing, so that the list has the larger of its
    former size and [num_fighters] members; every recruit is a Character made
    by [new_fighter] at the arena's start level, with the arena's base armor
    and a plain sword.  A list that is already full is left alone and draws
    nothing from the generator. *)
Theorem recruiting_fills_the_list
    {G : Type} `{RandomLaws G} (self : Arena) (g : G) :
  ∃ recruits g',
    (∀ fuel,
       (Z.to_nat (num_fighters self - Party_.get_size (fighter_list self))
        ≤ fuel)%nat →
       Arena_.recruit_new_fighters fuel self g
       = Ok (with_fighter_list
               (mkParty (members (fighter_list self) ++ (ACharacter <$> recruits)))
               self, g'))
    ∧ Z.of_nat (length recruits)
      = Z.max 0 (num_fighters self - Party_.get_size (fighter_list self))
    ∧ Party_.get_size
        (mkParty (members (fighter_list self) ++ (ACharacter <$> recruits)))
      = Z.max (Party_.get_size (fighter_list self)) (num_fighters self)
    ∧ Forall (recruit self (start_level self)) recruits
    ∧ (num_fighters self ≤ Party_.get_size (fighter_list self) →
       recruits = [] ∧ g' = g).
Proof.
  destruct (recruit_new_fighters_recruits _ self g eq_refl)
    as (recruits & g' & Hrun & Hlen & Hrec & Hnone).
  exists recruits, g'. split; [exact Hrun|].
  split; [lia|].
  split.
  { unfold Party_.get_size in *. cbn [members].
    rewrite length_app, length_fmap. lia. }
  split; [done|].
  intros Hfull. split; [|apply Hnone; lia].
  destruct recruits; [done|]. simpl in Hlen. lia.
Qed.

Lemma recruiting_fills_the_list_witness :
  ∃ recruits g',
    (∀ fuel,
       (Z.to_nat
          (num_fighters (configured 7 small_config)
           - Party_.get_size (fighter_list (configured 7 small_config)))
        ≤ fuel)%nat →
       Arena_.recruit_new_fighters fuel (configured 7 small_config) [2; 3; 11; 6]
       = Ok (with_fighter_list
               (mkParty (members (fighter_list (configured 7 small_config))
                         ++ (ACharacter <$> recruits)))
               (configured 7 small_config), g'))
    ∧ Z.of_nat (length recruits)
      = Z.max 0 (num_fighters (configured 7 small_config)
                 - Party_.get_size (fighter_list (configured 7 small_config)))
    ∧ Party_.get_size
        (mkParty (members (fighter_list (configured 7 small_config))
                  ++ (ACharacter <$> recruits)))
      = Z.max (Party_.get_size (fighter_list (configured 7 small_config)))
          (num_fighters (configured 7 small_config))
    ∧ Forall (recruit (configured 7 small_config)
                (start_level (configured 7 small_config))) recruits
    ∧ (num_fighters (configured 7 small_config)
       ≤ Party_.get_size (fighter_list (configured 7 small_config)) →
       recruits = [] ∧ g' = [2; 3; 11; 6]).
Proof.
  exact (recruiting_fills_the_list (configured 7 small_config) [2; 3; 11; 6]).
Defined.


(** ** How many fall in a cycle *)

Lemma count_the_fallen (c : nat) :
  ∀ l : list Combatant,
  (∀ k, (k < c)%nat →
     ∃ x y, l !! (2 * k)%nat = Some x ∧ l !! (2 * k + 1)%nat = Some y
            ∧ exactly_one_standing x y) →
  (∀ j x, (2 * c ≤ j)%nat → l !! j = Some x → is_alive x) →
  length (filter (λ m, is_dead m) l) = c
  ∧ (length (filter (λ m, is_alive m) l) + c)%nat = length l.
Proof.
  induction c as [|c IH]; intros l Hpairs Hrest.
  - assert (Forall (λ x, is_alive x) l) as Hall.
    { apply Forall_lookup. intros j x Hj. apply (Hrest j); [lia|done]. }
    rewrite (all_alive_no_dead _ Hall), (all_alive_all_living _ Hall).
    split; [done|lia].
  - destruct (Hpairs 0%nat ltac:(lia)) as (x & y & Hx & Hy & Hone).
    destruct l as [|x0 [|y0 l]]; [done..|].
    change (Some x0 = Some x) in Hx. change (Some y0 = Some y) in Hy.
    injection Hx as ->. injection Hy as ->.
    destruct (IH l) as [Hdead Halive].
    { intros k Hk. destruct (Hpairs (S k) ltac:(lia)) as (x' & y' & Hx' & Hy' & H').
      replace (2 * S k)%nat with (S (S (2 * k))) in Hx' by lia.
      replace (2 * S k + 1)%nat with (S (S (2 * k + 1))) in Hy' by lia.
      exists x', y'. split; [exact Hx'|]. split; [exact Hy'|done]. }
    { intros j z Hj Hz. apply (Hrest (S (S j))); [lia|done]. }
    rewrite !(filter_cons (λ m, Is_true (is_dead m))),
      !(filter_cons (λ m, Is_true (is_alive m))).
    destruct Hone as [[Ha Hd]|[Hd Ha]].
    + pose proof (proj1 (is_dead_not_alive y) Hd) as Hny.
      pose proof (λ Hd', proj1 (is_dead_not_alive x) Hd' Ha) as Hnx.
      rewrite (decide_False (P := Is_true (is_dead x))),
        (decide_True (P := Is_true (is_dead y))),
        (decide_True (P := Is_true (is_alive x))),
        (decide_False (P := Is_true (is_alive y))) by done.
      simpl. lia.
    + pose proof (proj1 (is_dead_not_alive x) Hd) as Hnx.
      pose proof (λ Hd', proj1 (is_dead_not_alive y) Hd' Ha) as Hny.
      rewrite (decide_True (P := Is_true (is_dead x))),
        (decide_False (P := Is_true (is_dead y))),
        (decide_False (P := Is_true (is_alive x))),
        (decide_True (P := Is_true (is_alive y))) by done.
      simpl. lia.
Qed.

Section fallen.
Context {G : Type} `{RandomLaws G}.

Lemma duels_fell (n0 c : nat) :
  ∀ (a : nat) (ms : list Combatant) (log : list Encounter) (g : G),
  (2 * (a + c) ≤ length ms)%nat →
  Forall (λ m, get_hit_points m ≤ Z.of_nat n0) ms →
  (∀ j x, (2 * a ≤ j)%nat → ms !! j = Some x → is_alive x) →
  ∃ ms' log' g',
    (∀ fuel, (n0 ≤ fuel)%nat →
       for_each ((λ k : nat, 0 + 2 * Z.of_nat k) <$> seq a c)
         (Arena_.duel fuel) (ms, log) g
       = Ok ((ms', log ++ log'), g'))
    ∧ length ms' = length ms
    ∧ length log' = c
    ∧ (∀ j, (j < 2 * a ∨ 2 * (a + c) ≤ j)%nat → ms' !! j = ms !! j)
    ∧ (∀ k, (a ≤ k < a + c)%nat →
         ∃ x y, ms' !! (2 * k)%nat = Some x ∧ ms' !! (2 * k + 1)%nat = Some y
                ∧ exactly_one_standing x y).
Proof.
  induction c as [|c IH]; intros a ms log g Hlen Hhp Halive.
  - exists ms, [], g. split; [|split; [done|split; [done|split; [done|]]]].
    + intros fuel _. simpl. by rewrite app_nil_r.
    + intros k Hk. lia.
  - destruct (lookup_lt_is_Some_2 ms (2 * a)) as [f1 Hf1]; [lia|].
    destruct (lookup_lt_is_Some_2 ms (2 * a + 1)) as [f2 Hf2]; [lia|].
    destruct (combat_loop_spec n0 f1 f2 [] g)
      as (f1' & f2' & blows & g1 & Hrun & _ & Hrange & _ & Hafter & Hone).
    { eapply Forall_lookup_1 in Hhp; [|exact Hf1]. done. }
    specialize (Hone (Halive (2 * a + 1)%nat f2 ltac:(lia) Hf2)).
    destruct (worn_down_after_blows blows (f1, f2)) as [[_ Hw1] [_ Hw2]].
    { eapply Forall_impl; [exact Hrange|]. simpl. lia. }
    rewrite Hafter in Hw1, Hw2. simpl in Hw1, Hw2.
    set (ms1 := <[(2 * a + 1)%nat := f2']> (<[(2 * a)%nat := f1']> ms)).
    destruct (IH (S a) ms1 (log ++ [mkEncounter (2 * Z.of_nat a)
                                      (2 * Z.of_nat a + 1) blows]) g1)
      as (ms' & log' & g' & Hrest & Hlen' & Hlog' & Hsame & Hpairs).
    { unfold ms1. rewrite !length_insert. lia. }
    { unfold ms1. apply Forall_insert; [apply Forall_insert; [done|]|].
      - eapply Forall_lookup_1 in Hhp; [|exact Hf1]. simpl in Hhp. lia.
      - eapply Forall_lookup_1 in Hhp; [|exact Hf2]. simpl in Hhp. lia. }
    { intros j x Hj Hx. unfold ms1 in Hx.
      rewrite !list_lookup_insert_ne in Hx by lia. apply (Halive j); [lia|done]. }
    exists ms', (mkEncounter (2 * Z.of_nat a) (2 * Z.of_nat a + 1) blows :: log'), g'.
    split.
    { intros fuel Hfuel. cbn [seq fmap list_fmap for_each].
      assert (0 + 2 * Z.of_nat a = Z.of_nat (2 * a)) as Hi by lia.
      assert (0 + 2 * Z.of_nat a + 1 = Z.of_nat (2 * a + 1)) as Hi1 by lia.
      unfold Arena_.duel at 1. rewrite Hi1, Hi, !getitem_lookup, Hf1, Hf2.
      unfold Arena_._simple_combat.
      erewrite bind_Ok; [|erewrite bind_Ok; [|apply Hrun, Hfuel]; reflexivity].
      rewrite !Nat2Z.id.
      replace (Z.of_nat (2 * a)) with (2 * Z.of_nat a) by lia.
      replace (Z.of_nat (2 * a + 1)) with (2 * Z.of_nat a + 1) by lia.
      fold ms1. change ([] ++ blows) with blows. rewrite (Hrest fuel Hfuel).
      by rewrite <- app_assoc. }
    split; [rewrite Hlen'; unfold ms1; by rewrite !length_insert|].
    split; [simpl; by rewrite Hlog'|].
    split.
    { intros j Hj. rewrite Hsame by lia. unfold ms1.
      rewrite !list_lookup_insert_ne by lia. done. }
    intros k Hk. destruct (decide (k = a)) as [->|Hne].
    + exists f1', f2'. rewrite !Hsame by lia. unfold ms1.
      split; [|split; [|done]].
      * rewrite list_lookup_insert_ne by lia.
        apply list_lookup_insert_eq. lia.
      * apply list_lookup_insert_eq. rewrite length_insert. lia.
    + apply Hpairs. lia.
Qed.

(** The duel phase over fighters that are all alive: in a simulation of man
    against man one of every pair falls. *)
Lemma fight_duels_fell (self : Arena) (g : G) :
  Forall (λ m, is_alive m) (members (fighter_list self)) →
  ∃ (fuel0 : nat) ms' log g',
    (∀ fuel, (fuel0 ≤ fuel)%nat →
       Arena_.fight_duels fuel self g
       = Ok ((with_fighter_list (mkParty ms') self, log), g'))
    ∧ length ms' = length (members (fighter_list self))
    ∧ length log
      = (if fight_man_vs_monster self then 0
         else length (members (fighter_list self)) `div` 2)%nat
    ∧ length (filter (λ m, is_dead m) ms') = length log
    ∧ (length (filter (λ m, is_alive m) ms') + length log)%nat = length ms'.
Proof.
  intros Halive.
  unfold Arena_.fight_duels. destruct (fight_man_vs_monster self) eqn:Hmode.
  - exists 0%nat, (members (fighter_list self)), [], g.
    rewrite (all_alive_no_dead _ Halive), (all_alive_all_living _ Halive).
    split; [|split; [done|split; [done|split; [done|simpl; lia]]]].
    intros fuel _. unfold Arena_.fight_duels_man_vs_monster.
    by destruct self as [? ? ? ? ? ? ? ? ? ? []].
  - destruct (hit_points_bounded (members (fighter_list self))) as [n0 Hn0].
    pose proof (Nat.Div0.mul_div_le (length (members (fighter_list self))) 2) as Hle.
    pose proof (Nat.mod_upper_bound (length (members (fighter_list self))) 2
                  ltac:(lia)) as Hmod.
    pose proof (Nat.div_mod_eq (length (members (fighter_list self))) 2) as Hdm.
    destruct (duels_fell n0 (length (members (fighter_list self)) `div` 2) 0
                (members (fighter_list self)) [] g)
      as (ms' & log & g' & Hrun & Hlen & Hlog & Hsame & Hpairs); [lia|done|..].
    { intros j x _ Hj. eapply Forall_lookup_1 in Halive; [|exact Hj]. done. }
    destruct (count_the_fallen (length (members (fighter_list self)) `div` 2) ms')
      as [Hdead Hliving].
    { intros k Hk. apply Hpairs. lia. }
    { intros j x Hj Hx. rewrite Hsame in Hx by lia.
      eapply Forall_lookup_1 in Halive; [|exact Hx]. done. }
    exists n0, ms', log, g'.
    split; [|rewrite Hlog; by split].
    intros fuel Hfuel. unfold Arena_.fight_duels_man_vs_man.
    rewrite py_range_duels. erewrite bind_Ok; [|apply Hrun, Hfuel]. reflexivity.
Qed.

End fallen.


Lemma with_fighter_list_twice (p q : Party) (self : Arena) :
  with_fighter_list p (with_fighter_list q self) = with_fighter_list p self.
Proof. by destruct self. Qed.

Lemma recruit_is_alive (self : Arena) (lvl : Z) (c : Character) :
  1 ≤ lvl → recruit self lvl c → is_alive (ACharacter c).
Proof.
  intros Hlvl (_ & _ & _ & _ & _ & _ & _ & _ & _ & Hhp & _).
  apply is_alive_hit_points. unfold get_hit_points. simpl. lia.
Qed.

(** A cycle over fighters that are all alive: the list is filled, shuffled,
    and the duels fell one of every pair. *)
Lemma run_one_cycle_counts
    {G : Type} `{RandomLaws G} (self : Arena) (g : G) :
  Forall (λ m, is_alive m) (members (fighter_list self)) →
  (Party_.get_size (fighter_list self) < num_fighters self →
   1 ≤ start_level self) →
  ∃ (fuel0 : nat) (p' : Party) (log : CycleLog) (g' : G),
    (∀ fuel, (fuel0 ≤ fuel)%nat →
       Arena_.run_one_cycle fuel self g
       = Ok ((with_fighter_list p' self, log), g'))
    ∧ survivors log = members p'
    ∧ Z.of_nat (length (shuffled log))
      = Z.max (Party_.get_size (fighter_list self)) (num_fighters self)
    ∧ Z.of_nat (length (encounters log))
      = (if fight_man_vs_monster self then 0
         else Z.max (Party_.get_size (fighter_list self)) (num_fighters self)
              `div` 2)
    ∧ length (fallen log) = length (encounters log)
    ∧ Party_.get_size p'
      = Z.of_nat (length (shuffled log)) - Z.of_nat (length (encounters log)).
Proof.
  intros Halive Hlevel.
  destruct (recruit_new_fighters_recruits _ self g eq_refl)
    as (recruits & g1 & Hrecruit & Hlen & Hrec & _).
  set (ms1 := members (fighter_list self) ++ (ACharacter <$> recruits)) in *.
  assert (Forall (λ m, is_alive m) ms1) as Hms1.
  { apply Forall_app. split; [done|].
    apply Forall_fmap, Forall_forall. intros c Hin.
    rewrite Forall_forall in Hrec. simpl.
    eapply recruit_is_alive; [|apply Hrec, Hin]. apply Hlevel.
    destruct recruits; [by apply elem_of_nil in Hin|].
    simpl in Hlen. lia. }
  destruct (shuffle_spec ms1 g1) as (ms2 & g2 & Hshuffle & Hperm).
  assert (Forall (λ m, is_alive m) ms2) as Hms2 by (by rewrite Hperm).
  destruct (fight_duels_fell (with_fighter_list (mkParty ms2)
                                (with_fighter_list (mkParty ms1) self)) g2)
    as (n3 & ms3 & encs & g3 & Hduels & Hlen3 & Hencs & Hdead & Hliving).
  { by destruct self. }
  replace (members (fighter_list (with_fighter_list (mkParty ms2)
             (with_fighter_list (mkParty ms1) self)))) with ms2 in *
    by (by destruct self).
  replace (fight_man_vs_monster (with_fighter_list (mkParty ms2)
             (with_fighter_list (mkParty ms1) self)))
    with (fight_man_vs_monster self) in * by (by destruct self).
  rewrite !with_fighter_list_twice in Hduels.
  assert (Z.of_nat (length ms2)
          = Z.max (Party_.get_size (fighter_list self)) (num_fighters self))
    as Hsize.
  { rewrite (Permutation_length Hperm). unfold ms1, Party_.get_size in *.
    rewrite length_app, length_fmap. lia. }
  exists (Z.to_nat (num_fighters self - Party_.get_size (fighter_list self))
          `max` n3)%nat,
    (Party_.heal_all
       (Party_.clear_fallen (Party_.bring_out_your_dead (mkParty ms3)).2)),
    (mkCycleLog ms2 encs (Party_.bring_out_your_dead (mkParty ms3)).1
       (members (Party_.heal_all
          (Party_.clear_fallen (Party_.bring_out_your_dead (mkParty ms3)).2)))),
    g3.
  split.
  { intros fuel Hfuel. unfold Arena_.run_one_cycle.
    rewrite (bind_Ok _ _ _ _ _ (Hrecruit fuel ltac:(lia))).
    unfold Party_.shuffle_members.
    erewrite bind_Ok; [|erewrite bind_Ok; [|by destruct self; exact Hshuffle];
                        reflexivity].
    replace (members (fighter_list (with_fighter_list (mkParty ms1) self)))
      with ms1 by (by destruct self).
    rewrite (bind_Ok _ _ _ _ _ (Hduels fuel ltac:(lia))).
    by destruct self. }
  cbn [survivors shuffled encounters fallen].
  split; [done|].
  split; [done|].
  split.
  { rewrite Hencs, <- Hsize. destruct (fight_man_vs_monster self); [done|].
    by rewrite Nat2Z.inj_div. }
  split; [done|].
  unfold Party_.get_size, Party_.heal_all, Party_.clear_fallen,
    Party_.bring_out_your_dead, Party_.get_living_members.
  cbn [fst snd members]. rewrite length_fmap, filter_alive_twice. lia.
Qed.

(** X16: a cycle that starts with every listed fighter alive (and a start
    level of at least 1 if any is to be recruited) returns, with enough fuel:
    the arena is changed in its fighter list only; the shuffled list has the
    larger of the former size and [num_fighters] members; in a simulation of
    man against man half of them (rounded down) meet the other half, as many
    fall as there are encounters, and the list after the cycle holds the
    others; in a simulation of man against monster nobody fights or falls. *)
Theorem a_cycle_fells_one_of_every_pair
    {G : Type} `{RandomLaws G} (self : Arena) (g : G) :
  Forall (λ m, is_alive m) (members (fighter_list self)) →
  (Party_.get_size (fighter_list self) < num_fighters self →
   1 ≤ start_level self) →
  ∃ (fuel0 : nat) (p' : Party) (log : CycleLog) (g' : G),
    (∀ fuel, (fuel0 ≤ fuel)%nat →
       Arena_.run_one_cycle fuel self g
       = Ok ((with_fighter_list p' self, log), g'))
    ∧ survivors log = members p'
    ∧ Z.of_nat (length (shuffled log))
      = Z.max (Party_.get_size (fighter_list self)) (num_fighters self)
    ∧ Z.of_nat (length (encounters log))
      = (if fight_man_vs_monster self then 0
         else Z.max (Party_.get_size (fighter_list self)) (num_fighters self)
              `div` 2)
    ∧ length (fallen log) = length (encounters log)
    ∧ Party_.get_size p'
      = Z.of_nat (length (shuffled log)) - Z.of_nat (length (encounters log)).
Proof. apply run_one_cycle_counts. Qed.

Lemma a_cycle_fells_one_of_every_pair_witness :
  ∃ (fuel0 : nat) (p' : Party) (log : CycleLog) (g' : list Z),
    (∀ fuel, (fuel0 ≤ fuel)%nat →
       Arena_.run_one_cycle fuel
         (arena_of [fighter "Orc" 5; fighter "Elf" 7; fighter "Dwarf" 6])
         [2; 3; 11; 6]
       = Ok ((with_fighter_list p'
                (arena_of [fighter "Orc" 5; fighter "Elf" 7; fighter "Dwarf" 6]),
              log), g'))
    ∧ survivors log = members p'
    ∧ Z.of_nat (length (shuffled log))
      = Z.max (Party_.get_size
                 (fighter_list
                    (arena_of [fighter "Orc" 5; fighter "Elf" 7;
                               fighter "Dwarf" 6])))
          (num_fighters
             (arena_of [fighter "Orc" 5; fighter "Elf" 7; fighter "Dwarf" 6]))
    ∧ Z.of_nat (length (encounters log))
      = (if fight_man_vs_monster
              (arena_of [fighter "Orc" 5; fighter "Elf" 7; fighter "Dwarf" 6])
         then 0
         else Z.max (Party_.get_size
                       (fighter_list
                          (arena_of [fighter "Orc" 5; fighter "Elf" 7;
                                     fighter "Dwarf" 6])))
                (num_fighters
                   (arena_of [fighter "Orc" 5; fighter "Elf" 7;
                              fighter "Dwarf" 6]))
              `div` 2)
    ∧ length (fallen log) = length (encounters log)
    ∧ Party_.get_size p'
      = Z.of_nat (length (shuffled log)) - Z.of_nat (length (encounters log)).
Proof.
  apply (a_cycle_fells_one_of_every_pair
           (arena_of [fighter "Orc" 5; fighter "Elf" 7; fighter "Dwarf" 6])
           [2; 3; 11; 6]).
  - repeat constructor.
  - intros _. vm_compute. discriminate.
Defined.


(** ** The population over a simulation *)



Section population.
Context {G : Type} `{RandomLaws G}.
Variable self : Arena.

(** The arena during the run: the configuration of [self] around a list of
    healed fighters that is not longer than [num_fighters]. *)
#[local] Abbreviation steady a :=
  (num_fighters a = num_fighters self
   ∧ start_level a = start_level self
   ∧ fight_man_vs_monster a = fight_man_vs_monster self
   ∧ all_healed (fighter_list a)
   ∧ Party_.get_size (fighter_list a) ≤ num_fighters self).

#[local] Abbreviation left_standing :=
  (num_fighters self
   - (if fight_man_vs_monster self then 0 else num_fighters self `div` 2)).

#[local] Abbreviation cycle_counts c :=
  (Z.of_nat (length (shuffled c)) = num_fighters self
   ∧ Z.of_nat (length (fallen c))
     = (if fight_man_vs_monster self then 0 else num_fighters self `div` 2)
   ∧ Z.of_nat (length (survivors c)) = left_standing).



End population.





(** ** Weapons in hand *)

(** X18: [draw_best_weapon] never leaves the hand empty: it keeps the
    weapon that is held and otherwise takes a plain sword, so drawing twice is
    drawing once; it touches nothing but the weapon.  [sheathe_weapon] gives
    the weapon up: drawing after sheathing always yields the plain sword,
    whatever was held before.  A sword made with a magic bonus stores the
    bonus capped at 5 and is magical exactly when the bonus asked for is
    positive. *)
Theorem a_sheathed_weapon_is_not_drawn_again (c : Character) (magic_bonus : Z) :
  (match weapon_in_hand c with
   | Some w => Character_.draw_best_weapon c = c
   | None => weapon_in_hand (Character_.draw_best_weapon c)
             = Some (create_sword 0)
   end)
  ∧ is_Some (weapon_in_hand (Character_.draw_best_weapon c))
  ∧ Character_.draw_best_weapon (Character_.draw_best_weapon c)
    = Character_.draw_best_weapon c
  ∧ with_weapon_in_hand (weapon_in_hand c) (Character_.draw_best_weapon c) = c
  ∧ weapon_in_hand (Character_.draw_best_weapon (Character_.sheathe_weapon c))
    = Some (create_sword 0)
  ∧ Character_.sheathe_weapon
      (Character_.draw_best_weapon (Character_.sheathe_weapon c))
    = Character_.sheathe_weapon c
  ∧ weapon_magic_bonus (create_sword magic_bonus) = Z.min magic_bonus 5
  ∧ is_magic (create_sword magic_bonus) = (magic_bonus >? 0)
  ∧ weapon_damage_dice (create_sword magic_bonus) = "1d8".
Proof.
  unfold Character_.draw_best_weapon, Character_.sheathe_weapon.
  assert (weapon_magic_bonus (create_sword magic_bonus) = Z.min magic_bonus 5
          ∧ is_magic (create_sword magic_bonus) = (magic_bonus >? 0)
          ∧ weapon_damage_dice (create_sword magic_bonus) = "1d8") as Hsword
    by done.
  destruct c as [m nm ag cls lv sc dmg aw sh [w|] xp sw];
    cbn [weapon_in_hand with_weapon_in_hand];
    (split; [done|]); (split; [by eexists|]); (split; [done|]);
    (split; [done|]); (split; [done|]); (split; [done|]); exact Hsword.
Qed.

(** ** Adding a member *)

Lemma max_by_snoc {A : Type} (key : A → Z) (rest : list A) (first x : A) :
  Party_.max_by key first (rest ++ [x])
  = if key x >? key (Party_.max_by key first rest) then x
    else Party_.max_by key first rest.
Proof.
  revert first. induction rest as [|y rest IH]; intros first; [done|].
  simpl. destruct (key y >? key first); apply IH.
Qed.

(** X19: [add_member] puts the newcomer last and the party is one larger.
    The highest-level member afterwards is the newcomer if the party was
    empty or if its level is strictly above that of the former
    highest-level member, and the former one otherwise; the number of the
    living grows by one exactly when the newcomer is alive. *)
Theorem a_newcomer_leads_only_with_a_higher_level (p : Party) (x : Combatant) :
  members (Party_.add_member p x) = members p ++ [x]
  ∧ Party_.get_size (Party_.add_member p x) = Party_.get_size p + 1
  ∧ Party_.get_highest_level_member (Party_.add_member p x)
    = Ok (Some (match Party_.get_highest_level_member p with
                | Ok (Some best) =>
                    if get_level x >? get_level best then x else best
                | _ => x
                end))
  ∧ Party_.num_living (Party_.add_member p x)
    = Party_.num_living p + (if is_alive x then 1 else 0)
  ∧ Party_.num_dead (Party_.add_member p x)
    = Party_.num_dead p + (if is_alive x then 0 else 1).
Proof.
  unfold Party_.add_member, Party_.get_size, Party_.get_highest_level_member,
    Party_.num_living, Party_.num_dead, Party_.get_living_members,
    Party_.get_dead_members.
  cbn [members].
  split; [done|].
  split; [rewrite length_app; simpl; lia|].
  split.
  { destruct (members p) as [|first rest]; [done|].
    simpl. by rewrite max_by_snoc. }
  rewrite !filter_app, !length_app,
    (filter_cons (λ m, Is_true (is_alive m))),
    (filter_cons (λ m, Is_true (is_dead m))), !filter_nil.
  destruct (decide (is_alive x)) as [Ha|Hna].
  - assert (¬ is_dead x) as Hnd
      by (intros Hd; by apply (proj1 (is_dead_not_alive x) Hd)).
    rewrite (decide_False (P := Is_true (is_dead x))) by exact Hnd.
    rewrite (Is_true_eq_true _ Ha). simpl. lia.
  - assert (is_dead x) as Hd by (by apply is_dead_not_alive).
    rewrite (decide_True (P := Is_true (is_dead x))) by exact Hd.
    destruct (is_alive x); [by destruct Hna|]. simpl. lia.
Qed.
